(** * eCryptfs (KOCL variant): the extent engines of read_write.c

    A shallow embedding of [src/gaes/ecryptfs_4.7_kocl/read_write.c]:
    [ecryptfs_write_lower], [ecryptfs_write_lower_page_segment],
    [ecryptfs_write] (sequential write), [ecryptfs_write2] (batched write),
    [ecryptfs_read_lower], [ecryptfs_read_lower_page_segment] and
    [ecryptfs_read2] (batched read), over an explicit state holding the
    eCryptfs inode, its page cache and the lower file.

    Integers are [Z]; the conversions the C code performs between
    [loff_t] (signed 64 bit), [size_t]/[pgoff_t] (unsigned 64 bit) and
    [int]/[unsigned int] (32 bit) are written out with [u64], [s64],
    [s32] and [u32].  A [struct page *] is modelled by the index of the
    page in the mapping, an error pointer or NULL.  Memory-unsafe steps
    of the C code (a store through NULL, an access outside an allocated
    array, a read past the end of a mapped page) end the run with
    [Crash].  The loops take fuel; the top-level functions give them
    enough, and the theorems show that [OutOfFuel] is never the outcome.

    The functions the file calls but does not define (page cache, crypto
    engine, metadata store, backend) are modelled after the spec's
    section 6; what they report (a failure, NULL, an error pointer, a
    pending signal) is chosen by an environment [env], and for reads of
    the lower file by a [backend].

    Contents: the model; observations, scenarios and invariants; calls
    on concrete files; the write walks; the batched read; further
    properties of each function (the lower file, the sequential write,
    the batched write, the batched read, round trips). *)

From Stdlib Require Import ZArith Lia Bool List.
From Stdlib Require Import Strings.Byte.
From stdpp Require Import base option list gmap.

Open Scope Z_scope.

(** ** Machine integers *)

Definition u64 (x : Z) : Z := x mod 2 ^ 64.
Definition s64 (x : Z) : Z := (x + 2 ^ 63) mod 2 ^ 64 - 2 ^ 63.
Definition u32 (x : Z) : Z := x mod 2 ^ 32.
Definition s32 (x : Z) : Z := (x + 2 ^ 31) mod 2 ^ 32 - 2 ^ 31.

(** ** Constants of the kernel headers *)

Definition PAGE_SHIFT : Z := 12.
Definition PAGE_SIZE : Z := Z.shiftl 1 PAGE_SHIFT.
Definition PAGE_MASK : Z := Z.lnot (PAGE_SIZE - 1).

Definition EINTR : Z := 4.
Definition EIO : Z := 5.
Definition ENOMEM : Z := 12.
Definition EFAULT : Z := 14.
Definition MAX_ERRNO : Z := 4095.

(** Modelled from the spec: [ecryptfs_kernel.h] is not part of the
    sources at hand.  The spec's three modes (plaintext, encrypted,
    pass-through view) are the two flag bits the code tests in
    [crypt_stat->flags]; the bit positions are those of the eCryptfs
    header of Linux 4.7. *)
Definition ECRYPTFS_ENCRYPTED : Z := 2.
Definition ECRYPTFS_VIEW_AS_ENCRYPTED : Z := 16.

(** ** Pages, the inode and its lower file *)

Record page := Page {
  pg_data : list byte;     (* the PAGE_SIZE bytes seen through kmap *)
  pg_uptodate : bool;      (* PG_uptodate *)
  pg_locked : bool;        (* PG_locked *)
  pg_count : nat           (* references taken by acquisitions and not yet put *)
}.

Record inode := Inode {
  i_size : Z;                     (* i_size_read / i_size_write *)
  crypt_flags : Z;                (* crypt_stat->flags *)
  lower_file : bool;              (* inode private ->lower_file is not NULL *)
  i_mapping : gmap Z page;        (* the page cache of the eCryptfs inode *)
  lower_data : gmap Z byte;       (* the lower file as the crypto engine and
                                     the backend give it back, by logical offset *)
  lower_size : option Z;          (* size record persisted in the metadata *)
  i_dirty : bool;                 (* mark_inode_dirty_sync *)
  f_accessed : bool               (* file_accessed *)
}.

Definition set_i_size (st : inode) (n : Z) : inode :=
  Inode n (crypt_flags st) (lower_file st) (i_mapping st) (lower_data st)
        (lower_size st) (i_dirty st) (f_accessed st).
Definition set_mapping (st : inode) (m : gmap Z page) : inode :=
  Inode (i_size st) (crypt_flags st) (lower_file st) m (lower_data st)
        (lower_size st) (i_dirty st) (f_accessed st).
Definition set_lower_data (st : inode) (m : gmap Z byte) : inode :=
  Inode (i_size st) (crypt_flags st) (lower_file st) (i_mapping st) m
        (lower_size st) (i_dirty st) (f_accessed st).
Definition set_lower_size (st : inode) (o : option Z) : inode :=
  Inode (i_size st) (crypt_flags st) (lower_file st) (i_mapping st) (lower_data st)
        o (i_dirty st) (f_accessed st).
Definition set_dirty (st : inode) : inode :=
  Inode (i_size st) (crypt_flags st) (lower_file st) (i_mapping st) (lower_data st)
        (lower_size st) true (f_accessed st).
Definition set_accessed (st : inode) : inode :=
  Inode (i_size st) (crypt_flags st) (lower_file st) (i_mapping st) (lower_data st)
        (lower_size st) (i_dirty st) true.

Definition flag_set (flags bit : Z) : bool := negb (Z.land flags bit =? 0).

(** ** Pointers and outcomes *)

Inductive pageptr := PNull | PErr (e : Z) | PPage (idx : Z).

Definition IS_ERR (p : pageptr) : bool :=
  match p with
  | PErr e => (- MAX_ERRNO <=? e) && (e <? 0)
  | _ => false
  end.

Definition PTR_ERR (p : pageptr) : Z :=
  match p with PErr e => e | _ => 0 end.

Inductive fault := NullDeref | BadPointer | OutOfBounds | Uninitialised.

Inductive result (A : Type) :=
| Ok (a : A) (st : inode)
| Crash (f : fault)
| OutOfFuel.
Arguments Ok {A} a st.
Arguments Crash {A} f.
Arguments OutOfFuel {A}.

Definition bind {A B} (m : result A) (k : A -> inode -> result B) : result B :=
  match m with
  | Ok a st => k a st
  | Crash f => Crash f
  | OutOfFuel => OutOfFuel
  end.

Notation "'do' ( x , s ) <- m ; k" := (bind m (fun x s => k))
  (at level 10, x name, s name, m at level 100, k at level 200).

(** kmap of a page pointer: only a real page can be mapped. *)
Definition kmap {A} (p : pageptr) (k : Z -> result A) : result A :=
  match p with
  | PPage idx => k idx
  | PNull => Crash NullDeref
  | PErr _ => Crash BadPointer
  end.

(** ** The collaborators' behaviour, chosen by the environment *)

Inductive acq := AcqPage | AcqNull | AcqErr (e : Z).

Record env := Env {
  fatal_signal_pending : nat -> bool;  (* at the start of iteration k of a walk *)
  page_acquire : nat -> Z -> acq;      (* k-th acquisition of the call, for an index *)
  encrypt_page_rc : Z -> Z;            (* ecryptfs_encrypt_page, by page index *)
  kernel_write_rc : Z -> Z;            (* negative errno of kernel_write at an offset, or 0 *)
  encrypt_pages2_rc : Z;               (* ecryptfs_encrypt_pages2 *)
  decrypt_pages_rc : Z;                (* ecryptfs_decrypt_pages *)
  readpage_rc : Z -> Z;                (* mapping->a_ops->readpage, by page index *)
  size_to_metadata_rc : Z;             (* ecryptfs_write_inode_size_to_metadata *)
  kmalloc_ok : bool                    (* kmalloc of the page-pointer array *)
}.

(** ** Page cache primitives (kernel) *)

Definition zero_page : list byte := replicate (Z.to_nat PAGE_SIZE) x00.
Definition new_page : page := Page zero_page false false 0.

Definition get_page (st : inode) (idx : Z) : page :=
  default new_page (i_mapping st !! idx).

Definition set_page (st : inode) (idx : Z) (pg : page) : inode :=
  set_mapping st (<[idx := pg]> (i_mapping st)).

Definition lock_and_get (pg : page) : page :=
  Page (pg_data pg) (pg_uptodate pg) true (S (pg_count pg)).

Definition unlock_page (st : inode) (idx : Z) : inode :=
  let pg := get_page st idx in
  set_page st idx (Page (pg_data pg) (pg_uptodate pg) false (pg_count pg)).

Definition put_page (st : inode) (idx : Z) : inode :=
  let pg := get_page st idx in
  set_page st idx (Page (pg_data pg) (pg_uptodate pg) (pg_locked pg) (Nat.pred (pg_count pg))).

Definition SetPageUptodate (st : inode) (idx : Z) : inode :=
  let pg := get_page st idx in
  set_page st idx (Page (pg_data pg) true (pg_locked pg) (pg_count pg)).

Definition ClearPageUptodate (st : inode) (idx : Z) : inode :=
  let pg := get_page st idx in
  set_page st idx (Page (pg_data pg) false (pg_locked pg) (pg_count pg)).

Definition set_page_data (st : inode) (idx : Z) (d : list byte) : inode :=
  let pg := get_page st idx in
  set_page st idx (Page d (pg_uptodate pg) (pg_locked pg) (pg_count pg)).

(** memset(virt + start, c, n) and memcpy(virt + start, src, n) on a mapped page. *)
Definition memset_page (st : inode) (idx start : Z) (c : byte) (n : Z) : inode :=
  set_page_data st idx
    (list_inserts (Z.to_nat start) (replicate (Z.to_nat n) c) (pg_data (get_page st idx))).

Definition memcpy_to_page (st : inode) (idx start : Z) (src : list byte) : inode :=
  set_page_data st idx (list_inserts (Z.to_nat start) src (pg_data (get_page st idx))).

(** The bytes [data + off .. data + off + n) of a caller's buffer. *)
Definition buf_slice (data : list byte) (off n : Z) : list byte :=
  take (Z.to_nat n) (drop (Z.to_nat off) data).

(** ** The lower file *)

Fixpoint store_bytes (m : gmap Z byte) (off : Z) (l : list byte) : gmap Z byte :=
  match l with
  | [] => m
  | b :: l' => store_bytes (<[off := b]> m) (off + 1) l'
  end.

Definition load_bytes (m : gmap Z byte) (off : Z) (n : nat) : list byte :=
  map (fun i => default x00 (m !! (off + Z.of_nat i))) (seq 0 n).

Definition lower_page (st : inode) (idx : Z) : list byte :=
  load_bytes (lower_data st) (Z.shiftl idx PAGE_SHIFT) (Z.to_nat PAGE_SIZE).

(** ** Collaborators *)

(** The kernel's [grab_cache_page] and [grab_cache_page_write_begin]
    (the spec's [PageCache.acquireLocked]): find the page of the mapping
    or create it zero-initialised, take a reference and lock it; no fill.
    The environment decides whether the page, NULL or an error pointer
    comes back. *)
Definition grab_cache_page (e : env) (k : nat) (st : inode) (idx : Z) : pageptr * inode :=
  match page_acquire e k idx with
  | AcqPage => (PPage idx, set_page st idx (lock_and_get (get_page st idx)))
  | AcqNull => (PNull, st)
  | AcqErr err => (PErr err, st)
  end.

Definition grab_cache_page_write_begin (e : env) (k : nat) (st : inode) (idx : Z)
  : pageptr * inode := grab_cache_page e k st idx.

(** Modelled from the spec: [ecryptfs_get_locked_page] (mmap.c) is not
    among the sources; it is the spec's [PageCache.acquireAndFillLocked]:
    as [acquireLocked], and a page that is not up to date is first filled
    from the backend. *)
Definition ecryptfs_get_locked_page (e : env) (k : nat) (st : inode) (idx : Z)
  : pageptr * inode :=
  match page_acquire e k idx with
  | AcqPage =>
      let pg := get_page st idx in
      let d := if pg_uptodate pg then pg_data pg else lower_page st idx in
      (PPage idx, set_page st idx (Page d true true (S (pg_count pg))))
  | AcqNull => (PNull, st)
  | AcqErr err => (PErr err, st)
  end.

(** What the crypto engine persists for one page: the lower file gives
    the page's bytes back on the next fill or decrypt (spec, section 8:
    decrypt after encrypt recovers the plaintext exactly). *)
Definition persist_page (st : inode) (idx : Z) : inode :=
  set_lower_data st
    (store_bytes (lower_data st) (Z.shiftl idx PAGE_SHIFT) (pg_data (get_page st idx))).

Definition fill_page (st : inode) (idx : Z) : inode :=
  set_page_data st idx (lower_page st idx).

(** Modelled from the spec: [ecryptfs_encrypt_page] (crypto.c) is not
    among the sources; [CryptoEngine.encryptPage(Page) -> status]
    encrypts and persists the single page. *)
Definition ecryptfs_encrypt_page (e : env) (st : inode) (idx : Z) : Z * inode :=
  let rc := encrypt_page_rc e idx in
  if rc =? 0 then (0, persist_page st idx) else (rc, st).

(** An array of page pointers from kmalloc: NULL, or [cap] slots that
    hold nothing until they are stored to. *)
Definition page_array := option (list (option pageptr)).

Definition kmalloc_pages (e : env) (n : Z) : page_array :=
  if (n <? 0) || negb (kmalloc_ok e) then None
  else Some (replicate (Z.to_nat n) None).

Definition is_null (pgs : page_array) : bool :=
  match pgs with None => true | Some _ => false end.

Definition array_get (pgs : page_array) (i : Z) : fault + pageptr :=
  match pgs with
  | None => inl NullDeref
  | Some a =>
      if (i <? 0) || (Z.of_nat (length a) <=? i) then inl OutOfBounds
      else match a !! Z.to_nat i with
           | Some (Some p) => inr p
           | _ => inl Uninitialised
           end
  end.

Definition array_set (pgs : page_array) (i : Z) (p : pageptr) : fault + page_array :=
  match pgs with
  | None => inl NullDeref
  | Some a =>
      if (i <? 0) || (Z.of_nat (length a) <=? i) then inl OutOfBounds
      else inr (Some (<[Z.to_nat i := Some p]> a))
  end.

(** The pages [pgs[i]], ..., [pgs[i+n-1]] a batch call works on. *)
Fixpoint batch_indices (pgs : page_array) (i : Z) (n : nat) : fault + list Z :=
  match n with
  | O => inr []
  | S n' =>
      match array_get pgs i with
      | inl f => inl f
      | inr (PPage idx) =>
          match batch_indices pgs (i + 1) n' with
          | inl f => inl f
          | inr l => inr (idx :: l)
          end
      | inr PNull => inl NullDeref
      | inr (PErr _) => inl BadPointer
      end
  end.

(** Modelled from the spec: [ecryptfs_encrypt_pages2] and
    [ecryptfs_decrypt_pages] (crypto.c of this repository) are not among
    the sources; [CryptoEngine.encryptPages(PageBatch)] and
    [decryptPages(PageBatch)] work on the whole batch and report one
    status (all-or-one-reported-error); decryption fills the pages from
    the lower file. *)
Definition ecryptfs_encrypt_pages2 (e : env) (st : inode) (pgs : page_array) (nr : Z)
  : result Z :=
  match batch_indices pgs 0 (Z.to_nat nr) with
  | inl f => Crash f
  | inr l =>
      let rc := encrypt_pages2_rc e in
      if rc =? 0 then Ok 0 (fold_left persist_page l st) else Ok rc st
  end.

Definition ecryptfs_decrypt_pages (e : env) (st : inode) (pgs : page_array) (nr : Z)
  : result Z :=
  match batch_indices pgs 0 (Z.to_nat nr) with
  | inl f => Crash f
  | inr l =>
      let rc := decrypt_pages_rc e in
      if rc =? 0 then Ok 0 (fold_left fill_page l st) else Ok rc st
  end.

(** Modelled from the spec: the mapping's [readpage] ([ecryptfs_readpage],
    mmap.c) is not among the sources; it is the backend's page-fill
    primitive, which fills the page, marks it up to date and unlocks it. *)
Definition readpage (e : env) (st : inode) (idx : Z) : Z * inode :=
  let rc := readpage_rc e idx in
  if rc =? 0 then (0, unlock_page (SetPageUptodate (fill_page st idx) idx) idx)
  else (rc, unlock_page st idx).

(** Modelled from the spec: [ecryptfs_write_inode_size_to_metadata]
    (inode.c) is not among the sources; [MetadataStore.persistSize]
    persists the current in-memory size and reports a status. *)
Definition ecryptfs_write_inode_size_to_metadata (e : env) (st : inode) : Z * inode :=
  let rc := size_to_metadata_rc e in
  if rc =? 0 then (0, set_lower_size st (Some (i_size st))) else (rc, st).

(** The kernel's [kernel_write(file, data, size, offset)]: [src] are the
    bytes of the object [data] points into, from [data] to its end. *)
Definition kernel_write (e : env) (st : inode) (src : list byte) (size offset : Z)
  : result Z :=
  if Z.of_nat (length src) <? size then Crash OutOfBounds
  else
    let rc := kernel_write_rc e offset in
    if rc <? 0 then Ok rc st
    else Ok size (set_lower_data st
                    (store_bytes (lower_data st) offset (take (Z.to_nat size) src))).

(** ** read_write.c *)

(** [ecryptfs_write_lower], lines 40-52. *)
Definition ecryptfs_write_lower (e : env) (st : inode) (data : list byte)
    (offset size : Z) : result Z :=
  if negb (lower_file st) then Ok (- EIO) st
  else
    do (rc, st) <- kernel_write e st data size offset;
    let st := set_dirty st in
    Ok (s32 rc) st.

(** [ecryptfs_write_lower_page_segment], lines 70-86.  The data handed to
    [ecryptfs_write_lower] is [virt], the start of the mapped page. *)
Definition ecryptfs_write_lower_page_segment (e : env) (st : inode)
    (page_for_lower : Z) (offset_in_page size : Z) : result Z :=
  let offset := s64 (Z.shiftl page_for_lower PAGE_SHIFT + offset_in_page) in
  let virt := pg_data (get_page st page_for_lower) in
  do (rc, st) <- ecryptfs_write_lower e st virt offset size;
  let rc := if rc >? 0 then 0 else rc in
  Ok rc st.

(** *** The offset translator shared by the walks *)

Inductive ctl := Next | Break | GotoOut.

(** [pos >> PAGE_SHIFT] as a [pgoff_t] and [pos & ~PAGE_MASK] as a [size_t]. *)
Definition page_index (pos : Z) : Z := u64 (Z.shiftr pos PAGE_SHIFT).
Definition offset_in_page (pos : Z) : Z := Z.land pos (Z.lnot PAGE_MASK).

(** [num_bytes] of a write step: the rest of the page, capped by the rest
    of the request and, before [offset], by the zeros still to write.
    The comparisons are unsigned. *)
Definition write_num_bytes (offset size pos : Z) : Z :=
  let start_offset_in_page := offset_in_page pos in
  let num_bytes := PAGE_SIZE - start_offset_in_page in
  let total_remaining_bytes := u64 (u64 (offset + size) - pos) in
  let num_bytes :=
    if num_bytes >? total_remaining_bytes then total_remaining_bytes else num_bytes in
  if pos <? offset then
    let total_remaining_zeros := u64 (offset - pos) in
    if num_bytes >? total_remaining_zeros then total_remaining_zeros else num_bytes
  else num_bytes.

(** Where the write walks start: [offset], or the current size when
    [offset] lies beyond it (lines 124-127 and 252-255). *)
Definition write_start (offset file_size : Z) : Z :=
  if offset >? file_size then file_size else offset.

(** The walks advance by at least one byte per iteration; this many
    iterations are enough for the loop from [pos]. *)
Definition walk_fuel (offset size pos : Z) : nat :=
  Z.to_nat (u64 (offset + size) - pos).

(** The part of a write step that works on the mapped page; the two
    write functions have the same text for it (lines 158-184 and
    282-308): zero-fill to the end of the page when the step is before
    [offset] or starts a page, copy the caller's bytes when it is at or
    after [offset], then mark the page up to date and unlock it.
    Returns the state and the new [data_offset]. *)
Definition write_fill_page (st : inode) (pg : Z) (data : list byte)
    (offset pos data_offset num_bytes : Z) : inode * Z :=
  let start_offset_in_page := offset_in_page pos in
  let st :=
    if (pos <? offset) || (start_offset_in_page =? 0)
    then memset_page st pg start_offset_in_page x00 (PAGE_SIZE - start_offset_in_page)
    else st in
  let '(st, data_offset) :=
    if offset <=? pos
    then (memcpy_to_page st pg start_offset_in_page
            (buf_slice data data_offset num_bytes),
          s64 (data_offset + num_bytes))
    else (st, data_offset) in
  let st := SetPageUptodate st pg in
  let st := unlock_page st pg in
  (st, data_offset).

(** *** [ecryptfs_write], lines 106-219 *)

Record wvars := WVars { v_pos : Z; v_data_offset : Z; v_rc : Z }.

(** One iteration of the while loop, lines 129-198. *)
Definition ecryptfs_write_body (e : env) (data : list byte) (offset size : Z)
    (k : nat) (v : wvars) (st : inode) : result (ctl * wvars) :=
  let pos := v_pos v in
  let data_offset := v_data_offset v in
  let ecryptfs_page_idx := page_index pos in
  let start_offset_in_page := offset_in_page pos in
  if fatal_signal_pending e k then Ok (Break, WVars pos data_offset (- EINTR)) st
  else
    let num_bytes := write_num_bytes offset size pos in
    let (ecryptfs_page, st) := ecryptfs_get_locked_page e k st ecryptfs_page_idx in
    if IS_ERR ecryptfs_page
    then Ok (GotoOut, WVars pos data_offset (PTR_ERR ecryptfs_page)) st
    else kmap ecryptfs_page (fun pg =>
      let '(st, data_offset) :=
        write_fill_page st pg data offset pos data_offset num_bytes in
      do (rc, st) <-
         (if flag_set (crypt_flags st) ECRYPTFS_ENCRYPTED
          then let (rc, st) := ecryptfs_encrypt_page e st pg in Ok rc st
          else ecryptfs_write_lower_page_segment e st pg start_offset_in_page
                 (u64 data_offset));
      let st := put_page st pg in
      if negb (rc =? 0) then Ok (GotoOut, WVars pos data_offset rc) st
      else Ok (Next, WVars (s64 (pos + num_bytes)) data_offset rc) st).

Fixpoint ecryptfs_write_loop (fuel : nat) (e : env) (data : list byte)
    (offset size : Z) (k : nat) (v : wvars) (st : inode) : result (ctl * wvars) :=
  if u64 (v_pos v) <? u64 (offset + size) then
    match fuel with
    | O => OutOfFuel
    | S fuel' =>
        match ecryptfs_write_body e data offset size k v st with
        | Ok (Next, v') st' => ecryptfs_write_loop fuel' e data offset size (S k) v' st'
        | r => r
        end
    end
  else Ok (Next, v) st.

Definition ecryptfs_write (e : env) (st : inode) (data : list byte)
    (offset size : Z) : result Z :=
  let ecryptfs_file_size := i_size st in
  let pos := write_start offset ecryptfs_file_size in
  do (r, st) <- ecryptfs_write_loop (walk_fuel offset size pos) e data offset size
                  O (WVars pos 0 0) st;
  let '(c, v) := r in
  match c with
  | GotoOut => Ok (v_rc v) st
  | _ =>
      if v_pos v >? ecryptfs_file_size then
        let st := set_i_size st (v_pos v) in
        if flag_set (crypt_flags st) ECRYPTFS_ENCRYPTED then
          let (rc2, st) := ecryptfs_write_inode_size_to_metadata e st in
          if negb (rc2 =? 0)
          then Ok (if v_rc v =? 0 then rc2 else v_rc v) st
          else Ok (v_rc v) st
        else Ok (v_rc v) st
      else Ok (v_rc v) st
  end.

(** *** [ecryptfs_write2], lines 221-350 *)

Record w2vars := W2Vars {
  b_pos : Z; b_data_offset : Z; b_rc : Z; b_i : Z; b_pgs : page_array
}.

(** One iteration of the while loop, lines 257-325. *)
Definition ecryptfs_write2_body (e : env) (data : list byte) (offset size : Z)
    (k : nat) (v : w2vars) (st : inode) : result (ctl * w2vars) :=
  let pos := b_pos v in
  let data_offset := b_data_offset v in
  let ecryptfs_page_idx := page_index pos in
  let start_offset_in_page := offset_in_page pos in
  let num_bytes := write_num_bytes offset size pos in
  let (ecryptfs_page, st) := grab_cache_page_write_begin e k st ecryptfs_page_idx in
  if IS_ERR ecryptfs_page
  then Ok (GotoOut, W2Vars pos data_offset (PTR_ERR ecryptfs_page) (b_i v) (b_pgs v)) st
  else kmap ecryptfs_page (fun pg =>
    let '(st, data_offset) :=
      write_fill_page st pg data offset pos data_offset num_bytes in
    if flag_set (crypt_flags st) ECRYPTFS_ENCRYPTED then
      match array_set (b_pgs v) (b_i v) ecryptfs_page with
      | inl f => Crash f
      | inr pgs =>
          Ok (Next, W2Vars (s64 (pos + num_bytes)) data_offset (b_rc v)
                      (s32 (b_i v + 1)) pgs) st
      end
    else
      do (rc, st) <- ecryptfs_write_lower_page_segment e st pg start_offset_in_page
                       (u64 data_offset);
      let st := put_page st pg in
      if negb (rc =? 0) then Ok (GotoOut, W2Vars pos data_offset rc (b_i v) (b_pgs v)) st
      else Ok (Next, W2Vars (s64 (pos + num_bytes)) data_offset rc (b_i v) (b_pgs v)) st).

Fixpoint ecryptfs_write2_loop (fuel : nat) (e : env) (data : list byte)
    (offset size : Z) (k : nat) (v : w2vars) (st : inode) : result (ctl * w2vars) :=
  if u64 (b_pos v) <? u64 (offset + size) then
    match fuel with
    | O => OutOfFuel
    | S fuel' =>
        match ecryptfs_write2_body e data offset size k v st with
        | Ok (Next, v') st' => ecryptfs_write2_loop fuel' e data offset size (S k) v' st'
        | r => r
        end
    end
  else Ok (Next, v) st.

(** [for (i=0; i<nrpgs; i++) put_page(pgs[i])] *)
Definition put_pages (st : inode) (pgs : page_array) (nr : Z) : result unit :=
  match batch_indices pgs 0 (Z.to_nat nr) with
  | inl f => Crash f
  | inr l => Ok tt (fold_left put_page l st)
  end.

Definition ecryptfs_write2 (e : env) (st : inode) (data : list byte)
    (offset size : Z) : result Z :=
  let ecryptfs_file_size := i_size st in
  let nrpgs := s32 (size / PAGE_SIZE) in
  let nrpgs := if negb (Z.land size (PAGE_SIZE - 1) =? 0) then s32 (nrpgs + 1) else nrpgs in
  let pgs := kmalloc_pages e nrpgs in
  if is_null pgs then Ok (- ENOMEM) st
  else
    let pos := write_start offset ecryptfs_file_size in
    do (r, st) <- ecryptfs_write2_loop (walk_fuel offset size pos) e data offset size
                    O (W2Vars pos 0 0 0 pgs) st;
    let '(c, v) := r in
    match c with
    | GotoOut => Ok (b_rc v) st
    | _ =>
        do (rc, st) <-
           (if flag_set (crypt_flags st) ECRYPTFS_ENCRYPTED then
              do (rc, st) <- ecryptfs_encrypt_pages2 e st (b_pgs v) nrpgs;
              do (_u, st) <- put_pages st (b_pgs v) nrpgs;
              Ok rc st
            else Ok (b_rc v) st);
        if u64 (offset + size) >? u64 ecryptfs_file_size then
          let st := set_i_size st (s64 (u64 (offset + size))) in
          if flag_set (crypt_flags st) ECRYPTFS_ENCRYPTED then
            let (rc, st) := ecryptfs_write_inode_size_to_metadata e st in
            Ok rc st
          else Ok rc st
        else Ok rc st
    end.

(** *** [ecryptfs_read2], lines 427-539 *)

(** The page-acquisition loop, lines 464-474. *)
Fixpoint ecryptfs_read2_grab (fuel : nat) (e : env) (nodec : bool) (nr_pages : Z)
    (page_idx : Z) (rc : Z) (pgs : page_array) (st : inode)
  : result (ctl * (Z * page_array)) :=
  if page_idx <? u32 nr_pages then
    match fuel with
    | O => OutOfFuel
    | S fuel' =>
        let (page, st) := grab_cache_page e (Z.to_nat page_idx) st page_idx in
        match page with
        | PNull => Ok (GotoOut, (rc, pgs)) st
        | _ =>
            do (rc, st) <-
               (if nodec
                then kmap page (fun pg =>
                       let (r, st) := readpage e st pg in Ok (Z.lor rc r) st)
                else Ok rc st);
            match array_set pgs page_idx page with
            | inl f => Crash f
            | inr pgs =>
                ecryptfs_read2_grab fuel' e nodec nr_pages (u32 (page_idx + 1)) rc pgs st
            end
        end
    end
  else Ok (Next, (rc, pgs)) st.

Record rvars := RVars {
  r_pos : Z; r_data_offset : Z; r_written : Z; r_page_idx : Z;
  r_rc2 : Z; r_data : list byte
}.

(** One iteration of the copy loop, lines 497-532; [r_data] is the
    caller's destination buffer. *)
Definition ecryptfs_read2_body (pgs : page_array) (rc : Z) (offset size : Z)
    (v : rvars) (st : inode) : result (ctl * rvars) :=
  let pos := r_pos v in
  let start_offset_in_page := offset_in_page pos in
  let num_bytes := PAGE_SIZE - start_offset_in_page in
  let total_remaining_bytes := u64 (u64 (offset + size) - pos) in
  let num_bytes :=
    if num_bytes >? total_remaining_bytes then total_remaining_bytes else num_bytes in
  match array_get pgs (r_page_idx v) with
  | inl f => Crash f
  | inr ecryptfs_page =>
      if IS_ERR ecryptfs_page
      then Ok (GotoOut, RVars pos (r_data_offset v) (r_written v) (r_page_idx v)
                          (PTR_ERR ecryptfs_page) (r_data v)) st
      else kmap ecryptfs_page (fun pg =>
        let data :=
          list_inserts (Z.to_nat (r_data_offset v))
            (buf_slice (pg_data (get_page st pg)) start_offset_in_page num_bytes)
            (r_data v) in
        let st := if negb (rc =? 0) then ClearPageUptodate st pg
                  else SetPageUptodate st pg in
        let st := unlock_page st pg in
        let st := put_page st pg in
        Ok (Next, RVars (s64 (pos + num_bytes)) (s64 (r_data_offset v + num_bytes))
                    (s32 (r_written v + num_bytes)) (u32 (r_page_idx v + 1))
                    (r_rc2 v) data) st)
  end.

Fixpoint ecryptfs_read2_loop (fuel : nat) (pgs : page_array) (rc : Z)
    (offset size : Z) (v : rvars) (st : inode) : result (ctl * rvars) :=
  if u64 (r_pos v) <? u64 (offset + size) then
    match fuel with
    | O => OutOfFuel
    | S fuel' =>
        match ecryptfs_read2_body pgs rc offset size v st with
        | Ok (Next, v') st' => ecryptfs_read2_loop fuel' pgs rc offset size v' st'
        | r => r
        end
    end
  else Ok (Next, v) st.

(** The result is the returned count and the destination buffer. *)
Definition ecryptfs_read2 (e : env) (st : inode) (data : list byte)
    (offset size : Z) : result (Z * list byte) :=
  let ecryptfs_file_size := i_size st in
  let size := if size >? u64 ecryptfs_file_size then u64 ecryptfs_file_size else size in
  let nr_pages := s32 (Z.shiftr (u64 (size + PAGE_SIZE - 1)) PAGE_SHIFT) in
  let nodec := negb (flag_set (crypt_flags st) ECRYPTFS_ENCRYPTED)
               || flag_set (crypt_flags st) ECRYPTFS_VIEW_AS_ENCRYPTED in
  let pgs := if nodec then None else kmalloc_pages e nr_pages in
  if negb nodec && is_null pgs then Ok (- EFAULT, data) st
  else
    do (r, st) <- ecryptfs_read2_grab (Z.to_nat (u32 nr_pages)) e nodec nr_pages 0 0 pgs st;
    let '(c, (rc, pgs)) := r in
    match c with
    | GotoOut => Ok (0, data) (set_accessed st)
    | _ =>
        do (rc, st) <- (if negb nodec then ecryptfs_decrypt_pages e st pgs nr_pages
                        else Ok rc st);
        if offset >=? ecryptfs_file_size then Ok (0, data) (set_accessed st)
        else
          do (r, st) <- ecryptfs_read2_loop (walk_fuel offset size offset) pgs rc
                          offset size (RVars offset 0 0 0 0 data) st;
          let '(_c, v) := r in
          Ok (r_written v, r_data v) (set_accessed st)
    end.

(** ** Observations *)

Definition returned {A} (r : result A) : option A :=
  match r with Ok a _ => Some a | _ => None end.

Definition state_of {A} (r : result A) : option inode :=
  match r with Ok _ st => Some st | _ => None end.

(** The byte of the logical file at position [p], as the page cache holds it. *)
Definition file_byte (st : inode) (p : Z) : option byte :=
  pg ← i_mapping st !! page_index p;
  pg_data pg !! Z.to_nat (offset_in_page p).

(** The byte of the lower file at an offset, if it was ever written. *)
Definition lower_byte (st : inode) (off : Z) : option byte := lower_data st !! off.

Definition encrypted (st : inode) : bool := flag_set (crypt_flags st) ECRYPTFS_ENCRYPTED.

(** Decryption is needed: the negation of [nodec] in [ecryptfs_read2]. *)
Definition needs_decrypt (st : inode) : bool :=
  flag_set (crypt_flags st) ECRYPTFS_ENCRYPTED
  && negb (flag_set (crypt_flags st) ECRYPTFS_VIEW_AS_ENCRYPTED).

(** ** Scenarios *)

(** No signal, every acquisition gives the page, every collaborator succeeds. *)
Definition quiet_env : env :=
  Env (fun _ => false) (fun _ _ => AcqPage) (fun _ => 0) (fun _ => 0) 0 0 (fun _ => 0) 0 true.

(** As [quiet_env], with a fatal signal pending all the time. *)
Definition signal_env : env :=
  Env (fun _ => true) (fun _ _ => AcqPage) (fun _ => 0) (fun _ => 0) 0 0 (fun _ => 0) 0 true.

(** As [quiet_env], but the group encryption reports [-EIO]. *)
Definition crypto_fail_env : env :=
  Env (fun _ => false) (fun _ _ => AcqPage) (fun _ => - EIO) (fun _ => 0) (- EIO) 0
      (fun _ => 0) 0 true.

(** As [quiet_env], but the second page acquisition of a call gives NULL. *)
Definition second_grab_fails_env : env :=
  Env (fun _ => false) (fun k _ => if Nat.eqb k 1 then AcqNull else AcqPage)
      (fun _ => 0) (fun _ => 0) 0 0 (fun _ => 0) 0 true.

Definition empty_file (flags : Z) : inode := Inode 0 flags true ∅ ∅ None false false.

(** "HELLO" *)
Definition hello : list byte := [x48; x45; x4c; x4c; x4f].

Definition hello_page : page :=
  Page (hello ++ replicate (Z.to_nat PAGE_SIZE - 5) x00) true false 0.

(** A plaintext file of 5 bytes, "HELLO", cached and on the lower file. *)
Definition hello_plain : inode :=
  Inode 5 0 true {[ 0 := hello_page ]} (store_bytes ∅ 0 hello) None true false.

(** An encrypted file of 5 bytes, "HELLO": the page is cached, and
    persisted as a whole through the crypto engine. *)
Definition hello_encrypted : inode :=
  Inode 5 ECRYPTFS_ENCRYPTED true {[ 0 := hello_page ]}
        (store_bytes ∅ 0 (pg_data hello_page)) (Some 5) false false.


(** An encrypted file of 4097 bytes: page 0 is a hole, byte 4096 is "X";
    both pages are cached and persisted. *)
Definition x_page : page := Page (x58 :: replicate (Z.to_nat PAGE_SIZE - 1) x00) true false 0.

Definition second_page_file : inode :=
  Inode 4097 ECRYPTFS_ENCRYPTED true
        (<[1 := x_page]> {[ 0 := Page zero_page true false 0 ]})
        (store_bytes (store_bytes ∅ 0 zero_page) 4096 (pg_data x_page))
        (Some 4097) false false.

(** Files can be compared. *)
#[global] Instance byte_eq_dec : EqDecision byte := Byte.byte_eq_dec.
#[global] Instance page_eq_dec : EqDecision page.
Proof. solve_decision. Defined.
#[global] Instance inode_eq_dec : EqDecision inode.
Proof. solve_decision. Defined.

(** ** Invariants used by the proofs *)

(** Every cached page holds PAGE_SIZE bytes. *)
Definition wf_cache (st : inode) : Prop :=
  map_Forall (fun _ pg => length (pg_data pg) = Z.to_nat PAGE_SIZE) (i_mapping st).

(** The page of position [p] is cached and up to date, and its byte at
    [p] is [b]. *)
Definition byte_at (st : inode) (p : Z) (b : byte) : Prop :=
  exists pg, i_mapping st !! (p / PAGE_SIZE) = Some pg /\
             pg_uptodate pg = true /\
             pg_data pg !! Z.to_nat (p mod PAGE_SIZE) = Some b.

(** What a write of [data] at [offset] puts at position [p] of its walk:
    a zero in the hole before [offset], the caller's byte from [offset] on. *)
Definition expected_byte (data : list byte) (offset p : Z) : option byte :=
  if p <? offset then Some x00 else data !! Z.to_nat (p - offset).

(** The walk has done [lo, hi): every position there holds its expected
    byte in the cache, and on an encrypted file in the lower file too. *)
Definition walk_done (st : inode) (data : list byte) (offset lo hi : Z) : Prop :=
  forall p b, lo <= p < hi -> expected_byte data offset p = Some b ->
    byte_at st p b /\ (encrypted st = true -> lower_data st !! p = Some b).

(** [st'] differs from [st] in the cache only at [idx], where it holds
    [pg]; size, flags and lower file handle are those of [st]. *)
Definition touched (st st' : inode) (idx : Z) (pg : page) : Prop :=
  i_mapping st' = <[idx := pg]> (i_mapping st) /\
  i_size st' = i_size st /\
  crypt_flags st' = crypt_flags st /\
  lower_file st' = lower_file st.

(** Frame of a read over the batch of pages 0 .. nr-1: the cache outside
    these indices, the size, the flags and the lower file are those of [st]. *)
Definition batch_frame (nr : Z) (st st' : inode) : Prop :=
  (forall i, i < 0 \/ nr <= i -> i_mapping st' !! i = i_mapping st !! i) /\
  i_size st' = i_size st /\
  crypt_flags st' = crypt_flags st /\
  lower_data st' = lower_data st.

(** The pages 0 .. j-1 are slots 0 .. j-1 of the array. *)
Definition batch_filled (a : list (option pageptr)) (j : Z) : Prop :=
  forall i, 0 <= i < j -> a !! Z.to_nat i = Some (Some (PPage i)).

(** The two states give every page the same bytes. *)
Definition same_data (st st' : inode) : Prop :=
  forall i, pg_data (get_page st' i) = pg_data (get_page st i).

(** The cache page a read step takes its bytes from: the slot counted
    from the start of the call, for the step that covers position [p]. *)
Definition batch_slot (offset p : Z) : Z := p / PAGE_SIZE - offset / PAGE_SIZE.

(** Invariant of the copy loop of [ecryptfs_read2]: the cursors follow
    [pos], and each byte copied so far is the byte at the in-page offset
    of its position in the page of its batch slot, one of the [nr]
    slots of the array. *)
Definition read_inv (nr offset : Z) (st0 : inode) (data0 : list byte) (v : rvars)
  : Prop :=
  r_data_offset v = r_pos v - offset /\
  r_written v = r_pos v - offset /\
  length (r_data v) = length data0 /\
  forall j, 0 <= j < r_pos v - offset ->
    0 <= batch_slot offset (offset + j) < nr /\
    r_data v !! Z.to_nat j
    = pg_data (get_page st0 (batch_slot offset (offset + j)))
        !! Z.to_nat ((offset + j) mod PAGE_SIZE).

(** Every page cached in [st] is still cached in [st']. *)
Definition keeps_pages (st st' : inode) : Prop :=
  forall i, is_Some (i_mapping st !! i) -> is_Some (i_mapping st' !! i).

(** The request length after the clamp of [ecryptfs_read2] (lines
    446-447) and the page count it computes from it (line 449), as
    plain numbers. *)
Definition clamped_size (st : inode) (size : Z) : Z := Z.min size (i_size st).
Definition batch_pages (st : inode) (size : Z) : Z :=
  (clamped_size st size + PAGE_SIZE - 1) / PAGE_SIZE.

(** An environment in which nothing interrupts or fails a sequential
    write on an encrypted file. *)
Definition cooperative (e : env) : Prop :=
  (forall k, fatal_signal_pending e k = false) /\
  (forall k idx, page_acquire e k idx = AcqPage) /\
  (forall idx, encrypt_page_rc e idx = 0) /\
  size_to_metadata_rc e = 0.

(** The environment [e] with another fatal-signal oracle. *)
Definition with_signal (f : nat -> bool) (e : env) : env :=
  Env f (page_acquire e) (encrypt_page_rc e) (kernel_write_rc e) (encrypt_pages2_rc e)
      (decrypt_pages_rc e) (readpage_rc e) (size_to_metadata_rc e) (kmalloc_ok e).

(** The slots 0 .. j-1 of the array have been stored to, each with a page. *)
Definition batch_stored (a : list (option pageptr)) (j : Z) : Prop :=
  forall i, 0 <= i < j -> exists idx, a !! Z.to_nat i = Some (Some (PPage idx)).

(** The page count [nrpgs] of [ecryptfs_write2] (lines 231-238), as a plain
    number. *)
Definition write2_pages (size : Z) : Z := (size + PAGE_SIZE - 1) / PAGE_SIZE.

(** ** Proof automation *)

(** Case analysis on the integer comparisons the goal branches on. *)
Ltac case_cmp :=
  repeat match goal with
         | |- context [?a >? ?b] => destruct (Z.gtb_spec a b)
         | |- context [?a <? ?b] => destruct (Z.ltb_spec a b)
         | |- context [?a <=? ?b] => destruct (Z.leb_spec a b)
         | |- context [?a >=? ?b] => destruct (Z.geb_spec a b)
         end.


(** ** Reading the lower file: lines 365-408 *)

Definition EINVAL : Z := 22.

(** [INT_MAX & PAGE_MASK], the most one [vfs_read] transfers. *)
Definition MAX_RW_COUNT : Z := Z.land (2 ^ 31 - 1) PAGE_MASK.

(** The length of the lower file: one past the last byte ever stored in
    it.  A byte below it that was never stored lies in a hole and reads
    as zero. *)
Definition lower_end (st : inode) : Z :=
  map_fold (fun off _ n => Z.max n (off + 1)) 0 (lower_data st).

(** What the backend reports for a read at an offset: a negative errno,
    or anything else when the read goes through. *)
Record backend := Backend { kernel_read_rc : Z -> Z }.

(** The kernel's [kernel_read(file, offset, addr, count)]: [dst] is the
    object [addr] points into, from [addr] to its end.  The transfer
    stops at the end of the file; the result is the number of bytes
    transferred and the object afterwards. *)
Definition kernel_read (b : backend) (st : inode) (offset : Z) (dst : list byte)
    (count : Z) : result (Z * list byte) :=
  if offset <? 0 then Ok (- EINVAL, dst) st
  else
    let rc := kernel_read_rc b offset in
    if rc <? 0 then Ok (rc, dst) st
    else
      let n := Z.min (Z.min count MAX_RW_COUNT) (Z.max 0 (lower_end st - offset)) in
      if Z.of_nat (length dst) <? n then Crash OutOfBounds
      else Ok (n, list_inserts 0 (load_bytes (lower_data st) offset (Z.to_nat n)) dst) st.

(** [ecryptfs_read_lower], lines 365-374. *)
Definition ecryptfs_read_lower (b : backend) (st : inode) (data : list byte)
    (offset size : Z) : result (Z * list byte) :=
  if negb (lower_file st) then Ok (- EIO, data) st
  else kernel_read b st offset data size.

(** [ecryptfs_read_lower_page_segment], lines 391-408.  The destination
    handed to [ecryptfs_read_lower] is [virt], the start of the mapped
    page; the offset in the lower file comes from the [page_index]
    argument, not from the page. *)
Definition ecryptfs_read_lower_page_segment (b : backend) (st : inode)
    (page_for_ecryptfs : Z) (page_index offset_in_page size : Z) : result Z :=
  let offset := s64 (Z.shiftl page_index PAGE_SHIFT + offset_in_page) in
  let virt := pg_data (get_page st page_for_ecryptfs) in
  do (r, st) <- ecryptfs_read_lower b st virt offset size;
  let '(rc, virt) := r in
  let st := set_page_data st page_for_ecryptfs virt in
  let rc := if rc >? 0 then 0 else rc in
  Ok rc st.

(** A backend whose reads go through. *)
Definition quiet_backend : backend := Backend (fun _ => 0).

(** ** Page references and locks *)

(** From [st] to [st'] every page keeps its reference count, and no page
    is locked that was not locked before: whatever was acquired in
    between has been unlocked and put. *)
Definition balanced (st st' : inode) : Prop :=
  forall idx,
    pg_count (get_page st' idx) = pg_count (get_page st idx) /\
    (pg_locked (get_page st' idx) = true -> pg_locked (get_page st idx) = true).

(** The bytes [ecryptfs_get_locked_page] presents for a page: those of
    the cache when the page is up to date, those of the lower file
    otherwise. *)
Definition page_in (st : inode) (idx : Z) : list byte :=
  if pg_uptodate (get_page st idx) then pg_data (get_page st idx) else lower_page st idx.

(** A page after a step of the copy loop of [ecryptfs_read2]: marked up
    to date or not by the status of the decryption, unlocked, one
    reference less. *)
Definition release_page (rc : Z) (pg : page) : page :=
  Page (pg_data pg) (rc =? 0) false (Nat.pred (pg_count pg)).

(** A page with other bytes. *)
Definition refill_page (d : list byte) (pg : page) : page :=
  Page d (pg_uptodate pg) (pg_locked pg) (pg_count pg).

(** ** The batch of a page-aligned write *)

(** Slot [i] of the array holds page [q + i], for the first [k] slots. *)
Definition batch_from (q : Z) (a : list (option pageptr)) (k : Z) : Prop :=
  forall i, 0 <= i < k -> a !! Z.to_nat i = Some (Some (PPage (q + i))).

(** The pages [q .. q+k-1] have been written by the walk: each is cached,
    up to date, unlocked, holds one reference more than in [st0] and the
    caller's bytes at the positions of the request; the other pages, the
    size, the flags and the lower file are those of [st0]. *)
Definition batch_written (st0 st : inode) (data : list byte) (offset size q k : Z)
  : Prop :=
  (forall idx, q <= idx < q + k ->
     exists pg, i_mapping st !! idx = Some pg /\
       length (pg_data pg) = Z.to_nat PAGE_SIZE /\
       pg_uptodate pg = true /\ pg_locked pg = false /\
       pg_count pg = S (pg_count (get_page st0 idx)) /\
       forall p, offset <= p < offset + size -> p / PAGE_SIZE = idx ->
         pg_data pg !! Z.to_nat (p mod PAGE_SIZE) = data !! Z.to_nat (p - offset)) /\
  (forall idx, ~ (q <= idx < q + k) -> i_mapping st !! idx = i_mapping st0 !! idx) /\
  i_size st = i_size st0 /\ crypt_flags st = crypt_flags st0 /\
  lower_data st = lower_data st0.

(** A page after [put_page]: one reference less. *)
Definition unref_page (pg : page) : page :=
  Page (pg_data pg) (pg_uptodate pg) (pg_locked pg) (Nat.pred (pg_count pg)).

(** ** What a read must not change *)

(** [st'] has the size, the mode flags, the lower file and the persisted
    size record of [st]. *)
Definition same_file (st st' : inode) : Prop :=
  i_size st' = i_size st /\ crypt_flags st' = crypt_flags st /\
  lower_data st' = lower_data st /\ lower_size st' = lower_size st /\
  lower_file st' = lower_file st.

(** ** The page array of a batch *)

(** Every page pointer stored in the array is a page of the cache
    indices 0 .. nr-1. *)
Definition batch_bounded (nr : Z) (pgs : page_array) : Prop :=
  match pgs with
  | None => True
  | Some a => forall i p, a !! i = Some (Some (PPage p)) -> 0 <= p < nr
  end.

(** As [quiet_env], but the kmalloc of the page-pointer array fails. *)
Definition alloc_fail_env : env :=
  Env (fun _ => false) (fun _ _ => AcqPage) (fun _ => 0) (fun _ => 0) 0 0 (fun _ => 0) 0 false.
(** * Properties *)

(** ** Calls on concrete files *)

(** The spec's scenario: on an empty encrypted file, writing "HELLO" at
    offset 0 makes the size 5, and reading (0, 5) gives "HELLO" back. *)
Example hello_roundtrip :
  let r := ecryptfs_write quiet_env (empty_file ECRYPTFS_ENCRYPTED) hello 0 5 in
  returned r = Some 0 /\
  (i_size <$> state_of r) = Some 5 /\
  returned (do (_rc, st) <- r; ecryptfs_read2 quiet_env st (replicate 5 xff) 0 5)
  = Some (5, hello).
Proof. vm_compute. auto. Qed.

(** The spec's second scenario, on the encrypted file "HELLO": writing
    "X" at offset 10 makes the size 11; reading (5, 5) gives five zero
    bytes and reading (10, 1) gives "X".  All of it lies in page 0. *)
Example hole_scenario :
  let r := ecryptfs_write quiet_env hello_encrypted [x58] 10 1 in
  returned r = Some 0 /\
  (i_size <$> state_of r) = Some 11 /\
  returned (do (_rc, st) <- r; ecryptfs_read2 quiet_env st (replicate 5 xff) 5 5)
  = Some (5, replicate 5 x00) /\
  returned (do (_rc, st) <- r; ecryptfs_read2 quiet_env st [xff] 10 1)
  = Some (1, [x58]).
Proof. vm_compute. auto. Qed.

(** The files of the scenarios are what the sequential write leaves. *)
Example scenario_files_reachable :
  state_of (ecryptfs_write quiet_env (empty_file ECRYPTFS_ENCRYPTED) hello 0 5)
  = Some hello_encrypted /\
  state_of (ecryptfs_write quiet_env (empty_file 0) hello 0 5) = Some hello_plain /\
  state_of (ecryptfs_write quiet_env (empty_file ECRYPTFS_ENCRYPTED) [x58] 4096 1)
  = Some second_page_file.
Proof.
  match goal with |- ?P => apply (@bool_decide_unpack P _) end.
  vm_compute. exact I.
Qed.

(** A read on a plaintext file does not return: [pgs] is NULL when no
    decryption is needed, and the acquisition loop stores through it. *)
Example read2_plaintext_null_store :
  ecryptfs_read2 quiet_env hello_plain (replicate 5 xff) 0 5 = Crash NullDeref.
Proof. vm_compute. reflexivity. Qed.

(** A batched write whose walk makes more steps than [nrpgs] counts
    (here a hole step and a data step for one page of data) stores past
    the end of [pgs]. *)
Example write2_batch_overflow :
  ecryptfs_write2 quiet_env (empty_file ECRYPTFS_ENCRYPTED) hello 10 5
  = Crash OutOfBounds.
Proof. vm_compute. reflexivity. Qed.

(** C1, at an input where the code departs from it: on an empty encrypted file, a write of one byte [b] at
    offset 4096 succeeds and makes the size 4097; the read of the same
    range (4096, 1) returns one byte, and that byte is zero whatever [b]
    was: it is taken from page 0 of the cache, the first page of the call's
    batch, and not from page 1 where the byte was written. *)
Theorem write_then_read_beyond_first_page :
  forall b : byte,
    let r := ecryptfs_write quiet_env (empty_file ECRYPTFS_ENCRYPTED) [b] 4096 1 in
    returned r = Some 0 /\
    (i_size <$> state_of r) = Some 4097 /\
    (st ← state_of r; file_byte st 4096) = Some b /\
    returned (do (_rc, st) <- r; ecryptfs_read2 quiet_env st [xff] 4096 1)
    = Some (1, [x00]).
Proof. intros b. vm_compute. auto. Qed.

(** C2, at an input where the code departs from it: on the encrypted
    file "HELLO" (size 5), a write of "X" at offset 8192 succeeds, makes
    the size 8193 and zero-fills the gap: position 4096, in the gap, is
    zero in the page cache and in the lower file.  Read back, the gap is
    zero inside the first page (the read of (5, 5) gives five zero
    bytes), but the read of (4096, 1) returns "H": the byte is taken
    from page 0 of the cache, the first page of the call's batch, and
    not from the page of position 4096. *)
Theorem write_gap_read_back_beyond_first_page :
  let r := ecryptfs_write quiet_env hello_encrypted [x58] 8192 1 in
  i_size hello_encrypted = 5 /\
  returned r = Some 0 /\
  (i_size <$> state_of r) = Some 8193 /\
  (st ← state_of r; file_byte st 4096) = Some x00 /\
  (st ← state_of r; lower_byte st 4096) = Some x00 /\
  returned (do (_rc, st) <- r; ecryptfs_read2 quiet_env st (replicate 5 xff) 5 5)
  = Some (5, replicate 5 x00) /\
  returned (do (_rc, st) <- r; ecryptfs_read2 quiet_env st [xff] 4096 1)
  = Some (1, [x48]).
Proof. vm_compute. auto 10. Qed.

(** C5, at an input where the code departs from it: a batched write of one byte at offset 0 of an empty
    encrypted file, whose group encryption fails with [-EIO], returns 0:
    the status of the size persistence overwrites the crypto failure.
    The page of the batch is released, the size is 1 and the lower file
    holds nothing at offset 0.  The sequential write reports the failure
    of its encryption. *)
Theorem write2_crypto_failure_not_reported :
  let r := ecryptfs_write2 crypto_fail_env (empty_file ECRYPTFS_ENCRYPTED) [x58] 0 1 in
  encrypt_pages2_rc crypto_fail_env = - EIO /\
  returned r = Some 0 /\
  (i_size <$> state_of r) = Some 1 /\
  (st ← state_of r; pg_count <$> i_mapping st !! 0) = Some O /\
  (st ← state_of r; Some (lower_byte st 0)) = Some None /\
  returned (ecryptfs_write crypto_fail_env (empty_file ECRYPTFS_ENCRYPTED) [x58] 0 1)
  = Some (- EIO).
Proof. vm_compute. auto 10. Qed.

(** C6, at inputs where the code departs from it: sequential writes on the plaintext file "HELLO".
    Writing "X" at offset 1 modifies byte 1 of page 0, but what reaches
    the lower file at offset 1 is byte 0 of the page, "H".  Writing "X" at
    offset 10 first zero-fills [5, 10) in the page, a step that persists
    no byte, and then persists "H" at offset 10. *)
Theorem write_plaintext_persists_page_start :
  let r1 := ecryptfs_write quiet_env hello_plain [x58] 1 1 in
  let r2 := ecryptfs_write quiet_env hello_plain [x58] 10 1 in
  returned r1 = Some 0 /\
  (st ← state_of r1; file_byte st 1) = Some x58 /\
  (st ← state_of r1; lower_byte st 1) = Some x48 /\
  returned r2 = Some 0 /\
  (st ← state_of r2; file_byte st 10) = Some x58 /\
  (st ← state_of r2; lower_byte st 10) = Some x48 /\
  (st ← state_of r2; Some (map (lower_byte st) [5; 6; 7; 8; 9]))
  = Some [None; None; None; None; None].
Proof. vm_compute. auto 10. Qed.

(** C7, at an input where the code departs from it: with a fatal signal pending, the sequential write of
    "HELLO" to an empty encrypted file stops before its first step with
    [-EINTR] and leaves the file as it was; the batched write of the same
    request never looks at the signal: it returns 0 and the size is 5. *)
Theorem write2_ignores_fatal_signal :
  ecryptfs_write signal_env (empty_file ECRYPTFS_ENCRYPTED) hello 0 5
  = Ok (- EINTR) (empty_file ECRYPTFS_ENCRYPTED) /\
  let r := ecryptfs_write2 signal_env (empty_file ECRYPTFS_ENCRYPTED) hello 0 5 in
  returned r = Some 0 /\
  (i_size <$> state_of r) = Some 5 /\
  (st ← state_of r; file_byte st 0) = Some x48.
Proof. vm_compute. auto. Qed.

(** C8, at inputs where the code departs from it: a read of (5, 5) on the
    encrypted file "HELLO" of size 5 acquires and locks page 0, decrypts
    it, and returns 0 at the end-of-file test: page 0 is still locked and
    still referenced when the call has returned.  Likewise a read of
    (0, 4097) on the two-page file whose second acquisition fails leaves
    page 0 locked and referenced. *)
Theorem read2_past_eof_leaves_page_locked :
  let r := ecryptfs_read2 quiet_env hello_encrypted (replicate 5 xff) 5 5 in
  let r' := ecryptfs_read2 second_grab_fails_env second_page_file
              (replicate 4097 xff) 0 4097 in
  (pg_locked <$> i_mapping hello_encrypted !! 0) = Some false /\
  (pg_count <$> i_mapping hello_encrypted !! 0) = Some O /\
  returned r = Some (0, replicate 5 xff) /\
  (st ← state_of r; pg_locked <$> i_mapping st !! 0) = Some true /\
  (st ← state_of r; pg_count <$> i_mapping st !! 0) = Some 1%nat /\
  (pg_locked <$> i_mapping second_page_file !! 0) = Some false /\
  (fst <$> returned r') = Some 0 /\
  (st ← state_of r'; pg_locked <$> i_mapping st !! 0) = Some true /\
  (st ← state_of r'; pg_count <$> i_mapping st !! 0) = Some 1%nat.
Proof. vm_compute. auto 15. Qed.

(** C9, as stated, fails: a write of length 0 at offset 10 of the
    encrypted file "HELLO" (size 5) returns 0, but it walks [5, 10),
    zero-filling it and committing page 0, and the size becomes 10. *)
Lemma write_length0_beyond_size_extends :
  let r := ecryptfs_write quiet_env hello_encrypted [] 10 0 in
  i_size hello_encrypted = 5 /\
  lower_size hello_encrypted = Some 5 /\
  returned r = Some 0 /\
  (i_size <$> state_of r) = Some 10 /\
  (lower_size <$> state_of r) = Some (Some 10).
Proof. vm_compute. auto 10. Qed.

(** C10, as stated, fails.  When the page array cannot be allocated, the
    read of (2, 5) on the encrypted file "HELLO" returns [-EFAULT], not
    the clamped length, and copies nothing; when the second of two page
    acquisitions gives NULL, the read of (0, 4097) on the two-page file
    returns 0.  And a read that starts beyond the first page copies no
    byte of a position at or past end-of-file: after "X" is written at
    offset 4096 of the file "HELLO" (size 4097, position 4097 zero in
    the page cache and in the lower file), the read of (4096, 2)
    returns the count 2 and the bytes "HE", those of positions 0 and 1. *)
Lemma read2_count_and_source_differ :
  let r0 := ecryptfs_read2 alloc_fail_env hello_encrypted (replicate 5 xff) 2 5 in
  let r1 := ecryptfs_read2 second_grab_fails_env second_page_file
              (replicate 4097 xff) 0 4097 in
  let w := ecryptfs_write quiet_env hello_encrypted [x58] 4096 1 in
  i_size hello_encrypted = 5 /\
  returned r0 = Some (- EFAULT, replicate 5 xff) /\
  i_size second_page_file = 4097 /\
  (fst <$> returned r1) = Some 0 /\
  returned w = Some 0 /\
  (i_size <$> state_of w) = Some 4097 /\
  (st ← state_of w; file_byte st 4097) = Some x00 /\
  (st ← state_of w; lower_byte st 4097) = Some x00 /\
  returned (do (_rc, st) <- w; ecryptfs_read2 quiet_env st [xff; xff] 4096 2)
  = Some (2, [x48; x45]).
Proof. vm_compute. auto 10. Qed.

(** ** Machine arithmetic *)

Lemma PAGE_SIZE_eq : PAGE_SIZE = 4096.
Proof. reflexivity. Qed.

Lemma u64_small x : 0 <= x < 2 ^ 64 -> u64 x = x.
Proof. intros H. unfold u64. apply Z.mod_small. exact H. Qed.

Lemma s64_small x : - 2 ^ 63 <= x < 2 ^ 63 -> s64 x = x.
Proof. intros H. unfold s64. rewrite Z.mod_small; lia. Qed.

Lemma u32_small x : 0 <= x < 2 ^ 32 -> u32 x = x.
Proof. intros H. unfold u32. apply Z.mod_small. exact H. Qed.

Lemma s32_small x : - 2 ^ 31 <= x < 2 ^ 31 -> s32 x = x.
Proof. intros H. unfold s32. rewrite Z.mod_small; lia. Qed.

Lemma offset_in_page_mod pos : offset_in_page pos = pos mod PAGE_SIZE.
Proof.
  unfold offset_in_page, PAGE_MASK. rewrite Z.lnot_involutive.
  change (PAGE_SIZE - 1) with (Z.ones 12).
  rewrite Z.land_ones by lia. reflexivity.
Qed.

Lemma offset_in_page_range pos : 0 <= offset_in_page pos < PAGE_SIZE.
Proof.
  rewrite offset_in_page_mod. apply Z.mod_pos_bound. rewrite PAGE_SIZE_eq. lia.
Qed.

Lemma page_index_div pos : 0 <= pos < 2 ^ 63 -> page_index pos = pos / PAGE_SIZE.
Proof.
  intros H. unfold page_index. rewrite Z.shiftr_div_pow2 by (unfold PAGE_SHIFT; lia).
  change (2 ^ PAGE_SHIFT) with PAGE_SIZE. rewrite PAGE_SIZE_eq.
  apply u64_small.
  assert (0 <= pos / 4096) by (apply Z.div_pos; lia).
  assert (pos / 4096 <= pos) by (apply Z.div_le_upper_bound; lia).
  lia.
Qed.

(** A write step stays inside its page and inside the request, stops at
    [offset] while it fills the hole, and makes progress. *)
Lemma write_num_bytes_spec offset size pos :
  0 <= pos -> 0 <= size -> pos < offset + size -> offset + size < 2 ^ 63 ->
  let n := write_num_bytes offset size pos in
  1 <= n /\ pos mod PAGE_SIZE + n <= PAGE_SIZE /\ pos + n <= offset + size /\
  (pos < offset -> pos + n <= offset) /\
  n = Z.min (Z.min (PAGE_SIZE - pos mod PAGE_SIZE) (offset + size - pos))
            (if pos <? offset then offset - pos else offset + size - pos).
Proof.
  intros H0 Hs H1 H2. unfold write_num_bytes.
  rewrite offset_in_page_mod.
  pose proof (Z.mod_pos_bound pos PAGE_SIZE ltac:(rewrite PAGE_SIZE_eq; lia)) as Hm.
  rewrite PAGE_SIZE_eq in *.
  rewrite (u64_small (offset + size)) by lia.
  rewrite (u64_small (offset + size - pos)) by lia.
  destruct (Z.gtb_spec (4096 - pos mod 4096) (offset + size - pos));
    destruct (pos <? offset) eqn:Hlt;
    [apply Z.ltb_lt in Hlt; rewrite (u64_small (offset - pos)) by lia
    |apply Z.ltb_ge in Hlt
    |apply Z.ltb_lt in Hlt; rewrite (u64_small (offset - pos)) by lia
    |apply Z.ltb_ge in Hlt];
    cbv zeta; case_cmp; lia.
Qed.

(** ** A write of length 0 *)

(** C9, amended: a sequential write of length 0 at an offset that is not
    beyond the current size is a no-op: the loop is not entered, the
    state (pages, contents, size) is unchanged and the call returns 0,
    in every environment. *)
Theorem write_length0_within_size_noop e st data offset :
  offset <= i_size st ->
  ecryptfs_write e st data offset 0 = Ok 0 st.
Proof.
  intros H. unfold ecryptfs_write, write_start.
  destruct (Z.gtb_spec offset (i_size st)) as [Hgt|_]; [lia|].
  assert (Hl : forall fuel k v, v_pos v = offset ->
             ecryptfs_write_loop fuel e data offset 0 k v st = Ok (Next, v) st).
  { intros fuel k v Hv.
    destruct fuel; simpl; rewrite Hv, Z.add_0_r, Z.ltb_irrefl; reflexivity. }
  rewrite Hl by reflexivity. cbn [bind v_pos v_rc].
  destruct (Z.gtb_spec offset (i_size st)) as [Hgt|_]; [lia|]. reflexivity.
Qed.

Lemma write_length0_within_size_noop_witness :
  ecryptfs_write quiet_env hello_encrypted [] 5 0 = Ok 0 hello_encrypted.
Proof. apply write_length0_within_size_noop. cbn [i_size hello_encrypted]. lia. Defined.

(** ** Page operations seen through the mapping *)


Lemma touched_get st st' idx pg : touched st st' idx pg -> get_page st' idx = pg.
Proof.
  intros (Hm & _). unfold get_page. rewrite Hm, lookup_insert_eq. reflexivity.
Qed.

Lemma touched_upd st st' idx pg (F : page -> page) :
  touched st st' idx pg ->
  touched st (set_page st' idx (F (get_page st' idx))) idx (F pg).
Proof.
  intros Ht. rewrite (touched_get _ _ _ _ Ht).
  destruct Ht as (Hm & Hs & Hf & Hl).
  unfold touched, set_page, set_mapping. cbn [i_mapping i_size crypt_flags lower_file].
  rewrite Hm, insert_insert_eq. auto.
Qed.

Lemma touched_lower st st' idx pg m :
  touched st st' idx pg -> touched st (set_lower_data st' m) idx pg.
Proof. intros Ht. exact Ht. Qed.

Lemma touched_dirty st st' idx pg :
  touched st st' idx pg -> touched st (set_dirty st') idx pg.
Proof. intros Ht. exact Ht. Qed.

Lemma touched_memset st st' idx pg s c n :
  touched st st' idx pg ->
  touched st (memset_page st' idx s c n) idx
    (Page (list_inserts (Z.to_nat s) (replicate (Z.to_nat n) c) (pg_data pg))
          (pg_uptodate pg) (pg_locked pg) (pg_count pg)).
Proof.
  intros Ht.
  exact (touched_upd st st' idx pg
           (fun p => Page (list_inserts (Z.to_nat s) (replicate (Z.to_nat n) c) (pg_data p))
                          (pg_uptodate p) (pg_locked p) (pg_count p)) Ht).
Qed.

Lemma touched_memcpy st st' idx pg s src :
  touched st st' idx pg ->
  touched st (memcpy_to_page st' idx s src) idx
    (Page (list_inserts (Z.to_nat s) src (pg_data pg))
          (pg_uptodate pg) (pg_locked pg) (pg_count pg)).
Proof.
  intros Ht.
  exact (touched_upd st st' idx pg
           (fun p => Page (list_inserts (Z.to_nat s) src (pg_data p))
                          (pg_uptodate p) (pg_locked p) (pg_count p)) Ht).
Qed.

Lemma touched_set_data st st' idx pg d :
  touched st st' idx pg ->
  touched st (set_page_data st' idx d) idx
    (Page d (pg_uptodate pg) (pg_locked pg) (pg_count pg)).
Proof.
  intros Ht.
  exact (touched_upd st st' idx pg
           (fun p => Page d (pg_uptodate p) (pg_locked p) (pg_count p)) Ht).
Qed.

Lemma touched_uptodate st st' idx pg :
  touched st st' idx pg ->
  touched st (SetPageUptodate st' idx) idx
    (Page (pg_data pg) true (pg_locked pg) (pg_count pg)).
Proof.
  intros Ht.
  exact (touched_upd st st' idx pg
           (fun p => Page (pg_data p) true (pg_locked p) (pg_count p)) Ht).
Qed.

Lemma touched_clear_uptodate st st' idx pg :
  touched st st' idx pg ->
  touched st (ClearPageUptodate st' idx) idx
    (Page (pg_data pg) false (pg_locked pg) (pg_count pg)).
Proof.
  intros Ht.
  exact (touched_upd st st' idx pg
           (fun p => Page (pg_data p) false (pg_locked p) (pg_count p)) Ht).
Qed.

Lemma touched_unlock st st' idx pg :
  touched st st' idx pg ->
  touched st (unlock_page st' idx) idx
    (Page (pg_data pg) (pg_uptodate pg) false (pg_count pg)).
Proof.
  intros Ht.
  exact (touched_upd st st' idx pg
           (fun p => Page (pg_data p) (pg_uptodate p) false (pg_count p)) Ht).
Qed.

Lemma touched_put st st' idx pg :
  touched st st' idx pg ->
  touched st (put_page st' idx) idx
    (Page (pg_data pg) (pg_uptodate pg) (pg_locked pg) (Nat.pred (pg_count pg))).
Proof.
  intros Ht.
  exact (touched_upd st st' idx pg
           (fun p => Page (pg_data p) (pg_uptodate p) (pg_locked p)
                          (Nat.pred (pg_count p))) Ht).
Qed.

(** The first acquisition of a step: the page at [idx] is the only one
    that changes. *)
Lemma touched_first st idx pg : touched st (set_page st idx pg) idx pg.
Proof. unfold touched. auto. Qed.

Lemma buf_slice_length l off n :
  0 <= off -> 0 <= n -> (Z.to_nat (off + n) <= length l)%nat ->
  length (buf_slice l off n) = Z.to_nat n.
Proof.
  intros Hoff Hn Hl. unfold buf_slice. rewrite length_take, length_drop. lia.
Qed.

Lemma buf_slice_lookup l off n i :
  0 <= off -> 0 <= i < n ->
  buf_slice l off n !! Z.to_nat i = l !! Z.to_nat (off + i).
Proof.
  intros Hoff Hi. unfold buf_slice.
  rewrite lookup_take_lt by lia. rewrite lookup_drop. f_equal. lia.
Qed.

(** What [write_fill_page] leaves in the page it works on. *)
Lemma write_fill_page_spec st st1 idx pg1 data offset pos doff num :
  touched st st1 idx pg1 ->
  length (pg_data pg1) = Z.to_nat PAGE_SIZE ->
  0 <= num -> pos mod PAGE_SIZE + num <= PAGE_SIZE ->
  exists pg',
    touched st (fst (write_fill_page st1 idx data offset pos doff num)) idx pg' /\
    length (pg_data pg') = Z.to_nat PAGE_SIZE /\
    pg_uptodate pg' = true /\ pg_locked pg' = false /\ pg_count pg' = pg_count pg1 /\
    (pos < offset ->
     forall i, pos mod PAGE_SIZE <= i < PAGE_SIZE ->
               pg_data pg' !! Z.to_nat i = Some x00) /\
    (forall i, 0 <= i < pos mod PAGE_SIZE ->
               pg_data pg' !! Z.to_nat i = pg_data pg1 !! Z.to_nat i) /\
    (offset <= pos -> 0 <= doff ->
     forall i b, 0 <= i < num -> data !! Z.to_nat (doff + i) = Some b ->
                 pg_data pg' !! Z.to_nat (pos mod PAGE_SIZE + i) = Some b) /\
    snd (write_fill_page st1 idx data offset pos doff num)
    = (if offset <=? pos then s64 (doff + num) else doff).
Proof.
  intros Ht Hlen Hnum Hfit.
  pose proof (Z.mod_pos_bound pos PAGE_SIZE ltac:(rewrite PAGE_SIZE_eq; lia)) as Hm.
  unfold write_fill_page. rewrite offset_in_page_mod.
  set (start := pos mod PAGE_SIZE) in *.
  assert (Hcopy : forall d, length d = Z.to_nat PAGE_SIZE -> 0 <= doff ->
            forall i b, 0 <= i < num -> data !! Z.to_nat (doff + i) = Some b ->
              list_inserts (Z.to_nat start) (buf_slice data doff num) d
                !! Z.to_nat (start + i) = Some b).
  { intros d Hd Hdoff i b Hi Hb.
    assert (Hs : buf_slice data doff num !! Z.to_nat i = Some b)
      by (rewrite buf_slice_lookup by lia; exact Hb).
    pose proof (lookup_lt_Some _ _ _ Hs) as Hil.
    rewrite list_lookup_inserts; [|lia|lia].
    replace (Z.to_nat (start + i) - Z.to_nat start)%nat with (Z.to_nat i) by lia.
    exact Hs. }
  destruct (Z.leb_spec offset pos) as [Hge|Hlt].
  - (* a data step *)
    destruct ((pos <? offset) || (start =? 0)) eqn:Hz; cbn [fst snd].
    + eexists. split.
      { apply touched_unlock, touched_uptodate, touched_memcpy, touched_memset, Ht. }
      cbn [pg_data pg_uptodate pg_locked pg_count].
      rewrite !length_inserts.
      repeat split; auto.
      all: try (intros Hc; lia).
      all: try (intros i Hi; rewrite !list_lookup_inserts_lt by lia; reflexivity).
      all: intros _ Hdoff i b Hi Hb; apply Hcopy; auto;
        rewrite ?length_inserts; exact Hlen.
    + eexists. split.
      { apply touched_unlock, touched_uptodate, touched_memcpy, Ht. }
      cbn [pg_data pg_uptodate pg_locked pg_count].
      rewrite !length_inserts.
      repeat split; auto.
      all: try (intros Hc; lia).
      all: try (intros i Hi; rewrite !list_lookup_inserts_lt by lia; reflexivity).
      all: intros _ Hdoff i b Hi Hb; apply Hcopy; auto;
        rewrite ?length_inserts; exact Hlen.
  - (* a hole step *)
    assert (Hz : (pos <? offset) || (start =? 0) = true).
    { apply orb_true_iff. left. apply Z.ltb_lt. exact Hlt. }
    rewrite Hz. cbn [fst snd].
    eexists. split.
    { apply touched_unlock, touched_uptodate, touched_memset, Ht. }
    cbn [pg_data pg_uptodate pg_locked pg_count].
    rewrite !length_inserts.
    repeat split; auto.
    + intros _ i Hi.
      rewrite list_lookup_inserts.
      * apply lookup_replicate_2. lia.
      * rewrite length_replicate. lia.
      * lia.
    + intros i Hi. rewrite !list_lookup_inserts_lt by lia. reflexivity.
    + intros Hc; lia.
Qed.

Lemma write_fill_page_fields st pg data offset pos doff num :
  i_size (fst (write_fill_page st pg data offset pos doff num)) = i_size st /\
  crypt_flags (fst (write_fill_page st pg data offset pos doff num)) = crypt_flags st /\
  lower_data (fst (write_fill_page st pg data offset pos doff num)) = lower_data st.
Proof.
  unfold write_fill_page.
  destruct ((pos <? offset) || (offset_in_page pos =? 0)); destruct (offset <=? pos);
    repeat split; reflexivity.
Qed.

Lemma lower_page_length st idx : length (lower_page st idx) = Z.to_nat PAGE_SIZE.
Proof. unfold lower_page, load_bytes. rewrite length_map, length_seq. reflexivity. Qed.

Lemma get_page_length st idx :
  wf_cache st -> length (pg_data (get_page st idx)) = Z.to_nat PAGE_SIZE.
Proof.
  intros Hwf. unfold get_page.
  destruct (i_mapping st !! idx) as [pg|] eqn:Hpg; cbn [default].
  - exact (Hwf idx pg Hpg).
  - unfold new_page, zero_page. cbn [pg_data]. apply length_replicate.
Qed.

Lemma touched_wf st st' idx pg :
  wf_cache st -> touched st st' idx pg ->
  length (pg_data pg) = Z.to_nat PAGE_SIZE -> wf_cache st'.
Proof.
  intros Hwf (Hm & _) Hlen. unfold wf_cache. rewrite Hm.
  apply map_Forall_insert_2; assumption.
Qed.

Lemma touched_other st st' idx pg j :
  touched st st' idx pg -> j <> idx -> i_mapping st' !! j = i_mapping st !! j.
Proof. intros (Hm & _) Hne. rewrite Hm. apply lookup_insert_ne. congruence. Qed.

Lemma touched_same st st' idx pg :
  touched st st' idx pg -> i_mapping st' !! idx = Some pg.
Proof. intros (Hm & _). rewrite Hm. apply lookup_insert_eq. Qed.

(** ** The lower file as a byte store *)

Lemma store_bytes_lookup_out l : forall m off p,
  p < off \/ off + Z.of_nat (length l) <= p ->
  store_bytes m off l !! p = m !! p.
Proof.
  induction l as [|b l IH]; intros m off p Hp; cbn [store_bytes]; [reflexivity|].
  cbn [length] in Hp. rewrite IH by lia. apply lookup_insert_ne. lia.
Qed.

Lemma store_bytes_lookup_in l : forall m off p,
  off <= p < off + Z.of_nat (length l) ->
  store_bytes m off l !! p = l !! Z.to_nat (p - off).
Proof.
  induction l as [|b l IH]; intros m off p Hp; cbn [store_bytes length] in *; [lia|].
  destruct (Z.eq_dec p off) as [->|Hne].
  - rewrite store_bytes_lookup_out by lia. rewrite lookup_insert_eq.
    replace (off - off) with 0 by lia. reflexivity.
  - rewrite IH by lia.
    replace (Z.to_nat (p - off)) with (S (Z.to_nat (p - (off + 1)))) by lia.
    reflexivity.
Qed.

Lemma load_bytes_lookup m off n i :
  (i < n)%nat -> load_bytes m off n !! i = Some (default x00 (m !! (off + Z.of_nat i))).
Proof.
  intros Hi. unfold load_bytes. rewrite list_lookup_fmap, lookup_seq_lt by exact Hi.
  reflexivity.
Qed.

Lemma page_base idx : Z.shiftl idx PAGE_SHIFT = idx * PAGE_SIZE.
Proof. rewrite Z.shiftl_mul_pow2 by (unfold PAGE_SHIFT; lia). reflexivity. Qed.

Lemma get_page_set_page st idx pg : get_page (set_page st idx pg) idx = pg.
Proof.
  unfold get_page, set_page, set_mapping. cbn [i_mapping].
  rewrite lookup_insert_eq. reflexivity.
Qed.

Lemma get_page_set_page_other st k pg j :
  j <> k -> get_page (set_page st k pg) j = get_page st j.
Proof.
  intros Hne. unfold get_page, set_page, set_mapping. cbn [i_mapping].
  rewrite lookup_insert_ne by congruence. reflexivity.
Qed.

Lemma lower_page_lookup st k i :
  0 <= i < PAGE_SIZE ->
  lower_page st k !! Z.to_nat i = Some (default x00 (lower_data st !! (k * PAGE_SIZE + i))).
Proof.
  intros Hi. unfold lower_page. rewrite load_bytes_lookup by lia.
  rewrite page_base, Z2Nat.id by lia. reflexivity.
Qed.

(** The commits of a write step leave the cache, the size and the flags alone. *)
Lemma write_lower_page_segment_touched e st st1 idx pg j s n :
  touched st st1 idx pg ->
  match ecryptfs_write_lower_page_segment e st1 j s n with
  | Ok rc st2 => touched st st2 idx pg
  | Crash _ => True
  | OutOfFuel => False
  end.
Proof.
  intros Ht. unfold ecryptfs_write_lower_page_segment, ecryptfs_write_lower, kernel_write.
  destruct (negb (lower_file st1)); cbn [bind]; [exact Ht|].
  destruct (_ <? n); cbn [bind]; [exact I|].
  destruct (kernel_write_rc e _ <? 0); cbn [bind]; exact Ht.
Qed.

Lemma encrypt_page_touched e st st1 idx pg j :
  touched st st1 idx pg ->
  touched st (snd (ecryptfs_encrypt_page e st1 j)) idx pg.
Proof.
  intros Ht. unfold ecryptfs_encrypt_page.
  destruct (encrypt_page_rc e j =? 0); cbn [snd]; exact Ht.
Qed.

(** A successful [ecryptfs_encrypt_page] has persisted the page. *)
Lemma encrypt_page_lower e st idx :
  fst (ecryptfs_encrypt_page e st idx) = 0 ->
  lower_data (snd (ecryptfs_encrypt_page e st idx))
  = store_bytes (lower_data st) (idx * PAGE_SIZE) (pg_data (get_page st idx)).
Proof.
  unfold ecryptfs_encrypt_page.
  destruct (Z.eqb_spec (encrypt_page_rc e idx) 0) as [H0|H0]; cbn [fst snd].
  - intros _. unfold persist_page. cbn [lower_data set_lower_data].
    rewrite page_base. reflexivity.
  - intros Hc. contradiction.
Qed.

(** ** The walk of the sequential write *)

Lemma same_page_before p pos :
  p / PAGE_SIZE = pos / PAGE_SIZE -> p < pos ->
  0 <= p mod PAGE_SIZE < pos mod PAGE_SIZE.
Proof. rewrite PAGE_SIZE_eq. intros Hq Hlt. Z.div_mod_to_equations. lia. Qed.

Lemma in_step_same_page p pos n :
  pos <= p -> p < pos + n -> pos mod PAGE_SIZE + n <= PAGE_SIZE ->
  p / PAGE_SIZE = pos / PAGE_SIZE /\ pos mod PAGE_SIZE <= p mod PAGE_SIZE < PAGE_SIZE.
Proof. rewrite PAGE_SIZE_eq. intros H1 H2 H3. Z.div_mod_to_equations. lia. Qed.

Lemma in_step_offset p pos :
  pos <= p -> p / PAGE_SIZE = pos / PAGE_SIZE ->
  p mod PAGE_SIZE = pos mod PAGE_SIZE + (p - pos).
Proof. rewrite PAGE_SIZE_eq. intros H1 H2. Z.div_mod_to_equations. lia. Qed.

Lemma page_span p :
  p / PAGE_SIZE * PAGE_SIZE <= p < p / PAGE_SIZE * PAGE_SIZE + PAGE_SIZE /\
  p - p / PAGE_SIZE * PAGE_SIZE = p mod PAGE_SIZE.
Proof. rewrite PAGE_SIZE_eq. Z.div_mod_to_equations. lia. Qed.

Lemma other_page_outside p idx :
  p / PAGE_SIZE <> idx ->
  p < idx * PAGE_SIZE \/ idx * PAGE_SIZE + PAGE_SIZE <= p.
Proof. rewrite PAGE_SIZE_eq. intros H. Z.div_mod_to_equations. lia. Qed.

Section WriteWalk.

Variables (e : env) (data : list byte) (offset size : Z).
Hypothesis Hoff : 0 <= offset.
Hypothesis Hsize : 0 <= size.
Hypothesis Hmax : offset + size < 2 ^ 63.

(** One iteration of the sequential write: either it stops the walk with
    a non-zero [rc], or it advances by [write_num_bytes] and has touched
    only the page of [pos], which is then up to date, zero from [pos] to
    its end when the step fills the hole, holds the caller's bytes of
    the step when it copies, and is as before below [pos] when the page
    was cached and up to date; on an encrypted file the page is persisted. *)
Lemma ecryptfs_write_body_spec k v st :
  wf_cache st ->
  0 <= v_pos v -> v_pos v < offset + size ->
  v_data_offset v = Z.max 0 (v_pos v - offset) ->
  match ecryptfs_write_body e data offset size k v st with
  | OutOfFuel => False
  | Crash _ => True
  | Ok (Next, v') st' =>
      let pos := v_pos v in
      let n := write_num_bytes offset size pos in
      v_pos v' = pos + n /\ v_rc v' = 0 /\
      v_data_offset v' = Z.max 0 (v_pos v' - offset) /\
      exists pg',
        touched st st' (pos / PAGE_SIZE) pg' /\
        length (pg_data pg') = Z.to_nat PAGE_SIZE /\
        pg_uptodate pg' = true /\
        (pos < offset ->
         forall i, pos mod PAGE_SIZE <= i < PAGE_SIZE ->
                   pg_data pg' !! Z.to_nat i = Some x00) /\
        (forall pg0, i_mapping st !! (pos / PAGE_SIZE) = Some pg0 ->
                     pg_uptodate pg0 = true ->
         forall i, 0 <= i < pos mod PAGE_SIZE ->
                   pg_data pg' !! Z.to_nat i = pg_data pg0 !! Z.to_nat i) /\
        (offset <= pos ->
         forall i b, 0 <= i < n -> data !! Z.to_nat (pos - offset + i) = Some b ->
                     pg_data pg' !! Z.to_nat (pos mod PAGE_SIZE + i) = Some b) /\
        (encrypted st = true ->
         lower_data st'
         = store_bytes (lower_data st) (pos / PAGE_SIZE * PAGE_SIZE) (pg_data pg'))
  | Ok (_, v') st' => v_rc v' <> 0
  end.
Proof.
  intros Hwf Hpos Hend Hdoff.
  destruct (write_num_bytes_spec offset size (v_pos v) Hpos Hsize Hend Hmax)
    as (Hn1 & Hnfit & Hnend & Hnhole & _).
  unfold ecryptfs_write_body.
  destruct (fatal_signal_pending e k).
  { cbn [v_rc]. unfold EINTR. lia. }
  rewrite page_index_div by lia.
  set (idx := v_pos v / PAGE_SIZE).
  unfold ecryptfs_get_locked_page.
  destruct (page_acquire e k idx) as [| |err].
  2: { cbn [IS_ERR kmap]. exact I. }
  2: { destruct (IS_ERR (PErr err)) eqn:Herr.
       - cbn [v_rc PTR_ERR]. cbn [IS_ERR] in Herr.
         apply andb_true_iff in Herr as [_ Hneg]. apply Z.ltb_lt in Hneg. lia.
       - cbn [kmap]. exact I. }
  cbn [IS_ERR kmap].
  set (pg0 := get_page st idx).
  set (pg1 := Page (if pg_uptodate pg0 then pg_data pg0 else lower_page st idx)
                   true true (S (pg_count pg0))).
  assert (Hlen1 : length (pg_data pg1) = Z.to_nat PAGE_SIZE).
  { unfold pg1. cbn [pg_data]. destruct (pg_uptodate pg0).
    - apply get_page_length, Hwf.
    - apply lower_page_length. }
  destruct (write_fill_page_spec st (set_page st idx pg1) idx pg1 data offset (v_pos v)
              (v_data_offset v) (write_num_bytes offset size (v_pos v))
              (touched_first st idx pg1) Hlen1 ltac:(lia) Hnfit)
    as (pg2 & Ht2 & Hlen2 & Hup2 & _ & _ & Hzero & Hkeep & Hcopy & Hdo2).
  destruct (write_fill_page_fields (set_page st idx pg1) idx data offset (v_pos v)
              (v_data_offset v) (write_num_bytes offset size (v_pos v)))
    as (_ & Hfl2 & Hlow2).
  destruct (write_fill_page (set_page st idx pg1) idx data offset (v_pos v)
              (v_data_offset v) (write_num_bytes offset size (v_pos v)))
    as [st2 doff2].
  cbn [fst snd] in Ht2, Hdo2, Hfl2, Hlow2.
  change (crypt_flags (set_page st idx pg1)) with (crypt_flags st) in Hfl2.
  change (lower_data (set_page st idx pg1)) with (lower_data st) in Hlow2.
  rewrite Hfl2. fold (encrypted st).
  assert (Hcommit :
    match (if encrypted st
           then let (rc, st0) := ecryptfs_encrypt_page e st2 idx in Ok rc st0
           else ecryptfs_write_lower_page_segment e st2 idx
                  (offset_in_page (v_pos v)) (u64 doff2)) with
    | Ok rc st3 =>
        touched st st3 idx pg2 /\
        (rc = 0 -> encrypted st = true ->
         lower_data st3 = store_bytes (lower_data st) (idx * PAGE_SIZE) (pg_data pg2))
    | Crash _ => True
    | OutOfFuel => False
    end).
  { destruct (encrypted st).
    - pose proof (encrypt_page_touched e st st2 idx pg2 idx Ht2) as H3.
      pose proof (encrypt_page_lower e st2 idx) as H4.
      destruct (ecryptfs_encrypt_page e st2 idx) as [rc st3]. cbn [fst snd] in *.
      split; [exact H3|]. intros Hrc _.
      rewrite (H4 Hrc), Hlow2, (touched_get _ _ _ _ Ht2). reflexivity.
    - pose proof (write_lower_page_segment_touched e st st2 idx pg2 idx
                    (offset_in_page (v_pos v)) (u64 doff2) Ht2) as H3.
      destruct (ecryptfs_write_lower_page_segment e st2 idx _ _); try exact H3.
      split; [exact H3|]. intros _ Hc. discriminate. }
  destruct (if encrypted st then _ else _) as [rc st3| |]; cbn [bind]; try exact Hcommit.
  destruct Hcommit as (Ht3 & Hlow3).
  destruct (Z.eqb_spec rc 0) as [Hrc|Hrc]; cbn [negb v_rc v_pos v_data_offset].
  2: { exact Hrc. }
  rewrite (s64_small (v_pos v + _)) by lia.
  split; [reflexivity|]. split; [exact Hrc|].
  split.
  { rewrite Hdo2, Hdoff.
    destruct (Z.leb_spec offset (v_pos v)) as [Hge|Hlt].
    - rewrite s64_small by lia. lia.
    - specialize (Hnhole Hlt). lia. }
  eexists. split; [apply touched_put, Ht3|].
  cbn [pg_data pg_uptodate].
  split; [exact Hlen2|]. split; [exact Hup2|]. split; [exact Hzero|].
  split.
  { intros pgc Hpgc Hupc i Hi. rewrite Hkeep by exact Hi.
    unfold pg1, pg0, get_page. rewrite Hpgc.
    cbn [from_option id pg_data]. rewrite Hupc. reflexivity. }
  split.
  { intros Hge i b Hi Hb. apply Hcopy; try assumption; try lia.
    rewrite Hdoff. replace (Z.max 0 (v_pos v - offset)) with (v_pos v - offset) by lia.
    exact Hb. }
  intros Henc. change (lower_data (put_page st3 idx)) with (lower_data st3).
  apply Hlow3; assumption.
Qed.

Lemma ecryptfs_write_loop_spec lo :
  0 <= lo ->
  forall fuel k v st,
    wf_cache st ->
    lo <= v_pos v <= offset + size ->
    v_rc v = 0 ->
    v_data_offset v = Z.max 0 (v_pos v - offset) ->
    (Z.to_nat (offset + size - v_pos v) <= fuel)%nat ->
    walk_done st data offset lo (v_pos v) ->
    match ecryptfs_write_loop fuel e data offset size k v st with
    | OutOfFuel => False
    | Crash _ => True
    | Ok (Next, v') st' =>
        v_pos v' = offset + size /\ v_rc v' = 0 /\ wf_cache st' /\
        walk_done st' data offset lo (offset + size) /\
        i_size st' = i_size st /\ crypt_flags st' = crypt_flags st
    | Ok (_, v') st' => v_rc v' <> 0
    end.
Proof.
  intros Hlo fuel.
  induction fuel as [|fuel IH]; intros k v st Hwf Hpos Hrc Hdoff Hfuel Hdone.
  - cbn [ecryptfs_write_loop].
    rewrite !u64_small by lia.
    destruct (Z.ltb_spec (v_pos v) (offset + size)) as [Hlt|Hge]; [lia|].
    assert (v_pos v = offset + size) as Heq by lia.
    rewrite Heq in Hdone. auto 10.
  - cbn [ecryptfs_write_loop].
    rewrite !u64_small by lia.
    destruct (Z.ltb_spec (v_pos v) (offset + size)) as [Hlt|Hge].
    2: { assert (v_pos v = offset + size) as Heq by lia.
         rewrite Heq in Hdone. auto 10. }
    pose proof (ecryptfs_write_body_spec k v st Hwf ltac:(lia) Hlt Hdoff) as Hbody.
    destruct (write_num_bytes_spec offset size (v_pos v) ltac:(lia) Hsize Hlt Hmax)
      as (Hn1 & Hnfit & Hnend & Hnhole & _).
    destruct (ecryptfs_write_body e data offset size k v st) as [[c v'] st'| |];
      try exact Hbody.
    destruct c; try exact Hbody.
    cbv zeta in Hbody.
    destruct Hbody as (Hpos' & Hrc' & Hdoff' & pg' & Ht & Hlen & Hup & Hzero & Hkeep
                       & Hcopy & Hlow).
    assert (Hwf' : wf_cache st') by (eapply touched_wf; eauto).
    assert (Hflags : crypt_flags st' = crypt_flags st) by apply Ht.
    assert (Hcache : forall p b, lo <= p < v_pos v' ->
              expected_byte data offset p = Some b -> byte_at st' p b).
    { intros p b Hp Hexp. rewrite Hpos' in Hp.
      destruct (Z.eq_dec (p / PAGE_SIZE) (v_pos v / PAGE_SIZE)) as [Hsame|Hother].
      - exists pg'. rewrite Hsame. split; [eapply touched_same; eauto|].
        split; [exact Hup|].
        destruct (Z.lt_ge_cases p (v_pos v)) as [Hbefore|Hin].
        + destruct (Hdone p b ltac:(lia) Hexp) as ((pg0 & Hpg0 & Hup0 & Hz0) & _).
          rewrite Hsame in Hpg0.
          rewrite (Hkeep pg0 Hpg0 Hup0); [exact Hz0|].
          apply same_page_before; assumption.
        + unfold expected_byte in Hexp.
          destruct (Z.ltb_spec p offset) as [Hhole|Hdata].
          * injection Hexp as <-. apply Hzero; [lia|].
            apply (in_step_same_page p (v_pos v)
                     (write_num_bytes offset size (v_pos v))); [lia|lia|exact Hnfit].
          * rewrite (in_step_offset p (v_pos v)) by assumption.
            assert (offset <= v_pos v).
            { destruct (Z.lt_ge_cases (v_pos v) offset) as [Hh|]; [|assumption].
              specialize (Hnhole Hh). lia. }
            apply Hcopy; [assumption|lia|].
            replace (v_pos v - offset + (p - v_pos v)) with (p - offset) by lia.
            exact Hexp.
      - assert (p < v_pos v) as Hbefore.
        { destruct (Z.lt_ge_cases p (v_pos v)) as [|Hin]; [assumption|].
          exfalso. apply Hother.
          apply (in_step_same_page p (v_pos v)
                   (write_num_bytes offset size (v_pos v))); [lia|lia|exact Hnfit]. }
        destruct (Hdone p b ltac:(lia) Hexp) as ((pg0 & Hpg0 & Hup0 & Hz0) & _).
        exists pg0. rewrite (touched_other _ _ _ _ _ Ht Hother). auto. }
    assert (Hdone' : walk_done st' data offset lo (v_pos v')).
    { intros p b Hp Hexp. split; [apply Hcache; assumption|].
      unfold encrypted. rewrite Hflags. fold (encrypted st). intros Henc.
      rewrite (Hlow Henc).
      destruct (Z.eq_dec (p / PAGE_SIZE) (v_pos v / PAGE_SIZE)) as [Hsame|Hother].
      - destruct (page_span p) as (Hspan & Hrem).
        rewrite <- Hsame. rewrite store_bytes_lookup_in by (rewrite Hlen; lia).
        rewrite Hrem.
        destruct (Hcache p b Hp Hexp) as (pg & Hpg & _ & Hb).
        rewrite Hsame, (touched_same _ _ _ _ Ht) in Hpg. injection Hpg as <-.
        exact Hb.
      - rewrite store_bytes_lookup_out
          by (rewrite Hlen; apply other_page_outside in Hother; lia).
        assert (p < v_pos v) as Hbefore.
        { destruct (Z.lt_ge_cases p (v_pos v)) as [|Hin]; [assumption|].
          exfalso. apply Hother. rewrite Hpos' in Hp.
          apply (in_step_same_page p (v_pos v)
                   (write_num_bytes offset size (v_pos v))); [lia|lia|exact Hnfit]. }
        apply (Hdone p b); [lia|assumption|assumption]. }
    specialize (IH (S k) v' st' Hwf' ltac:(lia) Hrc' Hdoff' ltac:(lia) Hdone').
    destruct Ht as (_ & Hsz & Hfl & _).
    destruct (ecryptfs_write_loop fuel e data offset size (S k) v' st')
      as [[c2 v2] st2| |]; try exact IH.
    destruct c2; try exact IH.
    rewrite <- Hsz, <- Hfl. exact IH.
Qed.

(** In a cooperative environment a step on an encrypted file goes on. *)
Lemma ecryptfs_write_body_cooperative k v st :
  cooperative e -> encrypted st = true ->
  exists v' st', ecryptfs_write_body e data offset size k v st = Ok (Next, v') st'.
Proof.
  intros (Hsig & Hacq & Henc & _) Hst.
  unfold ecryptfs_write_body, ecryptfs_get_locked_page.
  rewrite Hsig, Hacq. cbn [IS_ERR kmap].
  set (st1 := set_page st _ _).
  destruct (write_fill_page_fields st1 (page_index (v_pos v)) data offset (v_pos v)
              (v_data_offset v) (write_num_bytes offset size (v_pos v))) as (_ & Hfl & _).
  destruct (write_fill_page st1 _ data offset (v_pos v) _ _) as [st2 doff2].
  cbn [fst] in Hfl. change (crypt_flags st1) with (crypt_flags st) in Hfl.
  rewrite Hfl. fold (encrypted st). rewrite Hst.
  unfold ecryptfs_encrypt_page. rewrite Henc. cbn [Z.eqb bind negb]. eauto.
Qed.

Lemma ecryptfs_write_loop_cooperative :
  cooperative e ->
  forall fuel k v st,
    wf_cache st -> encrypted st = true ->
    0 <= v_pos v <= offset + size ->
    v_data_offset v = Z.max 0 (v_pos v - offset) ->
    (Z.to_nat (offset + size - v_pos v) <= fuel)%nat ->
    exists v' st', ecryptfs_write_loop fuel e data offset size k v st = Ok (Next, v') st'.
Proof.
  intros Hco fuel.
  induction fuel as [|fuel IH]; intros k v st Hwf Henc Hpos Hdoff Hfuel.
  - cbn [ecryptfs_write_loop]. rewrite !u64_small by lia.
    destruct (Z.ltb_spec (v_pos v) (offset + size)); [lia|eauto].
  - cbn [ecryptfs_write_loop]. rewrite !u64_small by lia.
    destruct (Z.ltb_spec (v_pos v) (offset + size)) as [Hlt|Hge]; [|eauto].
    pose proof (ecryptfs_write_body_spec k v st Hwf ltac:(lia) Hlt Hdoff) as Hbody.
    destruct (write_num_bytes_spec offset size (v_pos v) ltac:(lia) Hsize Hlt Hmax)
      as (Hn1 & _ & Hnend & _).
    destruct (ecryptfs_write_body_cooperative k v st Hco Henc)
      as (v' & st' & Hstep).
    rewrite Hstep in Hbody |- *. cbv zeta in Hbody.
    destruct Hbody as (Hpos' & _ & Hdoff' & pg' & Ht & Hlen & _).
    apply IH.
    + eapply touched_wf; eauto.
    + destruct Ht as (_ & _ & Hfl & _). unfold encrypted in *. rewrite Hfl. exact Henc.
    + lia.
    + exact Hdoff'.
    + lia.
Qed.

End WriteWalk.

Lemma byte_at_file_byte st p b :
  0 <= p < 2 ^ 63 -> byte_at st p b -> file_byte st p = Some b.
Proof.
  intros Hp (pg & Hpg & _ & Hz). unfold file_byte.
  rewrite page_index_div by exact Hp. rewrite offset_in_page_mod.
  rewrite Hpg. exact Hz.
Qed.

(** The sequential write as a whole: it never runs out of steps; when it
    returns 0, the size is the larger of the old size and
    [offset + size], and every position of the walk, from [write_start]
    to [offset + size], holds its expected byte in the cache and, on an
    encrypted file, in the lower file; on an encrypted file in a
    cooperative environment it does return 0. *)
Lemma ecryptfs_write_spec e st data offset size :
  wf_cache st ->
  0 <= i_size st -> 0 <= offset -> 0 <= size -> offset + size < 2 ^ 63 ->
  match ecryptfs_write e st data offset size with
  | OutOfFuel => False
  | Crash _ => True
  | Ok rc st' =>
      rc = 0 ->
      i_size st' = Z.max (i_size st) (offset + size) /\
      crypt_flags st' = crypt_flags st /\ wf_cache st' /\
      walk_done st' data offset (write_start offset (i_size st)) (offset + size)
  end /\
  (cooperative e -> encrypted st = true ->
   exists st', ecryptfs_write e st data offset size = Ok 0 st').
Proof.
  intros Hwf Hfs Hoff Hsize Hmax.
  unfold ecryptfs_write.
  set (lo := write_start offset (i_size st)).
  assert (Hlo : 0 <= lo <= offset /\ lo <= i_size st).
  { unfold lo, write_start. case_cmp; lia. }
  pose proof (ecryptfs_write_loop_spec e data offset size Hoff Hsize Hmax lo ltac:(lia)
                (walk_fuel offset size lo) O (WVars lo 0 0) st Hwf
                ltac:(cbn [v_pos]; lia) eq_refl) as Hloop.
  cbn [v_pos v_data_offset] in Hloop.
  assert (Hfuel : (Z.to_nat (offset + size - lo) <= walk_fuel offset size lo)%nat).
  { unfold walk_fuel. rewrite u64_small by lia. lia. }
  specialize (Hloop ltac:(lia) Hfuel).
  specialize (Hloop ltac:(intros p b Hp; lia)).
  split.
  - destruct (ecryptfs_write_loop _ e data offset size O _ st) as [[c v] st1| |];
      cbn [bind]; try exact Hloop.
    destruct c.
    + destruct Hloop as (Hpos & Hrc & Hwf1 & Hdone & Hsz & Hfl).
      rewrite Hpos, Hrc.
      assert (Hkeep : forall st2, i_mapping st2 = i_mapping st1 ->
                 crypt_flags st2 = crypt_flags st1 ->
                 lower_data st2 = lower_data st1 ->
                 wf_cache st2 /\ walk_done st2 data offset lo (offset + size)).
      { intros st2 Hm Hf Hl. split.
        - unfold wf_cache. rewrite Hm. exact Hwf1.
        - intros p b Hp Hexp. destruct (Hdone p b Hp Hexp) as ((pg & Hpg) & Hlow).
          split; [exists pg; rewrite Hm; exact Hpg|].
          unfold encrypted. rewrite Hf, Hl. exact Hlow. }
      destruct (Z.gtb_spec (offset + size) (i_size st)) as [Hext|Hle].
      * destruct (flag_set (crypt_flags (set_i_size st1 (offset + size)))
                    ECRYPTFS_ENCRYPTED).
        -- unfold ecryptfs_write_inode_size_to_metadata.
           destruct (Z.eqb_spec (size_to_metadata_rc e) 0) as [Hmd|Hmd];
             cbn [negb Z.eqb].
           ++ intros _. split; [cbn [i_size set_lower_size set_i_size]; lia|].
              split; [exact Hfl|]. apply Hkeep; reflexivity.
           ++ destruct (Z.eqb_spec (size_to_metadata_rc e) 0); [contradiction|].
              cbn [negb]. intros Hc. contradiction.
        -- intros _. split; [cbn [i_size set_i_size]; lia|].
           split; [exact Hfl|]. apply Hkeep; reflexivity.
      * intros _. split; [lia|]. split; [exact Hfl|]. apply Hkeep; reflexivity.
    + (* break: the signal *)
      destruct (v_pos v >? i_size st).
      * destruct (flag_set _ _).
        -- destruct (ecryptfs_write_inode_size_to_metadata e _) as [rc2 st2].
           destruct (negb (rc2 =? 0)).
           ++ destruct (Z.eqb_spec (v_rc v) 0); [contradiction|].
              intros Hc; contradiction.
           ++ intros Hc; contradiction.
        -- intros Hc; contradiction.
      * intros Hc; contradiction.
    + intros Hc; contradiction.
  - intros Hco Henc.
    destruct (ecryptfs_write_loop_cooperative e data offset size Hoff Hsize Hmax Hco
                (walk_fuel offset size lo) O (WVars lo 0 0) st
                Hwf Henc ltac:(cbn [v_pos]; lia) ltac:(cbn [v_pos v_data_offset]; lia)
                Hfuel) as (v' & st' & Hrun).
    rewrite Hrun in Hloop |- *. cbn [bind].
    destruct Hloop as (Hpos & Hrc & _ & _ & _ & Hfl).
    rewrite Hpos, Hrc.
    destruct (offset + size >? i_size st); [|eauto].
    change (crypt_flags (set_i_size st' (offset + size))) with (crypt_flags st').
    rewrite Hfl. fold (encrypted st). rewrite Henc.
    unfold ecryptfs_write_inode_size_to_metadata.
    destruct Hco as (_ & _ & _ & Hmd). rewrite Hmd. cbn [Z.eqb negb]. eauto.
Qed.

(** The write side of a hole: a sequential write at an offset beyond the
    current size starts its walk at the current size; it never runs out
    of steps; when it returns 0, the size is [offset + size] and every
    byte of [old size, offset) is zero in the page cache; and on an
    encrypted file in a cooperative environment it does return 0. *)
Theorem write_beyond_size_zero_fills e st data offset size :
  wf_cache st ->
  0 <= i_size st -> i_size st < offset -> 0 <= size -> offset + size < 2 ^ 63 ->
  write_start offset (i_size st) = i_size st /\
  match ecryptfs_write e st data offset size with
  | OutOfFuel => False
  | Crash _ => True
  | Ok rc st' =>
      rc = 0 ->
      i_size st' = offset + size /\
      forall p, i_size st <= p < offset -> file_byte st' p = Some x00
  end /\
  (cooperative e -> encrypted st = true ->
   exists st', ecryptfs_write e st data offset size = Ok 0 st').
Proof.
  intros Hwf Hfs Hoff Hsize Hmax.
  assert (Hstart : write_start offset (i_size st) = i_size st).
  { unfold write_start. case_cmp; [reflexivity|lia]. }
  split; [exact Hstart|].
  destruct (ecryptfs_write_spec e st data offset size Hwf Hfs ltac:(lia) Hsize Hmax)
    as (Hspec & Hco).
  split; [|exact Hco].
  destruct (ecryptfs_write e st data offset size) as [rc st'| |]; try exact Hspec.
  intros Hrc. destruct (Hspec Hrc) as (Hsz & _ & _ & Hdone).
  split; [lia|].
  intros p Hp. apply byte_at_file_byte; [lia|].
  rewrite Hstart in Hdone. apply (Hdone p x00); [lia|].
  unfold expected_byte. destruct (Z.ltb_spec p offset); [reflexivity|lia].
Qed.

Lemma quiet_env_cooperative : cooperative quiet_env.
Proof. repeat split. Qed.

Lemma write_beyond_size_zero_fills_witness :
  write_start 10 (i_size hello_encrypted) = i_size hello_encrypted /\
  match ecryptfs_write quiet_env hello_encrypted [x58] 10 1 with
  | OutOfFuel => False
  | Crash _ => True
  | Ok rc st' =>
      rc = 0 ->
      i_size st' = 10 + 1 /\
      forall p, i_size hello_encrypted <= p < 10 -> file_byte st' p = Some x00
  end /\
  (cooperative quiet_env -> encrypted hello_encrypted = true ->
   exists st', ecryptfs_write quiet_env hello_encrypted [x58] 10 1 = Ok 0 st').
Proof.
  apply (write_beyond_size_zero_fills quiet_env hello_encrypted [x58] 10 1).
  - apply map_Forall_singleton. vm_compute. reflexivity.
  - cbn [i_size hello_encrypted]. lia.
  - cbn [i_size hello_encrypted]. lia.
  - lia.
  - lia.
Defined.

(** ** The walk of the batched write *)

Lemma write_lower_page_segment_fields e st j s n :
  match ecryptfs_write_lower_page_segment e st j s n with
  | Ok rc st' => i_size st' = i_size st /\ crypt_flags st' = crypt_flags st
  | Crash _ => True
  | OutOfFuel => False
  end.
Proof.
  unfold ecryptfs_write_lower_page_segment, ecryptfs_write_lower, kernel_write.
  destruct (negb (lower_file st)); cbn [bind]; [auto|].
  destruct (_ <? n); cbn [bind]; [exact I|].
  destruct (kernel_write_rc e _ <? 0); cbn [bind]; auto.
Qed.

(** One iteration of the batched write keeps the size and the flags; it
    never breaks, and on an encrypted file it leaves the walk only when
    the acquisition gave an error pointer. *)
Lemma ecryptfs_write2_body_spec e data offset size k v st :
  0 <= b_pos v -> 0 <= size -> b_pos v < offset + size -> offset + size < 2 ^ 63 ->
  match ecryptfs_write2_body e data offset size k v st with
  | OutOfFuel => False
  | Crash _ => True
  | Ok (Next, v') st' =>
      b_pos v' = b_pos v + write_num_bytes offset size (b_pos v) /\
      i_size st' = i_size st /\ crypt_flags st' = crypt_flags st
  | Ok (Break, _) _ => False
  | Ok (GotoOut, v') st' =>
      i_size st' = i_size st /\ crypt_flags st' = crypt_flags st /\
      (encrypted st = true ->
       exists err, page_acquire e k (page_index (b_pos v)) = AcqErr err)
  end.
Proof.
  intros Hpos Hsize Hend Hmax.
  destruct (write_num_bytes_spec offset size (b_pos v) Hpos Hsize Hend Hmax)
    as (Hn1 & Hnfit & Hnend & Hnhole & _).
  unfold ecryptfs_write2_body, grab_cache_page_write_begin, grab_cache_page.
  destruct (page_acquire e k (page_index (b_pos v))) as [| |err].
  2: { cbn [IS_ERR kmap]. exact I. }
  2: { destruct (IS_ERR (PErr err)); [|exact I]. eauto. }
  cbn [IS_ERR kmap].
  set (st1 := set_page st _ _).
  destruct (write_fill_page_fields st1 (page_index (b_pos v)) data offset (b_pos v)
              (b_data_offset v) (write_num_bytes offset size (b_pos v)))
    as (Hsz & Hfl & _).
  destruct (write_fill_page st1 _ data offset (b_pos v) _ _) as [st2 doff2].
  cbn [fst] in Hsz, Hfl.
  change (i_size st1) with (i_size st) in Hsz.
  change (crypt_flags st1) with (crypt_flags st) in Hfl.
  rewrite Hfl. fold (encrypted st).
  destruct (encrypted st) eqn:Henc.
  - destruct (array_set (b_pgs v) (b_i v) (PPage _)); [exact I|].
    cbn [b_pos]. split; [apply s64_small; lia|]. auto.
  - pose proof (write_lower_page_segment_fields e st2 (page_index (b_pos v))
                  (offset_in_page (b_pos v)) (u64 doff2)) as Hc.
    destruct (ecryptfs_write_lower_page_segment e st2 _ _ _) as [rc st3| |];
      cbn [bind]; try exact Hc.
    destruct Hc as (Hsz3 & Hfl3).
    destruct (negb (rc =? 0)); cbn [b_pos].
    + change (i_size (put_page st3 (page_index (b_pos v)))) with (i_size st3).
      change (crypt_flags (put_page st3 (page_index (b_pos v)))) with (crypt_flags st3).
      repeat split; congruence.
    + change (i_size (put_page st3 (page_index (b_pos v)))) with (i_size st3).
      change (crypt_flags (put_page st3 (page_index (b_pos v)))) with (crypt_flags st3).
      split; [apply s64_small; lia|]. split; congruence.
Qed.

Lemma ecryptfs_write2_loop_spec e data offset size :
  0 <= size -> offset + size < 2 ^ 63 ->
  forall fuel k v st,
    0 <= b_pos v <= offset + size ->
    (Z.to_nat (offset + size - b_pos v) <= fuel)%nat ->
    match ecryptfs_write2_loop fuel e data offset size k v st with
    | OutOfFuel => False
    | Crash _ => True
    | Ok (Next, v') st' => i_size st' = i_size st /\ crypt_flags st' = crypt_flags st
    | Ok (Break, _) _ => False
    | Ok (GotoOut, v') st' =>
        i_size st' = i_size st /\ crypt_flags st' = crypt_flags st /\
        (encrypted st = true -> exists k' idx err, page_acquire e k' idx = AcqErr err)
    end.
Proof.
  intros Hsize Hmax fuel.
  induction fuel as [|fuel IH]; intros k v st Hpos Hfuel.
  - cbn [ecryptfs_write2_loop]. rewrite !u64_small by lia.
    destruct (Z.ltb_spec (b_pos v) (offset + size)); [lia|auto].
  - cbn [ecryptfs_write2_loop]. rewrite !u64_small by lia.
    destruct (Z.ltb_spec (b_pos v) (offset + size)) as [Hlt|Hge]; [|auto].
    pose proof (ecryptfs_write2_body_spec e data offset size k v st
                  ltac:(lia) Hsize Hlt Hmax) as Hbody.
    destruct (write_num_bytes_spec offset size (b_pos v) ltac:(lia) Hsize Hlt Hmax)
      as (Hn1 & Hnfit & Hnend & Hnhole & _).
    destruct (ecryptfs_write2_body e data offset size k v st) as [[c v'] st'| |];
      try exact Hbody.
    destruct c; try exact Hbody.
    + destruct Hbody as (Hpos' & Hsz & Hfl).
      specialize (IH (S k) v' st' ltac:(lia) ltac:(lia)).
      destruct (ecryptfs_write2_loop fuel e data offset size (S k) v' st')
        as [[c2 v2] st2| |]; try exact IH.
      unfold encrypted in *. rewrite Hsz, Hfl in IH.
      destruct c2; exact IH.
    + destruct Hbody as (Hsz & Hfl & Herr). repeat split; auto.
      intros Henc. destruct (Herr Henc) as (err & He). eauto.
Qed.

Lemma fold_left_fields (f : inode -> Z -> inode) :
  (forall st j, i_size (f st j) = i_size st /\ crypt_flags (f st j) = crypt_flags st) ->
  forall l st,
    i_size (fold_left f l st) = i_size st /\
    crypt_flags (fold_left f l st) = crypt_flags st.
Proof.
  intros Hf l. induction l as [|j l IH]; intros st; cbn [fold_left]; [auto|].
  destruct (IH (f st j)) as (H1 & H2). destruct (Hf st j) as (H3 & H4).
  split; congruence.
Qed.

Lemma encrypt_pages2_fields e st pgs nr :
  match ecryptfs_encrypt_pages2 e st pgs nr with
  | Ok rc st' =>
      rc = encrypt_pages2_rc e /\
      i_size st' = i_size st /\ crypt_flags st' = crypt_flags st
  | Crash _ => True
  | OutOfFuel => False
  end.
Proof.
  unfold ecryptfs_encrypt_pages2.
  destruct (batch_indices pgs 0 (Z.to_nat nr)) as [f|l]; [exact I|].
  destruct (Z.eqb_spec (encrypt_pages2_rc e) 0) as [H0|H0].
  - split; [congruence|]. apply fold_left_fields. intros; split; reflexivity.
  - auto.
Qed.

Lemma put_pages_fields st pgs nr :
  match put_pages st pgs nr with
  | Ok _ st' => i_size st' = i_size st /\ crypt_flags st' = crypt_flags st
  | Crash _ => True
  | OutOfFuel => False
  end.
Proof.
  unfold put_pages.
  destruct (batch_indices pgs 0 (Z.to_nat nr)) as [f|l]; [exact I|].
  apply fold_left_fields. intros; split; reflexivity.
Qed.

(** An extending batched write on an encrypted file whose walk is over:
    the size is set and the status returned is that of the size
    persistence, whatever the group encryption reported. *)
Lemma ecryptfs_write2_extending_spec e st data offset size :
  encrypted st = true ->
  0 <= i_size st -> 0 <= offset -> 0 <= size -> offset + size < 2 ^ 63 ->
  i_size st < offset + size ->
  size / PAGE_SIZE + 1 < 2 ^ 31 ->
  kmalloc_ok e = true ->
  (forall k idx err, page_acquire e k idx <> AcqErr err) ->
  match ecryptfs_write2 e st data offset size with
  | OutOfFuel => False
  | Crash _ => True
  | Ok rc st' => i_size st' = offset + size /\ rc = size_to_metadata_rc e
  end.
Proof.
  intros Henc Hfs Hoff Hsize Hmax Hext Hint Hkm Hacq.
  unfold ecryptfs_write2.
  set (nrpgs := if negb (Z.land size (PAGE_SIZE - 1) =? 0)
                then s32 (s32 (size / PAGE_SIZE) + 1) else s32 (size / PAGE_SIZE)).
  assert (Hnr : 0 <= nrpgs).
  { assert (0 <= size / PAGE_SIZE).
    { rewrite PAGE_SIZE_eq. apply Z.div_pos; lia. }
    unfold nrpgs. rewrite (s32_small (size / PAGE_SIZE)) by lia.
    destruct (negb _); [rewrite s32_small by lia|]; lia. }
  unfold kmalloc_pages. rewrite Hkm.
  destruct (Z.ltb_spec nrpgs 0) as [Hneg|_]; [lia|].
  cbn [orb negb is_null].
  assert (Hst : 0 <= write_start offset (i_size st) <= offset + size).
  { unfold write_start. destruct (offset >? i_size st); lia. }
  pose proof (ecryptfs_write2_loop_spec e data offset size Hsize Hmax
                (walk_fuel offset size (write_start offset (i_size st))) O
                (W2Vars (write_start offset (i_size st)) 0 0 0
                        (Some (replicate (Z.to_nat nrpgs) None))) st
                Hst ltac:(unfold walk_fuel; cbn [b_pos]; rewrite u64_small by lia; lia))
    as Hloop.
  destruct (ecryptfs_write2_loop _ e data offset size O _ st) as [[c v] st1| |];
    cbn [bind]; try exact Hloop.
  destruct c.
  2: { exfalso. exact Hloop. }
  2: { destruct Hloop as (_ & _ & Herr).
       destruct (Herr Henc) as (k' & idx & err & He). exfalso. exact (Hacq _ _ _ He). }
  destruct Hloop as (Hsz1 & Hfl1).
  fold (encrypted st1).
  assert (Henc1 : encrypted st1 = true) by (unfold encrypted in *; congruence).
  rewrite Henc1.
  pose proof (encrypt_pages2_fields e st1 (b_pgs v) nrpgs) as Hep.
  destruct (ecryptfs_encrypt_pages2 e st1 (b_pgs v) nrpgs) as [rc st2| |];
    cbn [bind]; try exact Hep.
  destruct Hep as (_ & Hsz2 & Hfl2).
  pose proof (put_pages_fields st2 (b_pgs v) nrpgs) as Hpp.
  destruct (put_pages st2 (b_pgs v) nrpgs) as [u st3| |]; cbn [bind]; try exact Hpp.
  destruct Hpp as (Hsz3 & Hfl3).
  rewrite !u64_small by lia.
  destruct (Z.gtb_spec (offset + size) (i_size st)) as [_|Hle]; [|lia].
  rewrite s64_small by lia.
  change (crypt_flags (set_i_size st3 (offset + size))) with (crypt_flags st3).
  rewrite Hfl3, Hfl2. fold (encrypted st1). rewrite Henc1.
  unfold ecryptfs_write_inode_size_to_metadata.
  destruct (Z.eqb_spec (size_to_metadata_rc e) 0) as [H0|H0]; split; auto.
Qed.


Lemma batch_indices_stored a : forall n i,
  0 <= i -> i + Z.of_nat n <= Z.of_nat (length a) -> batch_stored a (i + Z.of_nat n) ->
  exists l, batch_indices (Some a) i n = inr l.
Proof.
  induction n as [|n IH]; intros i Hi Hn Hst.
  - eexists. reflexivity.
  - cbn [batch_indices]. unfold array_get.
    destruct (Z.ltb_spec i 0) as [Hneg|_]; [lia|].
    destruct (Z.leb_spec (Z.of_nat (length a)) i) as [Hout|_]; [lia|].
    cbn [orb]. destruct (Hst i ltac:(lia)) as (idx & Hidx). rewrite Hidx.
    destruct (IH (i + 1)) as (l & Hl); [lia|lia| |].
    + intros j Hj. apply Hst. lia.
    + rewrite Hl. eauto.
Qed.

Lemma write2_pages_eq size :
  0 <= size -> size / PAGE_SIZE + 1 < 2 ^ 31 ->
  (if negb (Z.land size (PAGE_SIZE - 1) =? 0)
   then s32 (s32 (size / PAGE_SIZE) + 1) else s32 (size / PAGE_SIZE))
  = write2_pages size.
Proof.
  intros Hsize Hint. unfold write2_pages.
  change (PAGE_SIZE - 1) with (Z.ones 12). rewrite Z.land_ones by lia.
  change (2 ^ 12) with PAGE_SIZE.
  assert (0 <= size / PAGE_SIZE) by (rewrite PAGE_SIZE_eq; apply Z.div_pos; lia).
  rewrite (s32_small (size / PAGE_SIZE)) by lia.
  rewrite PAGE_SIZE_eq in *.
  destruct (Z.eqb_spec (size mod 4096) 0) as [H0|H0]; cbn [negb].
  - Z.div_mod_to_equations. lia.
  - rewrite s32_small by lia. Z.div_mod_to_equations. lia.
Qed.

(** A step of the batched write on an encrypted file whose acquisition
    gives the page and whose slot is inside the array goes on, with the
    page stored in slot [i]. *)
Lemma ecryptfs_write2_body_stores e data offset size k v st a :
  (forall k idx, page_acquire e k idx = AcqPage) -> encrypted st = true ->
  b_pgs v = Some a -> 0 <= b_i v < Z.of_nat (length a) -> b_i v + 1 < 2 ^ 31 ->
  exists v' st',
    ecryptfs_write2_body e data offset size k v st = Ok (Next, v') st' /\
    b_pgs v' = Some (<[Z.to_nat (b_i v) := Some (PPage (page_index (b_pos v)))]> a) /\
    b_i v' = b_i v + 1.
Proof.
  intros Hacq Henc Hpgs Hi Hint.
  unfold ecryptfs_write2_body, grab_cache_page_write_begin, grab_cache_page.
  rewrite Hacq. cbn [IS_ERR kmap].
  set (st1 := set_page st _ _).
  destruct (write_fill_page_fields st1 (page_index (b_pos v)) data offset (b_pos v)
              (b_data_offset v) (write_num_bytes offset size (b_pos v)))
    as (_ & Hfl & _).
  destruct (write_fill_page st1 _ data offset (b_pos v) _ _) as [st2 doff2].
  cbn [fst] in Hfl. change (crypt_flags st1) with (crypt_flags st) in Hfl.
  rewrite Hfl. fold (encrypted st). rewrite Henc, Hpgs.
  unfold array_set.
  destruct (Z.ltb_spec (b_i v) 0) as [Hneg|_]; [lia|].
  destruct (Z.leb_spec (Z.of_nat (length a)) (b_i v)) as [Hout|_]; [lia|].
  cbn [orb]. eexists _, _. split; [reflexivity|].
  cbn [b_pgs b_i]. split; [reflexivity|]. apply s32_small. lia.
Qed.

(** The walk of a batched write that starts page-aligned at [offset]
    (no hole to fill) makes exactly [write2_pages size] steps: it ends
    normally with every slot of the array stored to. *)
Lemma ecryptfs_write2_loop_aligned e data offset size :
  (forall k idx, page_acquire e k idx = AcqPage) ->
  0 <= offset -> 0 <= size -> offset + size < 2 ^ 63 ->
  offset mod PAGE_SIZE = 0 -> write2_pages size < 2 ^ 31 ->
  forall fuel k v st a,
    encrypted st = true ->
    b_pgs v = Some a -> Z.of_nat (length a) = write2_pages size ->
    offset <= b_pos v <= offset + size ->
    (b_pos v < offset + size -> b_pos v = offset + b_i v * PAGE_SIZE) ->
    (b_pos v = offset + size -> b_i v = write2_pages size) ->
    0 <= b_i v -> batch_stored a (b_i v) ->
    (Z.to_nat (offset + size - b_pos v) <= fuel)%nat ->
    exists v' st' a',
      ecryptfs_write2_loop fuel e data offset size k v st = Ok (Next, v') st' /\
      b_pgs v' = Some a' /\ Z.of_nat (length a') = write2_pages size /\
      batch_stored a' (write2_pages size).
Proof.
  intros Hacq Hoff Hsize Hmax Halign Hint fuel.
  pose proof PAGE_SIZE_eq as HP.
  induction fuel as [|fuel IH];
    intros k v st a Henc Hpgs Hlen Hpos Hstep Hlast Hi Hst Hfuel.
  - cbn [ecryptfs_write2_loop]. rewrite !u64_small by lia.
    destruct (Z.ltb_spec (b_pos v) (offset + size)) as [Hlt|Hge]; [lia|].
    exists v, st, a. repeat split; auto. rewrite <- (Hlast ltac:(lia)). exact Hst.
  - cbn [ecryptfs_write2_loop]. rewrite !u64_small by lia.
    destruct (Z.ltb_spec (b_pos v) (offset + size)) as [Hlt|Hge].
    2: { exists v, st, a. repeat split; auto.
         rewrite <- (Hlast ltac:(lia)). exact Hst. }
    specialize (Hstep Hlt).
    assert (Hslot : b_i v < write2_pages size).
    { unfold write2_pages. rewrite HP in *.
      enough (b_i v + 1 <= (size + 4096 - 1) / 4096) by lia.
      apply Z.div_le_lower_bound; lia. }
    pose proof (ecryptfs_write2_body_spec e data offset size k v st
                  ltac:(lia) Hsize Hlt Hmax) as Hbody.
    destruct (write_num_bytes_spec offset size (b_pos v) ltac:(lia) Hsize Hlt Hmax)
      as (Hn1 & Hnfit & Hnend & _ & Hneq).
    destruct (ecryptfs_write2_body_stores e data offset size k v st a Hacq Henc Hpgs
                ltac:(lia) ltac:(lia)) as (v' & st' & Hrun & Hpgs' & Hi').
    rewrite Hrun in Hbody |- *.
    destruct Hbody as (Hpos' & _ & Hfl').
    assert (Hmod : b_pos v mod PAGE_SIZE = 0).
    { rewrite Hstep, Z.mod_add by lia. exact Halign. }
    assert (Hcmp : (b_pos v <? offset) = false) by (apply Z.ltb_ge; lia).
    rewrite Hmod, Hcmp in Hneq.
    apply (IH (S k) v' st' _ ltac:(unfold encrypted in *; congruence) Hpgs').
    + rewrite length_insert. exact Hlen.
    + lia.
    + intros Hmore. rewrite Hpos' in Hmore |- *. rewrite Hi'. rewrite HP in *. lia.
    + intros Hend. rewrite Hpos' in Hend. rewrite Hi'. unfold write2_pages.
      rewrite HP in *.
      apply Z.div_unique with (r := size + 4095 - 4096 * (b_i v + 1)); lia.
    + lia.
    + intros i Hi2. rewrite Hi' in Hi2.
      destruct (Z.eq_dec i (b_i v)) as [->|Hne].
      * eexists. apply list_lookup_insert_eq. lia.
      * rewrite list_lookup_insert_ne by lia. apply Hst. lia.
    + lia.
Qed.

(** A batched write on an encrypted file that starts page-aligned inside
    the file returns: with the page array allocated and every acquisition
    giving its page, each step stores into the next slot, and the group
    encryption and the releases find every slot stored to. *)
Lemma ecryptfs_write2_aligned_returns e st data offset size :
  encrypted st = true ->
  0 <= offset <= i_size st -> offset mod PAGE_SIZE = 0 ->
  0 <= size -> offset + size < 2 ^ 63 ->
  size / PAGE_SIZE + 1 < 2 ^ 31 ->
  kmalloc_ok e = true ->
  (forall k idx, page_acquire e k idx = AcqPage) ->
  exists rc st', ecryptfs_write2 e st data offset size = Ok rc st'.
Proof.
  intros Henc Hoff Halign Hsize Hmax Hint Hkm Hacq.
  pose proof PAGE_SIZE_eq as HP.
  unfold ecryptfs_write2.
  rewrite (write2_pages_eq size Hsize Hint).
  assert (Hnr : 0 <= write2_pages size < 2 ^ 31).
  { unfold write2_pages. rewrite HP in *. split.
    - apply Z.div_pos; lia.
    - enough ((size + 4096 - 1) / 4096 <= size / 4096 + 1) by lia.
      Z.div_mod_to_equations. lia. }
  unfold kmalloc_pages. rewrite Hkm.
  destruct (Z.ltb_spec (write2_pages size) 0) as [Hneg|_]; [lia|].
  cbn [orb negb is_null].
  assert (Hws : write_start offset (i_size st) = offset).
  { unfold write_start. destruct (Z.gtb_spec offset (i_size st)); lia. }
  rewrite Hws.
  set (a := replicate (Z.to_nat (write2_pages size)) None).
  set (v := W2Vars offset 0 0 0 (Some a)).
  assert (Hlen : Z.of_nat (length a) = write2_pages size).
  { unfold a. rewrite length_replicate. lia. }
  destruct (ecryptfs_write2_loop_aligned e data offset size Hacq ltac:(lia) Hsize Hmax
              Halign ltac:(lia) (walk_fuel offset size offset) O v st a Henc eq_refl Hlen)
    as (v' & st1 & a' & Hrun & Hpgs' & Hlen' & Hst').
  { cbn [b_pos v]. lia. }
  { cbn [b_pos b_i v]. lia. }
  { cbn [b_pos b_i v]. intros Hend. assert (size = 0) by lia. subst size. reflexivity. }
  { cbn [b_i v]. lia. }
  { intros i Hi. cbn [b_i v] in Hi. lia. }
  { unfold walk_fuel. cbn [b_pos v]. rewrite u64_small by lia. lia. }
  pose proof (ecryptfs_write2_loop_spec e data offset size Hsize Hmax
                (walk_fuel offset size offset) O v st
                ltac:(cbn [b_pos v]; lia)
                ltac:(unfold walk_fuel; cbn [b_pos v]; rewrite u64_small by lia; lia))
    as Hloop.
  rewrite Hrun in Hloop |- *. cbn [bind].
  destruct Hloop as (_ & Hfl1).
  fold (encrypted st1).
  assert (Henc1 : encrypted st1 = true) by (unfold encrypted in *; congruence).
  rewrite Henc1, Hpgs'.
  destruct (batch_indices_stored a' (Z.to_nat (write2_pages size)) 0 ltac:(lia)
              ltac:(lia) ltac:(rewrite Z2Nat.id by lia; exact Hst')) as (l & Hl).
  unfold ecryptfs_encrypt_pages2, put_pages. rewrite Hl.
  destruct (encrypt_pages2_rc e =? 0); cbn [bind];
    destruct (_ >? _); try destruct (flag_set _ _);
    try destruct (ecryptfs_write_inode_size_to_metadata e _); eauto.
Qed.

(** C4: a batched write on an encrypted file that extends it sets the
    in-memory size to [offset + size] once the walk is over, whatever
    status the group encryption ([encrypt_pages2_rc e]) and the size
    persistence report.  The walk is over when the page array was
    allocated (the page count fits an [int] and kmalloc succeeds) and no
    acquisition gave an error pointer; the call never runs out of steps.
    When the write starts page-aligned inside the file and every
    acquisition gives its page, the call does return, with that size. *)
Theorem write2_sets_size_whatever_encrypt_reports e st data offset size :
  encrypted st = true ->
  0 <= i_size st -> 0 <= offset -> 0 <= size -> offset + size < 2 ^ 63 ->
  i_size st < offset + size ->
  size / PAGE_SIZE + 1 < 2 ^ 31 ->
  kmalloc_ok e = true ->
  (forall k idx err, page_acquire e k idx <> AcqErr err) ->
  match ecryptfs_write2 e st data offset size with
  | OutOfFuel => False
  | Crash _ => True
  | Ok rc st' => i_size st' = offset + size
  end /\
  (offset mod PAGE_SIZE = 0 -> offset <= i_size st ->
   (forall k idx, page_acquire e k idx = AcqPage) ->
   exists st', ecryptfs_write2 e st data offset size = Ok (size_to_metadata_rc e) st' /\
               i_size st' = offset + size).
Proof.
  intros Henc Hfs Hoff Hsize Hmax Hext Hint Hkm Hacq.
  pose proof (ecryptfs_write2_extending_spec e st data offset size
                Henc Hfs Hoff Hsize Hmax Hext Hint Hkm Hacq) as H.
  split.
  - destruct (ecryptfs_write2 e st data offset size) as [rc st'| |]; try exact H.
    apply H.
  - intros Halign Hin Hpage.
    destruct (ecryptfs_write2_aligned_returns e st data offset size Henc
                ltac:(lia) Halign Hsize Hmax Hint Hkm Hpage) as (rc & st' & Hrun).
    rewrite Hrun in H. destruct H as (Hsz & ->). eauto.
Qed.

Lemma write2_sets_size_whatever_encrypt_reports_witness :
  encrypt_pages2_rc crypto_fail_env = - EIO /\
  match ecryptfs_write2 crypto_fail_env (empty_file ECRYPTFS_ENCRYPTED) hello 0 5 with
  | OutOfFuel => False
  | Crash _ => True
  | Ok rc st' => i_size st' = 0 + 5
  end /\
  exists st', ecryptfs_write2 crypto_fail_env (empty_file ECRYPTFS_ENCRYPTED) hello 0 5
              = Ok (size_to_metadata_rc crypto_fail_env) st' /\
              i_size st' = 0 + 5.
Proof.
  split; [reflexivity|].
  destruct (write2_sets_size_whatever_encrypt_reports crypto_fail_env
              (empty_file ECRYPTFS_ENCRYPTED) hello 0 5) as [Hsize Hreturns].
  - reflexivity.
  - cbn [i_size empty_file]. lia.
  - lia.
  - lia.
  - lia.
  - cbn [i_size empty_file]. lia.
  - vm_compute. reflexivity.
  - reflexivity.
  - intros k idx err. cbn [page_acquire crypto_fail_env]. discriminate.
  - split; [exact Hsize|]. apply Hreturns.
    + reflexivity.
    + cbn [i_size empty_file]. lia.
    + intros k idx. reflexivity.
Defined.

(** ** The batched read *)

Lemma batch_frame_refl nr st : batch_frame nr st st.
Proof. unfold batch_frame. auto. Qed.

Lemma batch_frame_touched nr st0 st st1 j pg :
  batch_frame nr st0 st -> touched st st1 j pg -> lower_data st1 = lower_data st ->
  0 <= j < nr -> batch_frame nr st0 st1.
Proof.
  intros (Hm & Hs & Hf & Hl) Ht Hl1 Hj.
  pose proof (fun i => touched_other _ _ _ _ i Ht) as Hother.
  destruct Ht as (_ & Hs1 & Hf1 & _).
  repeat split; try congruence.
  intros i Hi. rewrite Hother by lia. apply Hm, Hi.
Qed.

Lemma batch_frame_trans nr st0 st1 st2 :
  batch_frame nr st0 st1 -> batch_frame nr st1 st2 -> batch_frame nr st0 st2.
Proof.
  intros (Hm & Hs & Hf & Hl) (Hm' & Hs' & Hf' & Hl').
  repeat split; try congruence.
  intros i Hi. rewrite Hm' by exact Hi. apply Hm, Hi.
Qed.

(** The acquisition loop, when every acquisition gives its page: it ends
    normally with the pages of cache indices 0 .. nr-1 in the slots
    0 .. nr-1, and has touched no other page. *)
Lemma ecryptfs_read2_grab_spec e nr st0 :
  (forall k idx, page_acquire e k idx = AcqPage) ->
  0 <= nr < 2 ^ 31 ->
  forall fuel j a st,
    0 <= j <= nr -> fuel = Z.to_nat (nr - j) ->
    length a = Z.to_nat nr -> batch_filled a j ->
    batch_frame nr st0 st -> wf_cache st ->
    (forall i, 0 <= i < j -> is_Some (i_mapping st !! i)) ->
    exists a' st',
      ecryptfs_read2_grab fuel e false nr j 0 (Some a) st = Ok (Next, (0, Some a')) st' /\
      length a' = Z.to_nat nr /\ batch_filled a' nr /\
      batch_frame nr st0 st' /\ wf_cache st' /\
      (forall i, 0 <= i < nr -> is_Some (i_mapping st' !! i)).
Proof.
  intros Hacq Hnr fuel.
  induction fuel as [|fuel IH]; intros j a st Hj Hfuel Hlen Hfill Hframe Hwf Hsome.
  - assert (j = nr) as -> by lia.
    cbn [ecryptfs_read2_grab]. rewrite u32_small by lia. rewrite Z.ltb_irrefl.
    eauto 10.
  - cbn [ecryptfs_read2_grab]. rewrite u32_small by lia.
    destruct (Z.ltb_spec j nr) as [Hlt|Hge]; [|lia].
    unfold grab_cache_page. rewrite Hacq. cbn [bind].
    unfold array_set.
    destruct (Z.ltb_spec j 0) as [Hneg|_]; [lia|].
    destruct (Z.leb_spec (Z.of_nat (length a)) j) as [Hout|_]; [lia|].
    cbn [orb]. rewrite u32_small by lia.
    set (st1 := set_page st j (lock_and_get (get_page st j))).
    assert (Ht : touched st st1 j (lock_and_get (get_page st j)))
      by apply touched_first.
    apply (IH (j + 1) (<[Z.to_nat j := Some (PPage j)]> a) st1).
    + lia.
    + lia.
    + rewrite length_insert. exact Hlen.
    + intros i Hi. destruct (Z.eq_dec i j) as [->|Hne].
      * apply list_lookup_insert_eq. lia.
      * rewrite list_lookup_insert_ne by lia. apply Hfill. lia.
    + apply (batch_frame_touched nr st0 st st1 j _ Hframe Ht eq_refl). lia.
    + eapply touched_wf; eauto. unfold lock_and_get. cbn [pg_data].
      apply get_page_length, Hwf.
    + intros i Hi. destruct (Z.eq_dec i j) as [->|Hne].
      * rewrite (touched_same _ _ _ _ Ht). eauto.
      * rewrite (touched_other _ _ _ _ _ Ht Hne). apply Hsome. lia.
Qed.

Lemma batch_indices_filled a nr :
  length a = Z.to_nat nr -> batch_filled a nr ->
  forall n i, 0 <= i -> i + Z.of_nat n <= nr ->
    batch_indices (Some a) i n = inr (seqZ i (Z.of_nat n)).
Proof.
  intros Hlen Hfill n.
  induction n as [|n IH]; intros i Hi Hn.
  - reflexivity.
  - cbn [batch_indices]. unfold array_get.
    destruct (Z.ltb_spec i 0) as [Hneg|_]; [lia|].
    destruct (Z.leb_spec (Z.of_nat (length a)) i) as [Hout|_]; [lia|].
    cbn [orb]. rewrite (Hfill i) by lia.
    rewrite IH by lia.
    rewrite (seqZ_cons i (Z.of_nat (S n))) by lia.
    do 2 f_equal. f_equal; lia.
Qed.

Lemma lower_page_frame st st' idx :
  lower_data st' = lower_data st -> lower_page st' idx = lower_page st idx.
Proof. intros H. unfold lower_page. rewrite H. reflexivity. Qed.

Lemma fold_fill_page_spec nr :
  forall l st,
    (forall k, k ∈ l -> 0 <= k < nr) -> wf_cache st ->
    batch_frame nr st (fold_left fill_page l st) /\
    wf_cache (fold_left fill_page l st) /\
    (forall k, k ∈ l -> pg_data (get_page (fold_left fill_page l st) k) = lower_page st k) /\
    (forall k, k ∉ l -> i_mapping (fold_left fill_page l st) !! k = i_mapping st !! k) /\
    (forall k, is_Some (i_mapping st !! k) ->
               is_Some (i_mapping (fold_left fill_page l st) !! k)).
Proof.
  induction l as [|j l IH]; intros st Hin Hwf; cbn [fold_left].
  - split; [apply batch_frame_refl|]. split; [exact Hwf|].
    split. { intros k Hk. inversion Hk. }
    split; auto.
  - set (pg := Page (lower_page st j) (pg_uptodate (get_page st j))
                    (pg_locked (get_page st j)) (pg_count (get_page st j))).
    assert (Ht : touched st (fill_page st j) j pg) by apply touched_first.
    assert (Hwf1 : wf_cache (fill_page st j)).
    { apply (touched_wf st (fill_page st j) j pg Hwf Ht). apply lower_page_length. }
    destruct (IH (fill_page st j)) as (Hfr & Hwf' & Hdata & Hout & Hsome); auto.
    { intros k Hk. apply Hin. right. exact Hk. }
    assert (Hj : 0 <= j < nr) by (apply Hin; left).
    split.
    { eapply batch_frame_trans; [|exact Hfr].
      apply (batch_frame_touched nr st st (fill_page st j) j pg
               (batch_frame_refl nr st) Ht eq_refl Hj). }
    split; [exact Hwf'|].
    split.
    { intros k Hk.
      destruct (decide (k ∈ l)) as [Hkl|Hkl].
      - rewrite Hdata by exact Hkl. apply lower_page_frame. reflexivity.
      - apply elem_of_cons in Hk as [->|Hk]; [|contradiction].
        unfold get_page. rewrite Hout by exact Hkl.
        rewrite (touched_same _ _ _ _ Ht). reflexivity. }
    split.
    { intros k Hk. apply not_elem_of_cons in Hk as [Hne Hkl].
      rewrite Hout by exact Hkl. apply (touched_other _ _ _ _ _ Ht Hne). }
    intros k Hk. apply Hsome.
    destruct (Z.eq_dec k j) as [->|Hne].
    + rewrite (touched_same _ _ _ _ Ht). eauto.
    + rewrite (touched_other _ _ _ _ _ Ht Hne). exact Hk.
Qed.

(** The group decryption over the slots 0 .. nr-1: it reports the
    environment's status, stays within the batch, and on success leaves
    in page k the bytes the lower file has for page k. *)
Lemma ecryptfs_decrypt_pages_spec e st a nr :
  0 <= nr -> length a = Z.to_nat nr -> batch_filled a nr -> wf_cache st ->
  (forall i, 0 <= i < nr -> is_Some (i_mapping st !! i)) ->
  exists st',
    ecryptfs_decrypt_pages e st (Some a) nr = Ok (decrypt_pages_rc e) st' /\
    batch_frame nr st st' /\ wf_cache st' /\
    (forall i, 0 <= i < nr -> is_Some (i_mapping st' !! i)) /\
    (decrypt_pages_rc e = 0 ->
     forall k, 0 <= k < nr -> pg_data (get_page st' k) = lower_page st k).
Proof.
  intros Hnr Hlen Hfill Hwf Hsome.
  unfold ecryptfs_decrypt_pages.
  rewrite (batch_indices_filled a nr Hlen Hfill) by lia.
  rewrite Z2Nat.id by lia.
  destruct (Z.eqb_spec (decrypt_pages_rc e) 0) as [H0|H0].
  - destruct (fold_fill_page_spec nr (seqZ 0 nr) st) as (Hfr & Hwf' & Hdata & _ & Hs);
      auto.
    { intros k Hk. apply elem_of_seqZ in Hk. lia. }
    rewrite H0. eexists. split; [reflexivity|].
    repeat split; auto.
    + apply Hfr.
    + apply Hfr.
    + apply Hfr.
    + apply Hfr.
    + intros _ k Hk. apply Hdata. apply elem_of_seqZ. lia.
  - eexists. split; [reflexivity|].
    split; [apply batch_frame_refl|]. repeat split; auto. contradiction.
Qed.

Lemma next_page_start pos :
  0 <= pos ->
  (pos + (PAGE_SIZE - pos mod PAGE_SIZE)) / PAGE_SIZE = pos / PAGE_SIZE + 1.
Proof. rewrite PAGE_SIZE_eq. intros H. Z.div_mod_to_equations. lia. Qed.


Lemma touched_keeps st st' k pg : touched st st' k pg -> keeps_pages st st'.
Proof.
  intros Ht i Hi. destruct (Z.eq_dec i k) as [->|Hne].
  - rewrite (touched_same _ _ _ _ Ht). eauto.
  - rewrite (touched_other _ _ _ _ _ Ht Hne). exact Hi.
Qed.

Lemma same_data_touched st0 st st' k pg :
  same_data st0 st -> touched st st' k pg -> pg_data pg = pg_data (get_page st k) ->
  same_data st0 st'.
Proof.
  intros Hsame Ht Hd i. rewrite <- Hsame.
  destruct (Z.eq_dec i k) as [->|Hne].
  - rewrite (touched_get _ _ _ _ Ht). exact Hd.
  - unfold get_page. rewrite (touched_other _ _ _ _ _ Ht Hne). reflexivity.
Qed.

Lemma slot_mono offset p q : p <= q -> batch_slot offset p <= batch_slot offset q.
Proof.
  intros H. unfold batch_slot.
  assert (p / PAGE_SIZE <= q / PAGE_SIZE)
    by (apply Z.div_le_mono; rewrite ?PAGE_SIZE_eq; lia).
  lia.
Qed.

Section CopyLoop.

(** The slots [a] hold the batch of [nr] pages; [st0] is the state when
    the copy loop starts and [data0] the caller's buffer. *)
Variables (a : list (option pageptr)) (nr rc offset size : Z).
Variables (st0 : inode) (data0 : list byte).
Hypothesis Hlen : length a = Z.to_nat nr.
Hypothesis Hfill : batch_filled a nr.
Hypothesis Hnr : 0 <= nr < 2 ^ 31.
Hypothesis Hoff : 0 <= offset.
Hypothesis Hsize : 0 <= size < 2 ^ 31.
Hypothesis Hmax : offset + size < 2 ^ 63.
Hypothesis Hbuf : (Z.to_nat size <= length data0)%nat.

(** One iteration of the copy loop, with the batch in the slots: the
    bytes come from the page in slot [page_idx]; that slot is the number
    of steps made so far, [batch_slot offset pos]. *)
Lemma ecryptfs_read2_body_spec v st :
  offset <= r_pos v < offset + size ->
  r_page_idx v = batch_slot offset (r_pos v) ->
  read_inv nr offset st0 data0 v -> same_data st0 st -> batch_frame nr st0 st ->
  wf_cache st ->
  match ecryptfs_read2_body (Some a) rc offset size v st with
  | OutOfFuel => False
  | Crash _ => nr <= batch_slot offset (r_pos v)
  | Ok (c, v') st' =>
      c = Next /\ r_pos v < r_pos v' <= offset + size /\
      (r_pos v' < offset + size -> r_page_idx v' = batch_slot offset (r_pos v')) /\
      read_inv nr offset st0 data0 v' /\ same_data st0 st' /\ batch_frame nr st0 st' /\
      wf_cache st' /\ keeps_pages st st'
  end.
Proof.
  intros Hpos Hidx (Hdo & Hwr & Hdl & Hpre) Hsame Hframe Hwf.
  pose proof (Z.mod_pos_bound (r_pos v) PAGE_SIZE ltac:(rewrite PAGE_SIZE_eq; lia)) as Hm.
  assert (Hk0 : 0 <= batch_slot offset (r_pos v)).
  { unfold batch_slot.
    assert (offset / PAGE_SIZE <= r_pos v / PAGE_SIZE)
      by (apply Z.div_le_mono; rewrite ?PAGE_SIZE_eq; lia).
    lia. }
  unfold ecryptfs_read2_body. rewrite offset_in_page_mod.
  rewrite (u64_small (offset + size)) by lia.
  rewrite (u64_small (offset + size - r_pos v)) by lia.
  set (start := r_pos v mod PAGE_SIZE) in *.
  set (n := if PAGE_SIZE - start >? offset + size - r_pos v
            then offset + size - r_pos v else PAGE_SIZE - start).
  assert (Hn : 1 <= n /\ start + n <= PAGE_SIZE /\ r_pos v + n <= offset + size /\
               (r_pos v + n < offset + size -> n = PAGE_SIZE - start)).
  { unfold n. case_cmp; lia. }
  destruct Hn as (Hn1 & Hnfit & Hnend & Hnfull).
  rewrite Hidx. set (k := batch_slot offset (r_pos v)) in *.
  unfold array_get.
  destruct (Z.ltb_spec k 0) as [Hneg|_]; [lia|].
  destruct (Z.leb_spec (Z.of_nat (length a)) k) as [Hout|Hin]; cbn [orb]; [lia|].
  rewrite (Hfill k) by lia. cbn [IS_ERR kmap].
  set (st1 := if negb (rc =? 0) then ClearPageUptodate st k else SetPageUptodate st k).
  assert (Ht : exists pg, touched st (put_page (unlock_page st1 k) k) k pg /\
                          pg_data pg = pg_data (get_page st k)).
  { unfold st1. destruct (negb (rc =? 0)).
    - eexists. split; [apply touched_put, touched_unlock|].
      + exact (touched_first st k (Page (pg_data (get_page st k)) false
                 (pg_locked (get_page st k)) (pg_count (get_page st k)))).
      + reflexivity.
    - eexists. split; [apply touched_put, touched_unlock|].
      + exact (touched_first st k (Page (pg_data (get_page st k)) true
                 (pg_locked (get_page st k)) (pg_count (get_page st k)))).
      + reflexivity. }
  destruct Ht as (pg & Ht & Hpgd).
  assert (Hlower : lower_data (put_page (unlock_page st1 k) k) = lower_data st).
  { unfold st1. destruct (negb (rc =? 0)); reflexivity. }
  assert (Hplen : length (pg_data (get_page st k)) = Z.to_nat PAGE_SIZE)
    by (apply get_page_length, Hwf).
  assert (Hslen : length (buf_slice (pg_data (get_page st k)) start n) = Z.to_nat n).
  { apply buf_slice_length; lia. }
  cbn [r_pos r_page_idx r_data_offset r_written r_data].
  rewrite (s64_small (r_pos v + n)) by lia.
  split; [reflexivity|]. split; [lia|].
  split.
  { intros Hmore. rewrite u32_small by lia.
    rewrite (Hnfull Hmore). unfold k, batch_slot, start.
    rewrite next_page_start by lia. lia. }
  split.
  { unfold read_inv. cbn [r_pos r_page_idx r_data_offset r_written r_data].
    rewrite Hdo, Hwr.
    rewrite s64_small by lia. rewrite s32_small by lia.
    split; [lia|]. split; [lia|].
    split; [rewrite length_inserts; exact Hdl|].
    intros j Hj.
    destruct (Z.lt_ge_cases j (r_pos v - offset)) as [Hold|Hnew].
    - rewrite list_lookup_inserts_lt by lia. apply Hpre. lia.
    - destruct (in_step_same_page (offset + j) (r_pos v) n) as (Hq & Hr); try lia.
      assert (Hslot : batch_slot offset (offset + j) = k)
        by (unfold k, batch_slot; rewrite Hq; reflexivity).
      rewrite Hslot. split; [lia|].
      rewrite list_lookup_inserts; [|lia|lia].
      replace (Z.to_nat j - Z.to_nat (r_pos v - offset))%nat
        with (Z.to_nat (offset + j - r_pos v)) by lia.
      rewrite buf_slice_lookup by lia.
      rewrite (Hsame k).
      f_equal. f_equal.
      rewrite (in_step_offset (offset + j) (r_pos v)) by lia. fold start. lia. }
  split; [eapply same_data_touched; eauto|].
  split; [eapply batch_frame_touched; eauto; lia|].
  split; [eapply touched_wf; eauto; rewrite Hpgd; exact Hplen|].
  eapply touched_keeps; eauto.
Qed.

Lemma ecryptfs_read2_loop_spec :
  forall fuel v st,
    offset <= r_pos v <= offset + size ->
    (r_pos v < offset + size -> r_page_idx v = batch_slot offset (r_pos v)) ->
    read_inv nr offset st0 data0 v -> same_data st0 st -> batch_frame nr st0 st ->
    wf_cache st ->
    (Z.to_nat (offset + size - r_pos v) <= fuel)%nat ->
    match ecryptfs_read2_loop fuel (Some a) rc offset size v st with
    | OutOfFuel => False
    | Crash _ => nr <= batch_slot offset (offset + size - 1)
    | Ok (c, v') st' =>
        r_pos v' = offset + size /\ read_inv nr offset st0 data0 v' /\
        same_data st0 st' /\ batch_frame nr st0 st' /\ wf_cache st' /\
        keeps_pages st st'
    end.
Proof.
  intros fuel.
  induction fuel as [|fuel IH]; intros v st Hpos Hidx Hinv Hsame Hframe Hwf Hfuel.
  - cbn [ecryptfs_read2_loop]. rewrite !u64_small by lia.
    destruct (Z.ltb_spec (r_pos v) (offset + size)) as [Hlt|Hge]; [lia|].
    split; [lia|]. split; [exact Hinv|]. split; [exact Hsame|].
    split; [exact Hframe|]. split; [exact Hwf|]. intros i Hi; exact Hi.
  - cbn [ecryptfs_read2_loop]. rewrite !u64_small by lia.
    destruct (Z.ltb_spec (r_pos v) (offset + size)) as [Hlt|Hge].
    2: { split; [lia|]. split; [exact Hinv|]. split; [exact Hsame|].
         split; [exact Hframe|]. split; [exact Hwf|]. intros i Hi; exact Hi. }
    pose proof (ecryptfs_read2_body_spec v st ltac:(lia) (Hidx Hlt)
                  Hinv Hsame Hframe Hwf) as Hbody.
    destruct (ecryptfs_read2_body (Some a) rc offset size v st) as [[c v'] st'| |];
      try exact Hbody.
    2: { pose proof (slot_mono offset (r_pos v) (offset + size - 1) ltac:(lia)). lia. }
    destruct Hbody as (-> & Hpos' & Hidx' & Hinv' & Hsame' & Hframe' & Hwf' & Hkeep').
    specialize (IH v' st' ltac:(lia) Hidx' Hinv' Hsame' Hframe' Hwf' ltac:(lia)).
    destruct (ecryptfs_read2_loop fuel (Some a) rc offset size v' st')
      as [[c2 v2] st2| |]; try exact IH.
    destruct IH as (H1 & H2 & H3 & H4 & H5 & H6).
    split; [exact H1|]. split; [exact H2|]. split; [exact H3|].
    split; [exact H4|]. split; [exact H5|].
    intros i Hi. apply H6, Hkeep', Hi.
Qed.

End CopyLoop.

(** What a read returns when decryption is needed, the array is
    allocated and every acquisition gives its page.  The run ends in
    [Crash] only when the copy loop needs more slots than [pgs] has: the
    walk from [offset] spans more pages than the page count computed
    from the length alone. *)
Lemma ecryptfs_read2_spec e st data offset size :
  needs_decrypt st = true -> kmalloc_ok e = true ->
  (forall k idx, page_acquire e k idx = AcqPage) ->
  wf_cache st ->
  0 <= offset < i_size st -> i_size st < 2 ^ 62 ->
  0 <= size -> clamped_size st size < 2 ^ 31 ->
  length data = Z.to_nat size ->
  match ecryptfs_read2 e st data offset size with
  | OutOfFuel => False
  | Crash _ =>
      batch_pages st size <= batch_slot offset (offset + clamped_size st size - 1)
  | Ok (n, buf) st' =>
      n = clamped_size st size /\ length buf = length data /\
      batch_frame (batch_pages st size) st st' /\
      (forall k, 0 <= k < batch_pages st size -> is_Some (i_mapping st' !! k)) /\
      (decrypt_pages_rc e = 0 ->
       forall k, 0 <= k < batch_pages st size ->
                 pg_data (get_page st' k) = lower_page st k) /\
      (forall j, 0 <= j < n ->
         0 <= batch_slot offset (offset + j) < batch_pages st size /\
         buf !! Z.to_nat j
         = pg_data (get_page st' (batch_slot offset (offset + j)))
             !! Z.to_nat ((offset + j) mod PAGE_SIZE))
  end.
Proof.
  intros Hdec Hkm Hacq Hwf Hoff Hfs Hsize Hclamp Hdata.
  unfold ecryptfs_read2.
  rewrite (u64_small (i_size st)) by lia.
  set (size' := if size >? i_size st then i_size st else size).
  assert (Hsz : size' = clamped_size st size).
  { unfold size', clamped_size. case_cmp; lia. }
  assert (Hsz0 : 0 <= size' < 2 ^ 31).
  { rewrite Hsz. unfold clamped_size in *. lia. }
  assert (Hsz1 : size' <= size /\ size' <= i_size st).
  { rewrite Hsz. unfold clamped_size. lia. }
  set (nr := s32 (Z.shiftr (u64 (size' + PAGE_SIZE - 1)) PAGE_SHIFT)).
  assert (Hnr : nr = batch_pages st size /\ 0 <= nr < 2 ^ 31).
  { unfold nr, batch_pages. rewrite <- Hsz.
    rewrite u64_small by (rewrite PAGE_SIZE_eq; lia).
    rewrite Z.shiftr_div_pow2 by (unfold PAGE_SHIFT; lia).
    change (2 ^ PAGE_SHIFT) with PAGE_SIZE.
    assert (0 <= (size' + PAGE_SIZE - 1) / PAGE_SIZE < 2 ^ 31).
    { rewrite PAGE_SIZE_eq. split; [apply Z.div_pos; lia|].
      apply Z.div_lt_upper_bound; lia. }
    rewrite s32_small by lia. auto. }
  destruct Hnr as (Hnreq & Hnr).
  rewrite <- Hnreq. clearbody nr.
  unfold needs_decrypt in Hdec. apply andb_true_iff in Hdec as (Henc & Hview).
  rewrite Henc. apply negb_true_iff in Hview. rewrite Hview.
  cbn [negb orb andb].
  unfold kmalloc_pages. rewrite Hkm.
  destruct (Z.ltb_spec nr 0) as [Hneg|_]; [lia|].
  cbn [negb orb andb is_null].
  rewrite u32_small by lia.
  destruct (ecryptfs_read2_grab_spec e nr st Hacq Hnr (Z.to_nat nr) 0
              (replicate (Z.to_nat nr) None) st)
    as (a & st1 & Hgrab & Hlen & Hfill & Hfr1 & Hwf1 & Hsome1).
  { lia. } { f_equal; lia. } { apply length_replicate. } { intros i Hi; lia. }
  { apply batch_frame_refl. } { exact Hwf. } { intros i Hi; lia. }
  rewrite Hgrab. cbn [bind].
  destruct (ecryptfs_decrypt_pages_spec e st1 a nr ltac:(lia) Hlen Hfill Hwf1 Hsome1)
    as (st2 & Hdecr & Hfr2 & Hwf2 & Hsome2 & Hdata2).
  rewrite Hdecr. cbn [bind].
  destruct (Z.geb_spec offset (i_size st)) as [Hpast|_]; [lia|].
  pose proof (ecryptfs_read2_loop_spec a nr (decrypt_pages_rc e) offset size' st2 data
                Hlen Hfill Hnr ltac:(lia) Hsz0 ltac:(lia) ltac:(lia)
                (walk_fuel offset size' offset) (RVars offset 0 0 0 0 data) st2)
    as Hloop.
  cbn [r_pos r_page_idx] in Hloop.
  specialize (Hloop ltac:(lia)).
  specialize (Hloop ltac:(intros _; unfold batch_slot; lia)).
  specialize (Hloop ltac:(unfold read_inv; cbn [r_pos r_data_offset r_written r_data];
                          repeat split; try lia; intros j Hj; lia)).
  specialize (Hloop ltac:(intros i; reflexivity) (batch_frame_refl nr st2) Hwf2).
  specialize (Hloop ltac:(unfold walk_fuel; rewrite u64_small by lia; lia)).
  destruct (ecryptfs_read2_loop _ (Some a) _ offset size' _ st2) as [[c v] st3| |];
    cbn [bind]; try exact Hloop.
  2: { rewrite <- Hsz. exact Hloop. }
  destruct Hloop as (Hpos & (Hdo & Hwr & Hdl & Hpre) & Hsame & Hfr3 & Hwf3 & Hkeep).
  split; [lia|]. split; [exact Hdl|].
  split.
  { apply (batch_frame_trans nr st st1); [exact Hfr1|].
    apply (batch_frame_trans nr st1 st2); [exact Hfr2|]. exact Hfr3. }
  split.
  { intros k Hk. apply (Hkeep k), Hsome2, Hk. }
  split.
  { intros H0 k Hk.
    change (get_page (set_accessed st3) k) with (get_page st3 k).
    rewrite (Hsame k). rewrite (Hdata2 H0 k Hk).
    apply lower_page_frame. apply Hfr1. }
  intros j Hj.
  change (get_page (set_accessed st3) (batch_slot offset (offset + j)))
    with (get_page st3 (batch_slot offset (offset + j))).
  rewrite (Hsame _). apply Hpre. lia.
Qed.

(** ** The batched read in every environment *)

(** A store to a page of the batch stays within the batch. *)
Lemma batch_frame_set_page nr st j pg :
  0 <= j < nr -> batch_frame nr st (set_page st j pg).
Proof.
  intros Hj. unfold batch_frame, set_page, set_mapping. cbn [i_mapping i_size crypt_flags
    lower_data].
  repeat split. intros i Hi. apply lookup_insert_ne. lia.
Qed.

Lemma readpage_batch_frame nr e st j :
  0 <= j < nr -> batch_frame nr st (snd (readpage e st j)).
Proof.
  intros Hj. unfold readpage.
  destruct (readpage_rc e j =? 0); cbn [snd].
  - eapply batch_frame_trans; [|apply batch_frame_set_page, Hj].
    eapply batch_frame_trans; [|apply batch_frame_set_page, Hj].
    apply batch_frame_set_page, Hj.
  - apply batch_frame_set_page, Hj.
Qed.

Lemma kmalloc_pages_bounded nr e n : batch_bounded nr (kmalloc_pages e n).
Proof.
  unfold kmalloc_pages. destruct ((n <? 0) || negb (kmalloc_ok e)); [exact I|].
  intros i p Hi. apply lookup_replicate in Hi as (Hi & _). discriminate.
Qed.

Lemma array_set_bounded nr pgs j p pgs' :
  batch_bounded nr pgs -> (forall idx, p = PPage idx -> 0 <= idx < nr) ->
  array_set pgs j p = inr pgs' -> batch_bounded nr pgs'.
Proof.
  intros Hb Hp. unfold array_set. destruct pgs as [a|]; [|discriminate].
  destruct ((j <? 0) || (Z.of_nat (length a) <=? j)); [discriminate|].
  intros [= <-] i q Hi.
  apply list_lookup_insert_Some in Hi as [(_ & Heq & _)|(_ & Hi)].
  - apply Hp. congruence.
  - apply (Hb i q Hi).
Qed.

Lemma array_get_bounded nr pgs j pg :
  batch_bounded nr pgs -> array_get pgs j = inr (PPage pg) -> 0 <= pg < nr.
Proof.
  intros Hb. unfold array_get. destruct pgs as [a|]; [|discriminate].
  destruct ((j <? 0) || (Z.of_nat (length a) <=? j)); [discriminate|].
  destruct (a !! Z.to_nat j) as [[p|]|] eqn:Hj; try discriminate.
  intros [= ->]. apply (Hb _ _ Hj).
Qed.

Lemma batch_indices_bounded nr pgs :
  batch_bounded nr pgs ->
  forall n i l, batch_indices pgs i n = inr l -> forall k, k ∈ l -> 0 <= k < nr.
Proof.
  intros Hb. induction n as [|n IH]; intros i l; cbn [batch_indices].
  - intros [= <-] k Hk. inversion Hk.
  - destruct (array_get pgs i) as [f|[|err|idx]] eqn:Hget; try discriminate.
    destruct (batch_indices pgs (i + 1) n) as [f|l'] eqn:Hrest; [discriminate|].
    intros [= <-] k Hk. apply elem_of_cons in Hk as [->|Hk].
    + apply (array_get_bounded nr pgs i), Hget. exact Hb.
    + apply (IH (i + 1) l' Hrest k Hk).
Qed.

Lemma fold_fill_page_frame nr :
  forall l st, (forall k, k ∈ l -> 0 <= k < nr) ->
               batch_frame nr st (fold_left fill_page l st).
Proof.
  induction l as [|j l IH]; intros st Hin; cbn [fold_left].
  - apply batch_frame_refl.
  - eapply batch_frame_trans; [|apply IH].
    + apply batch_frame_set_page, Hin, elem_of_cons. left. reflexivity.
    + intros k Hk. apply Hin, elem_of_cons. right. exact Hk.
Qed.

(** The acquisition loop asks for the cache pages of its own counter,
    whatever the acquisitions give and in both modes: it touches no page
    outside the indices below [nr_pages]. *)
Lemma ecryptfs_read2_grab_frame e nodec nr :
  forall fuel j rc pgs st,
    0 <= j -> batch_bounded (u32 nr) pgs ->
    match ecryptfs_read2_grab fuel e nodec nr j rc pgs st with
    | Ok (_, (_, pgs')) st' => batch_frame (u32 nr) st st' /\ batch_bounded (u32 nr) pgs'
    | _ => True
    end.
Proof.
  induction fuel as [|fuel IH]; intros j rc pgs st Hj Hb; cbn [ecryptfs_read2_grab];
    destruct (Z.ltb_spec j (u32 nr)) as [Hlt|Hge]; try exact I;
    try (split; [apply batch_frame_refl|exact Hb]).
  assert (Hj' : 0 <= u32 (j + 1)) by (unfold u32; apply Z.mod_pos_bound; lia).
  unfold grab_cache_page.
  destruct (page_acquire e (Z.to_nat j) j) as [| |err].
  - set (st1 := set_page st j _).
    assert (H1 : batch_frame (u32 nr) st st1) by (apply batch_frame_set_page; lia).
    destruct nodec; cbn [kmap bind].
    + pose proof (readpage_batch_frame (u32 nr) e st1 j ltac:(lia)) as Hr.
      destruct (readpage e st1 j) as [r st2]. cbn [snd bind] in *.
      destruct (array_set pgs j (PPage j)) as [f|pgs'] eqn:Hset; [exact I|].
      assert (Hb' : batch_bounded (u32 nr) pgs').
      { apply (array_set_bounded _ pgs j (PPage j) pgs' Hb); [|exact Hset].
        intros idx [= <-]. lia. }
      specialize (IH (u32 (j + 1)) (Z.lor rc r) pgs' st2 Hj' Hb').
      destruct (ecryptfs_read2_grab fuel e true nr (u32 (j + 1)) (Z.lor rc r) pgs' st2)
        as [[c [rc' pgs2]] st3| |]; try exact I.
      destruct IH as (Hf & Hb2). split; [|exact Hb2].
      eapply batch_frame_trans; [exact H1|]. eapply batch_frame_trans; eauto.
    + destruct (array_set pgs j (PPage j)) as [f|pgs'] eqn:Hset; [exact I|].
      assert (Hb' : batch_bounded (u32 nr) pgs').
      { apply (array_set_bounded _ pgs j (PPage j) pgs' Hb); [|exact Hset].
        intros idx [= <-]. lia. }
      specialize (IH (u32 (j + 1)) rc pgs' st1 Hj' Hb').
      destruct (ecryptfs_read2_grab fuel e false nr (u32 (j + 1)) rc pgs' st1)
        as [[c [rc' pgs2]] st3| |]; try exact I.
      destruct IH as (Hf & Hb2). split; [|exact Hb2].
      eapply batch_frame_trans; eauto.
  - split; [apply batch_frame_refl|exact Hb].
  - destruct nodec; cbn [kmap bind]; [exact I|].
    destruct (array_set pgs j (PErr err)) as [f|pgs'] eqn:Hset; [exact I|].
    assert (Hb' : batch_bounded (u32 nr) pgs').
    { apply (array_set_bounded _ pgs j (PErr err) pgs' Hb); [|exact Hset].
      intros idx [=]. }
    specialize (IH (u32 (j + 1)) rc pgs' st Hj' Hb').
    destruct (ecryptfs_read2_grab fuel e false nr (u32 (j + 1)) rc pgs' st)
      as [[c [rc' pgs2]] st3| |]; try exact I.
    exact IH.
Qed.

Lemma ecryptfs_decrypt_pages_frame nr e st pgs n :
  batch_bounded nr pgs ->
  match ecryptfs_decrypt_pages e st pgs n with
  | Ok _ st' => batch_frame nr st st'
  | _ => True
  end.
Proof.
  intros Hb. unfold ecryptfs_decrypt_pages.
  destruct (batch_indices pgs 0 (Z.to_nat n)) as [f|l] eqn:Hl; [exact I|].
  destruct (decrypt_pages_rc e =? 0); [|apply batch_frame_refl].
  apply fold_fill_page_frame. apply (batch_indices_bounded nr pgs Hb _ _ _ Hl).
Qed.

(** The copy loop releases pages of the array only. *)
Lemma ecryptfs_read2_loop_frame nr pgs rc offset size :
  batch_bounded nr pgs ->
  forall fuel v st,
    match ecryptfs_read2_loop fuel pgs rc offset size v st with
    | Ok _ st' => batch_frame nr st st'
    | _ => True
    end.
Proof.
  intros Hb.
  induction fuel as [|fuel IH]; intros v st; cbn [ecryptfs_read2_loop];
    destruct (_ <? _); try exact I; try apply batch_frame_refl.
  unfold ecryptfs_read2_body.
  destruct (array_get pgs (r_page_idx v)) as [f|p] eqn:Hget; [exact I|].
  destruct (IS_ERR p); [apply batch_frame_refl|].
  destruct p as [|err|pg]; cbn [kmap]; try exact I.
  pose proof (array_get_bounded nr pgs _ pg Hb Hget) as Hpg.
  match goal with
  | |- match ecryptfs_read2_loop _ _ _ _ _ ?v' ?s with _ => _ end =>
      specialize (IH v' s);
      destruct (ecryptfs_read2_loop fuel pgs rc offset size v' s) as [[c v2] st2| |];
        auto;
      eapply batch_frame_trans; [|exact IH]
  end.
  eapply batch_frame_trans; [|apply batch_frame_set_page, Hpg].
  eapply batch_frame_trans; [|apply batch_frame_set_page, Hpg].
  destruct (negb (rc =? 0)); apply batch_frame_set_page, Hpg.
Qed.

(** The page count computed from the clamped length, lines 446-449. *)
Lemma read2_nr_pages st size :
  0 <= i_size st < 2 ^ 62 -> 0 <= size -> clamped_size st size < 2 ^ 31 ->
  let size' := if size >? u64 (i_size st) then u64 (i_size st) else size in
  let nr := s32 (Z.shiftr (u64 (size' + PAGE_SIZE - 1)) PAGE_SHIFT) in
  size' = clamped_size st size /\ nr = batch_pages st size /\ u32 nr = nr /\
  0 <= nr < 2 ^ 31.
Proof.
  intros Hfs Hsize Hclamp. cbv zeta.
  rewrite (u64_small (i_size st)) by lia.
  set (size' := if size >? i_size st then i_size st else size).
  assert (Hsz : size' = clamped_size st size).
  { unfold size', clamped_size. case_cmp; lia. }
  split; [exact Hsz|].
  unfold batch_pages. rewrite Hsz.
  assert (0 <= clamped_size st size) by (unfold clamped_size; lia).
  rewrite u64_small by (rewrite PAGE_SIZE_eq; lia).
  rewrite Z.shiftr_div_pow2 by (unfold PAGE_SHIFT; lia).
  change (2 ^ PAGE_SHIFT) with PAGE_SIZE.
  assert (0 <= (clamped_size st size + PAGE_SIZE - 1) / PAGE_SIZE < 2 ^ 31).
  { rewrite PAGE_SIZE_eq. split; [apply Z.div_pos; lia|].
    apply Z.div_lt_upper_bound; lia. }
  rewrite s32_small by lia. rewrite u32_small by lia. auto.
Qed.

(** A read touches no cache page outside the indices 0 .. nr-1, where
    nr is the page count computed from the clamped length: in every mode
    and whatever the collaborators report, wherever [offset] lies. *)
Lemma ecryptfs_read2_frame e st data offset size :
  0 <= i_size st < 2 ^ 62 -> 0 <= size -> clamped_size st size < 2 ^ 31 ->
  match ecryptfs_read2 e st data offset size with
  | Ok _ st' => batch_frame (batch_pages st size) st st'
  | _ => True
  end.
Proof.
  intros Hfs Hsize Hclamp.
  destruct (read2_nr_pages st size Hfs Hsize Hclamp) as (_ & Hnr & Hu & _).
  cbv zeta in Hnr, Hu.
  unfold ecryptfs_read2.
  set (size' := if size >? u64 (i_size st) then u64 (i_size st) else size) in *.
  set (nr := s32 (Z.shiftr (u64 (size' + PAGE_SIZE - 1)) PAGE_SHIFT)) in *.
  rewrite <- Hnr. clearbody nr. clearbody size'.
  set (nodec := negb (flag_set (crypt_flags st) ECRYPTFS_ENCRYPTED)
                || flag_set (crypt_flags st) ECRYPTFS_VIEW_AS_ENCRYPTED).
  set (pgs := if nodec then None else kmalloc_pages e nr).
  assert (Hb : batch_bounded (u32 nr) pgs).
  { unfold pgs. destruct nodec; [exact I|apply kmalloc_pages_bounded]. }
  destruct (negb nodec && is_null pgs); [apply batch_frame_refl|].
  pose proof (ecryptfs_read2_grab_frame e nodec nr (Z.to_nat (u32 nr)) 0 0 pgs st
                ltac:(lia) Hb) as Hgrab.
  destruct (ecryptfs_read2_grab (Z.to_nat (u32 nr)) e nodec nr 0 0 pgs st)
    as [[c [rc pgs1]] st1| |]; cbn [bind]; try exact I.
  destruct Hgrab as (Hf1 & Hb1). rewrite Hu in Hf1, Hb1.
  assert (Hacc : forall s, batch_frame nr st s -> batch_frame nr st (set_accessed s)).
  { intros s Hs. exact Hs. }
  destruct c; [| |apply Hacc, Hf1].
  - assert (Hdec : match (if negb nodec then ecryptfs_decrypt_pages e st1 pgs1 nr
                          else Ok rc st1) with
                   | Ok _ st2 => batch_frame nr st st2
                   | _ => True
                   end).
    { destruct (negb nodec); [|exact Hf1].
      pose proof (ecryptfs_decrypt_pages_frame nr e st1 pgs1 nr Hb1) as Hd.
      destruct (ecryptfs_decrypt_pages e st1 pgs1 nr); try exact I.
      eapply batch_frame_trans; eauto. }
    destruct (if negb nodec then ecryptfs_decrypt_pages e st1 pgs1 nr else Ok rc st1)
      as [rc2 st2| |]; cbn [bind]; try exact I.
    destruct (offset >=? i_size st); [apply Hacc, Hdec|].
    pose proof (ecryptfs_read2_loop_frame nr pgs1 rc2 offset size' Hb1
                  (walk_fuel offset size' offset) (RVars offset 0 0 0 0 data) st2) as Hl.
    destruct (ecryptfs_read2_loop _ pgs1 rc2 offset size' _ st2) as [[c v] st3| |];
      cbn [bind]; try exact I.
    apply Hacc. eapply batch_frame_trans; eauto.
  - assert (Hdec : match (if negb nodec then ecryptfs_decrypt_pages e st1 pgs1 nr
                          else Ok rc st1) with
                   | Ok _ st2 => batch_frame nr st st2
                   | _ => True
                   end).
    { destruct (negb nodec); [|exact Hf1].
      pose proof (ecryptfs_decrypt_pages_frame nr e st1 pgs1 nr Hb1) as Hd.
      destruct (ecryptfs_decrypt_pages e st1 pgs1 nr); try exact I.
      eapply batch_frame_trans; eauto. }
    destruct (if negb nodec then ecryptfs_decrypt_pages e st1 pgs1 nr else Ok rc st1)
      as [rc2 st2| |]; cbn [bind]; try exact I.
    destruct (offset >=? i_size st); [apply Hacc, Hdec|].
    pose proof (ecryptfs_read2_loop_frame nr pgs1 rc2 offset size' Hb1
                  (walk_fuel offset size' offset) (RVars offset 0 0 0 0 data) st2) as Hl.
    destruct (ecryptfs_read2_loop _ pgs1 rc2 offset size' _ st2) as [[c v] st3| |];
      cbn [bind]; try exact I.
    apply Hacc. eapply batch_frame_trans; eauto.
Qed.

(** The acquisition loop of a read with decryption and the copy loop
    change the bytes of no page. *)
Lemma same_data_set_page st j pg :
  pg_data pg = pg_data (get_page st j) -> same_data st (set_page st j pg).
Proof.
  intros Hd. apply (same_data_touched st st _ j pg); [intros i; reflexivity| |exact Hd].
  apply touched_first.
Qed.

Lemma same_data_trans st1 st2 st3 :
  same_data st1 st2 -> same_data st2 st3 -> same_data st1 st3.
Proof. intros H1 H2 i. rewrite H2. apply H1. Qed.

Lemma ecryptfs_read2_grab_data e nr :
  forall fuel j rc pgs st,
    match ecryptfs_read2_grab fuel e false nr j rc pgs st with
    | Ok _ st' => same_data st st'
    | _ => True
    end.
Proof.
  induction fuel as [|fuel IH]; intros j rc pgs st; cbn [ecryptfs_read2_grab];
    destruct (j <? u32 nr); try exact I; try (intros i; reflexivity).
  unfold grab_cache_page.
  destruct (page_acquire e (Z.to_nat j) j) as [| |err]; cbn [bind].
  - destruct (array_set pgs j (PPage j)) as [f|pgs']; [exact I|].
    match goal with
    | |- match ecryptfs_read2_grab _ _ _ _ _ _ _ ?s with _ => _ end =>
        specialize (IH (u32 (j + 1)) rc pgs' s);
        destruct (ecryptfs_read2_grab fuel e false nr (u32 (j + 1)) rc pgs' s);
          try exact I;
        eapply same_data_trans; [|exact IH]
    end.
    apply same_data_set_page. reflexivity.
  - intros i; reflexivity.
  - destruct (array_set pgs j (PErr err)) as [f|pgs']; [exact I|].
    specialize (IH (u32 (j + 1)) rc pgs' st).
    destruct (ecryptfs_read2_grab fuel e false nr (u32 (j + 1)) rc pgs' st); auto.
Qed.

Lemma ecryptfs_read2_loop_data pgs rc offset size :
  forall fuel v st,
    match ecryptfs_read2_loop fuel pgs rc offset size v st with
    | Ok _ st' => same_data st st'
    | _ => True
    end.
Proof.
  induction fuel as [|fuel IH]; intros v st; cbn [ecryptfs_read2_loop];
    destruct (_ <? _); try exact I; try (intros i; reflexivity).
  unfold ecryptfs_read2_body.
  destruct (array_get pgs (r_page_idx v)) as [f|p]; [exact I|].
  destruct (IS_ERR p); [intros i; reflexivity|].
  destruct p as [|err|pg]; cbn [kmap]; try exact I.
  match goal with
  | |- match ecryptfs_read2_loop _ _ _ _ _ ?v' ?s with _ => _ end =>
      specialize (IH v' s);
      destruct (ecryptfs_read2_loop fuel pgs rc offset size v' s) as [[c v2] st2| |];
        auto;
      eapply same_data_trans; [|exact IH]
  end.
  eapply same_data_trans; [|apply same_data_set_page; reflexivity].
  eapply same_data_trans; [|apply same_data_set_page; reflexivity].
  destruct (negb (rc =? 0)); apply same_data_set_page; reflexivity.
Qed.

(** When the group decryption fails, a read leaves in every page the
    bytes the page had. *)
Lemma ecryptfs_read2_failed_decrypt_data e st data offset size :
  needs_decrypt st = true -> decrypt_pages_rc e <> 0 ->
  match ecryptfs_read2 e st data offset size with
  | Ok _ st' => same_data st st'
  | _ => True
  end.
Proof.
  intros Hdec Hrc.
  unfold needs_decrypt in Hdec. apply andb_true_iff in Hdec as (Henc & Hview).
  apply negb_true_iff in Hview.
  unfold ecryptfs_read2. rewrite Henc, Hview. cbn [negb orb andb].
  set (size' := if size >? u64 (i_size st) then u64 (i_size st) else size).
  set (nr := s32 (Z.shiftr (u64 (size' + PAGE_SIZE - 1)) PAGE_SHIFT)).
  destruct (is_null (kmalloc_pages e nr)); [intros i; reflexivity|].
  pose proof (ecryptfs_read2_grab_data e nr (Z.to_nat (u32 nr)) 0 0
                (kmalloc_pages e nr) st) as Hgrab.
  destruct (ecryptfs_read2_grab (Z.to_nat (u32 nr)) e false nr 0 0
              (kmalloc_pages e nr) st) as [[c [rc pgs1]] st1| |]; cbn [bind]; try exact I.
  assert (Hd : match ecryptfs_decrypt_pages e st1 pgs1 nr with
               | Ok _ st2 => st2 = st1
               | _ => True
               end).
  { unfold ecryptfs_decrypt_pages.
    destruct (batch_indices pgs1 0 (Z.to_nat nr)); [exact I|].
    destruct (Z.eqb_spec (decrypt_pages_rc e) 0); [contradiction|reflexivity]. }
  destruct c; [| |exact Hgrab].
  - destruct (ecryptfs_decrypt_pages e st1 pgs1 nr) as [rc2 st2| |]; cbn [bind];
      try exact I.
    subst st2.
    destruct (offset >=? i_size st); [exact Hgrab|].
    pose proof (ecryptfs_read2_loop_data pgs1 rc2 offset size'
                  (walk_fuel offset size' offset) (RVars offset 0 0 0 0 data) st1) as Hl.
    destruct (ecryptfs_read2_loop _ pgs1 rc2 offset size' _ st1) as [[c v] st3| |];
      cbn [bind]; try exact I.
    intros i. change (get_page (set_accessed st3) i) with (get_page st3 i).
    rewrite Hl. apply Hgrab.
  - destruct (ecryptfs_decrypt_pages e st1 pgs1 nr) as [rc2 st2| |]; cbn [bind];
      try exact I.
    subst st2.
    destruct (offset >=? i_size st); [exact Hgrab|].
    pose proof (ecryptfs_read2_loop_data pgs1 rc2 offset size'
                  (walk_fuel offset size' offset) (RVars offset 0 0 0 0 data) st1) as Hl.
    destruct (ecryptfs_read2_loop _ pgs1 rc2 offset size' _ st1) as [[c v] st3| |];
      cbn [bind]; try exact I.
    intros i. change (get_page (set_accessed st3) i) with (get_page st3 i).
    rewrite Hl. apply Hgrab.
Qed.

(** The spec's first testable property, where the code has it: on an
    encrypted file in a cooperative environment, a write of [data] at an
    offset inside the first page returns 0, and the read of the same range
    then returns exactly [data] (whatever the file held before, so in
    particular from an empty file), unless the walk of the read spans more
    pages than the page count computed from the length, in which case it
    reads past the end of [pgs]. *)
Theorem write_then_read_first_page e st data offset size :
  cooperative e -> kmalloc_ok e = true -> decrypt_pages_rc e = 0 ->
  needs_decrypt st = true -> wf_cache st ->
  0 <= i_size st < 2 ^ 62 -> 0 <= offset < PAGE_SIZE -> 0 < size < 2 ^ 31 ->
  length data = Z.to_nat size ->
  exists st1,
    ecryptfs_write e st data offset size = Ok 0 st1 /\
    forall dest, length dest = Z.to_nat size ->
      match ecryptfs_read2 e st1 dest offset size with
      | OutOfFuel => False
      | Crash _ =>
          (size + PAGE_SIZE - 1) / PAGE_SIZE <= (offset + size - 1) / PAGE_SIZE
      | Ok (n, buf) st2 => n = size /\ buf = data
      end.
Proof.
  intros Hco Hkm Hdrc Hdec Hwf Hfs Hoff Hsize Hdata.
  pose proof PAGE_SIZE_eq as HP.
  assert (Henc : encrypted st = true).
  { unfold needs_decrypt in Hdec. apply andb_true_iff in Hdec as (H & _). exact H. }
  destruct (ecryptfs_write_spec e st data offset size Hwf ltac:(lia) ltac:(lia)
              ltac:(lia) ltac:(lia)) as (Hspec & Hrun).
  destruct (Hrun Hco Henc) as (st1 & Hw).
  exists st1. split; [exact Hw|].
  rewrite Hw in Hspec. destruct (Hspec eq_refl) as (Hsz1 & Hfl1 & Hwf1 & Hdone).
  intros dest Hdest.
  assert (Hdec1 : needs_decrypt st1 = true).
  { unfold needs_decrypt. rewrite Hfl1. exact Hdec. }
  assert (Henc1 : encrypted st1 = true).
  { unfold encrypted. rewrite Hfl1. exact Henc. }
  assert (Hcl : clamped_size st1 size = size) by (unfold clamped_size; lia).
  assert (Hq0 : offset / PAGE_SIZE = 0) by (apply Z.div_small; lia).
  pose proof (ecryptfs_read2_spec e st1 dest offset size Hdec1 Hkm
                ltac:(apply Hco) Hwf1 ltac:(lia) ltac:(lia) ltac:(lia)
                ltac:(lia) Hdest) as Hread.
  destruct (ecryptfs_read2 e st1 dest offset size) as [[n buf] st2| |];
    try exact Hread.
  2: { unfold batch_pages, batch_slot in Hread. rewrite Hcl, Hq0 in Hread. lia. }
  destruct Hread as (Hn & Hlen & _ & _ & Hdecr & Hbytes).
  split; [lia|].
  apply list_eq. intros i.
  destruct (decide (i < Z.to_nat size)%nat) as [Hi|Hi].
  - destruct (lookup_lt_is_Some_2 data i ltac:(lia)) as (b & Hb).
    destruct (Hbytes (Z.of_nat i) ltac:(lia)) as (Hslot & Hbuf).
    rewrite Nat2Z.id in Hbuf. rewrite Hbuf, Hb.
    set (p := offset + Z.of_nat i) in *.
    unfold batch_slot in *. rewrite Hq0, Z.sub_0_r in *.
    rewrite (Hdecr Hdrc (p / PAGE_SIZE) Hslot).
    unfold lower_page.
    rewrite load_bytes_lookup
      by (pose proof (Z.mod_pos_bound p PAGE_SIZE ltac:(lia)); lia).
    rewrite page_base.
    destruct (page_span p) as (_ & Hrem).
    replace (p / PAGE_SIZE * PAGE_SIZE + Z.of_nat (Z.to_nat (p mod PAGE_SIZE)))
      with p
      by (pose proof (Z.mod_pos_bound p PAGE_SIZE ltac:(lia)); lia).
    assert (Hlo : write_start offset (i_size st) <= offset).
    { unfold write_start. case_cmp; lia. }
    destruct (Hdone p b) as (_ & Hlow).
    + unfold p. lia.
    + unfold expected_byte. destruct (Z.ltb_spec p offset) as [Hc|_]; [unfold p in Hc; lia|].
      replace (Z.to_nat (p - offset)) with i by (unfold p; lia). exact Hb.
    + rewrite (Hlow Henc1). reflexivity.
  - rewrite !lookup_ge_None_2 by lia. reflexivity.
Qed.


Lemma second_page_file_wf : wf_cache second_page_file.
Proof.
  unfold wf_cache, second_page_file. cbn [i_mapping].
  apply map_Forall_insert_2; [vm_compute; reflexivity|].
  apply map_Forall_singleton. vm_compute. reflexivity.
Qed.

Lemma hello_encrypted_wf : wf_cache hello_encrypted.
Proof.
  unfold wf_cache, hello_encrypted. cbn [i_mapping].
  apply map_Forall_singleton. vm_compute. reflexivity.
Qed.


(** C10, amended: in a read with 0 <= offset < size of the file, with
    decryption needed, the array allocated and every acquisition giving
    its page, the count returned is min(length, file size): the length
    is clamped against the file size, not against what is left after
    [offset] (the read runs past the end of [pgs] instead when the walk
    from [offset] spans more pages than the page count computed from
    the length).  So when [offset > 0] and
    [offset + min(length, file size)] exceeds the file size, the count
    exceeds the bytes between [offset] and end-of-file; and when the
    read starts in the first page, the destination holds, for every
    position [p] at or past end-of-file below [offset + count], the byte
    of position [p]: the lower file's byte there (zero where it holds
    nothing) when the decryption succeeded, the byte the page cache had
    there when it failed. *)
Theorem read2_count_clamped_against_file_size e st data offset size :
  needs_decrypt st = true -> kmalloc_ok e = true ->
  (forall k idx, page_acquire e k idx = AcqPage) ->
  wf_cache st ->
  0 <= offset < i_size st -> i_size st < 2 ^ 62 ->
  0 <= size -> clamped_size st size < 2 ^ 31 ->
  length data = Z.to_nat size ->
  match ecryptfs_read2 e st data offset size with
  | OutOfFuel => False
  | Crash _ =>
      batch_pages st size <= batch_slot offset (offset + clamped_size st size - 1)
  | Ok (n, buf) st' =>
      n = Z.min size (i_size st) /\
      (0 < offset -> offset + Z.min size (i_size st) > i_size st ->
       n > i_size st - offset /\
       (offset < PAGE_SIZE ->
        forall p, i_size st <= p < offset + n ->
          (Z.to_nat (p - offset) < length buf)%nat /\
          buf !! Z.to_nat (p - offset)
          = if decrypt_pages_rc e =? 0
            then Some (default x00 (lower_data st !! p))
            else pg_data (get_page st (p / PAGE_SIZE)) !! Z.to_nat (p mod PAGE_SIZE)))
  end.
Proof.
  intros Hdec Hkm Hacq Hwf Hoff Hfs Hsize Hclamp Hdata.
  pose proof PAGE_SIZE_eq as HP.
  pose proof (ecryptfs_read2_spec e st data offset size Hdec Hkm Hacq Hwf Hoff Hfs
                Hsize Hclamp Hdata) as Hspec.
  pose proof (ecryptfs_read2_failed_decrypt_data e st data offset size Hdec) as Hfail.
  destruct (ecryptfs_read2 e st data offset size) as [[n buf] st'| |]; try exact Hspec.
  destruct Hspec as (Hn & Hlen & Hframe & Hsome & Hdecr & Hbytes).
  unfold clamped_size in Hn.
  split; [exact Hn|].
  intros Hpos Hover. split; [lia|].
  intros Hfirst p Hp.
  pose proof (Hbytes (p - offset) ltac:(lia)) as (Hslot & Hb).
  replace (offset + (p - offset)) with p in Hslot, Hb by lia.
  assert (Hq : batch_slot offset p = p / PAGE_SIZE).
  { unfold batch_slot. rewrite (Z.div_small offset PAGE_SIZE) by lia. lia. }
  rewrite Hq in Hslot, Hb.
  split; [rewrite Hlen, Hdata; lia|]. rewrite Hb.
  destruct (Z.eqb_spec (decrypt_pages_rc e) 0) as [H0|H0].
  - rewrite (Hdecr H0 _ Hslot).
    rewrite lower_page_lookup by (apply Z.mod_pos_bound; lia).
    do 3 f_equal. pose proof (Z.div_mod p PAGE_SIZE ltac:(lia)). rewrite HP in *. lia.
  - rewrite (Hfail H0). reflexivity.
Qed.

Lemma read2_count_clamped_against_file_size_witness :
  match ecryptfs_read2 quiet_env hello_encrypted (replicate 5 xff) 2 5 with
  | OutOfFuel => False
  | Crash _ =>
      batch_pages hello_encrypted 5
      <= batch_slot 2 (2 + clamped_size hello_encrypted 5 - 1)
  | Ok (n, buf) st' =>
      n = Z.min 5 (i_size hello_encrypted) /\
      (0 < 2 -> 2 + Z.min 5 (i_size hello_encrypted) > i_size hello_encrypted ->
       n > i_size hello_encrypted - 2 /\
       (2 < PAGE_SIZE ->
        forall p, i_size hello_encrypted <= p < 2 + n ->
          (Z.to_nat (p - 2) < length buf)%nat /\
          buf !! Z.to_nat (p - 2)
          = if decrypt_pages_rc quiet_env =? 0
            then Some (default x00 (lower_data hello_encrypted !! p))
            else pg_data (get_page hello_encrypted (p / PAGE_SIZE))
                   !! Z.to_nat (p mod PAGE_SIZE)))
  end.
Proof.
  apply (read2_count_clamped_against_file_size quiet_env hello_encrypted
           (replicate 5 xff) 2 5).
  - vm_compute. reflexivity.
  - reflexivity.
  - intros k idx. reflexivity.
  - exact hello_encrypted_wf.
  - cbn [i_size hello_encrypted]. lia.
  - cbn [i_size hello_encrypted]. lia.
  - lia.
  - vm_compute. reflexivity.
  - reflexivity.
Defined.

(** ** The batched write and the fatal signal *)

Lemma ecryptfs_write2_loop_signal_blind f e data offset size :
  forall fuel k v st,
    ecryptfs_write2_loop fuel (with_signal f e) data offset size k v st
    = ecryptfs_write2_loop fuel e data offset size k v st.
Proof.
  induction fuel as [|fuel IH]; intros k v st; cbn [ecryptfs_write2_loop].
  - reflexivity.
  - destruct (u64 (b_pos v) <? u64 (offset + size)); [|reflexivity].
    change (ecryptfs_write2_body (with_signal f e) data offset size k v st)
      with (ecryptfs_write2_body e data offset size k v st).
    destruct (ecryptfs_write2_body e data offset size k v st) as [[c v'] st'| |];
      try reflexivity.
    destruct c; try reflexivity. apply IH.
Qed.

(** The batched write never consults [fatal_signal_pending]: its result
    is the same whatever the signal oracle says. *)
Lemma ecryptfs_write2_signal_blind f e st data offset size :
  ecryptfs_write2 (with_signal f e) st data offset size
  = ecryptfs_write2 e st data offset size.
Proof.
  unfold ecryptfs_write2.
  change (kmalloc_pages (with_signal f e)) with (kmalloc_pages e).
  destruct (is_null _); [reflexivity|].
  rewrite ecryptfs_write2_loop_signal_blind. reflexivity.
Qed.

(** The sequential write looks at the signal first in every iteration: a
    pending signal ends the walk with [-EINTR] and leaves the state of
    the earlier iterations as it is. *)
Lemma ecryptfs_write_body_signal e data offset size k v st :
  fatal_signal_pending e k = true ->
  ecryptfs_write_body e data offset size k v st
  = Ok (Break, WVars (v_pos v) (v_data_offset v) (- EINTR)) st.
Proof. intros H. unfold ecryptfs_write_body. rewrite H. reflexivity. Qed.

(** * Further properties of the functions of read_write.c *)

(** ** The offset translator and the step length *)

(** A position splits into its page index and its offset in the page, and
    the lower offset that the page-segment functions compute from the two
    (lines 78-79 and 401) is the position again. *)
Theorem position_page_offset_roundtrip pos :
  0 <= pos < 2 ^ 63 ->
  0 <= offset_in_page pos < PAGE_SIZE /\
  0 <= page_index pos /\
  pos = page_index pos * PAGE_SIZE + offset_in_page pos /\
  s64 (Z.shiftl (page_index pos) PAGE_SHIFT + offset_in_page pos) = pos.
Proof.
  intros Hpos.
  pose proof (offset_in_page_range pos) as Hr.
  rewrite page_index_div by exact Hpos.
  rewrite page_base, offset_in_page_mod in *.
  pose proof PAGE_SIZE_eq as HP. rewrite HP in *.
  assert (Hsplit : pos = pos / 4096 * 4096 + pos mod 4096)
    by (Z.div_mod_to_equations; lia).
  split; [exact Hr|]. split; [apply Z.div_pos; lia|]. split; [exact Hsplit|].
  rewrite <- Hsplit. apply s64_small. lia.
Qed.

Lemma position_page_offset_roundtrip_witness :
  0 <= offset_in_page 4101 < PAGE_SIZE /\
  0 <= page_index 4101 /\
  4101 = page_index 4101 * PAGE_SIZE + offset_in_page 4101 /\
  s64 (Z.shiftl (page_index 4101) PAGE_SHIFT + offset_in_page 4101) = 4101.
Proof. apply (position_page_offset_roundtrip 4101). lia. Defined.

(** A step of a write walk is at least one byte, stays inside the page of
    its position and inside the request, does not go past [offset] while
    it fills the hole before it, and ends at a page boundary, at [offset]
    or at the end of the request. *)
Theorem write_step_stays_in_page offset size pos :
  0 <= pos -> 0 <= size -> pos < offset + size -> offset + size < 2 ^ 63 ->
  let n := write_num_bytes offset size pos in
  1 <= n <= PAGE_SIZE /\
  page_index (pos + n - 1) = page_index pos /\
  pos + n <= offset + size /\
  (pos < offset -> pos + n <= offset) /\
  (offset_in_page (pos + n) = 0 \/ pos + n = offset \/ pos + n = offset + size).
Proof.
  intros Hpos Hsize Hend Hmax n.
  destruct (write_num_bytes_spec offset size pos Hpos Hsize Hend Hmax)
    as (Hn1 & Hnfit & Hnend & Hnhole & Hneq).
  fold n in Hn1, Hnfit, Hnend, Hnhole, Hneq.
  pose proof (Z.mod_pos_bound pos PAGE_SIZE ltac:(rewrite PAGE_SIZE_eq; lia)) as Hm.
  rewrite !page_index_div by lia. rewrite offset_in_page_mod.
  pose proof PAGE_SIZE_eq as HP. rewrite HP in *.
  split; [lia|]. split.
  { Z.div_mod_to_equations. lia. }
  split; [exact Hnend|]. split; [exact Hnhole|].
  destruct (Z.ltb_spec pos offset) as [Hh|Hd].
  - destruct (Z.eq_dec n (4096 - pos mod 4096)) as [Hfull|Hpart].
    + left. Z.div_mod_to_equations. lia.
    + right. lia.
  - destruct (Z.eq_dec n (4096 - pos mod 4096)) as [Hfull|Hpart].
    + left. Z.div_mod_to_equations. lia.
    + right. right. lia.
Qed.

Lemma write_step_stays_in_page_witness :
  let n := write_num_bytes 10 5 5 in
  1 <= n <= PAGE_SIZE /\
  page_index (5 + n - 1) = page_index 5 /\
  5 + n <= 10 + 5 /\
  (5 < 10 -> 5 + n <= 10) /\
  (offset_in_page (5 + n) = 0 \/ 5 + n = 10 \/ 5 + n = 10 + 5).
Proof. apply (write_step_stays_in_page 10 5 5); lia. Defined.

(** ** Writing to the lower file *)

Lemma ecryptfs_write_lower_spec e st data offset size :
  lower_file st = true -> 0 <= kernel_write_rc e offset ->
  0 <= size < 2 ^ 31 -> size <= Z.of_nat (length data) ->
  exists st',
    ecryptfs_write_lower e st data offset size = Ok size st' /\
    i_dirty st' = true /\
    (forall i, 0 <= i < size -> lower_byte st' (offset + i) = data !! Z.to_nat i) /\
    (forall p, p < offset \/ offset + size <= p -> lower_byte st' p = lower_byte st p) /\
    i_mapping st' = i_mapping st /\ i_size st' = i_size st /\
    lower_file st' = true.
Proof.
  intros Hlf Hrc Hsize Hlen.
  unfold ecryptfs_write_lower, kernel_write. rewrite Hlf. cbn [negb].
  destruct (Z.ltb_spec (Z.of_nat (length data)) size) as [Hc|_]; [lia|].
  destruct (Z.ltb_spec (kernel_write_rc e offset) 0) as [Hc|_]; [lia|].
  cbn [bind]. rewrite s32_small by lia.
  eexists. split; [reflexivity|].
  unfold lower_byte.
  cbn [i_dirty set_dirty lower_data set_lower_data i_mapping i_size lower_file].
  assert (Htl : Z.of_nat (length (take (Z.to_nat size) data)) = size)
    by (rewrite length_take; lia).
  repeat split; try exact Hlf.
  - intros i Hi. rewrite store_bytes_lookup_in by lia.
    replace (offset + i - offset) with i by lia.
    apply lookup_take_lt. lia.
  - intros p Hp. apply store_bytes_lookup_out. lia.
Qed.

(** With the lower file open and the kernel write going through,
    [ecryptfs_write_lower] returns [size], marks the inode dirty and
    stores the first [size] bytes of [data] at [offset] of the lower
    file; every other byte of the lower file, the page cache and the
    file size stay as they were. *)
Theorem write_lower_stores_bytes e st data offset size :
  lower_file st = true -> 0 <= kernel_write_rc e offset ->
  0 <= size < 2 ^ 31 -> size <= Z.of_nat (length data) ->
  exists st',
    ecryptfs_write_lower e st data offset size = Ok size st' /\
    i_dirty st' = true /\
    (forall i, 0 <= i < size -> lower_byte st' (offset + i) = data !! Z.to_nat i) /\
    (forall p, p < offset \/ offset + size <= p -> lower_byte st' p = lower_byte st p) /\
    i_mapping st' = i_mapping st /\ i_size st' = i_size st.
Proof.
  intros Hlf Hrc Hsize Hlen.
  destruct (ecryptfs_write_lower_spec e st data offset size Hlf Hrc Hsize Hlen)
    as (st' & H1 & H2 & H3 & H4 & H5 & H6 & _).
  exists st'. auto 10.
Qed.

Lemma write_lower_stores_bytes_witness :
  exists st',
    ecryptfs_write_lower quiet_env hello_plain hello 5 3 = Ok 3 st' /\
    i_dirty st' = true /\
    (forall i, 0 <= i < 3 -> lower_byte st' (5 + i) = hello !! Z.to_nat i) /\
    (forall p, p < 5 \/ 5 + 3 <= p -> lower_byte st' p = lower_byte hello_plain p) /\
    i_mapping st' = i_mapping hello_plain /\ i_size st' = i_size hello_plain.
Proof.
  apply (write_lower_stores_bytes quiet_env hello_plain hello 5 3).
  - reflexivity.
  - cbn [kernel_write_rc quiet_env]. lia.
  - lia.
  - cbn [length hello]. lia.
Defined.

(** [ecryptfs_write_lower_page_segment] never returns a positive value
    and never changes the page cache or the file size.  When it returns
    an error the lower file is as before; without a lower file the error
    is [-EIO] and the inode is not even marked dirty.  It does not return
    only when asked for more bytes than the mapped page holds. *)
Theorem write_lower_page_segment_failure_leaves_lower e st idx off size :
  0 <= size < 2 ^ 31 ->
  match ecryptfs_write_lower_page_segment e st idx off size with
  | Ok rc st' =>
      rc <= 0 /\ i_mapping st' = i_mapping st /\ i_size st' = i_size st /\
      (rc < 0 -> lower_data st' = lower_data st) /\
      (lower_file st = false -> rc = - EIO /\ st' = st)
  | Crash f => f = OutOfBounds /\ Z.of_nat (length (pg_data (get_page st idx))) < size
  | OutOfFuel => False
  end.
Proof.
  intros Hsize.
  unfold ecryptfs_write_lower_page_segment, ecryptfs_write_lower, kernel_write.
  destruct (lower_file st) eqn:Hlf; cbn [negb bind].
  2: { destruct (Z.gtb_spec (- EIO) 0) as [Hc|_]; [unfold EIO in Hc; lia|].
       unfold EIO. repeat split; auto; lia. }
  destruct (Z.ltb_spec (Z.of_nat (length (pg_data (get_page st idx)))) size) as [Hc|Hfit];
    cbn [bind]; [auto|].
  destruct (Z.ltb_spec (kernel_write_rc e (s64 (Z.shiftl idx PAGE_SHIFT + off))) 0)
    as [Hneg|Hpos]; cbn [bind].
  - cbn [i_mapping i_size lower_data set_dirty].
    repeat split; try reflexivity; try discriminate.
    destruct (Z.gtb_spec (s32 (kernel_write_rc e (s64 (Z.shiftl idx PAGE_SHIFT + off)))) 0);
      lia.
  - cbn [i_mapping i_size lower_data set_dirty set_lower_data].
    rewrite s32_small by lia.
    destruct (Z.gtb_spec size 0); repeat split; try reflexivity; try discriminate; lia.
Qed.

Lemma write_lower_page_segment_failure_leaves_lower_witness :
  match ecryptfs_write_lower_page_segment quiet_env hello_plain 0 1 1 with
  | Ok rc st' =>
      rc <= 0 /\ i_mapping st' = i_mapping hello_plain /\
      i_size st' = i_size hello_plain /\
      (rc < 0 -> lower_data st' = lower_data hello_plain) /\
      (lower_file hello_plain = false -> rc = - EIO /\ st' = hello_plain)
  | Crash f =>
      f = OutOfBounds /\ Z.of_nat (length (pg_data (get_page hello_plain 0))) < 1
  | OutOfFuel => False
  end.
Proof.
  apply (write_lower_page_segment_failure_leaves_lower quiet_env hello_plain 0 1 1). lia.
Defined.

Lemma ecryptfs_write_lower_page_segment_spec e st idx off size :
  lower_file st = true ->
  0 <= idx -> 0 <= off -> idx * PAGE_SIZE + off < 2 ^ 63 ->
  0 <= kernel_write_rc e (idx * PAGE_SIZE + off) ->
  0 <= size <= PAGE_SIZE -> wf_cache st ->
  exists st',
    ecryptfs_write_lower_page_segment e st idx off size = Ok 0 st' /\
    (forall i, 0 <= i < size ->
       lower_byte st' (idx * PAGE_SIZE + off + i)
       = pg_data (get_page st idx) !! Z.to_nat i) /\
    (forall p, p < idx * PAGE_SIZE + off \/ idx * PAGE_SIZE + off + size <= p ->
       lower_byte st' p = lower_byte st p) /\
    i_mapping st' = i_mapping st /\ lower_file st' = true.
Proof.
  intros Hlf Hidx Hoff Hmax Hrc Hsize Hwf.
  pose proof PAGE_SIZE_eq as HP.
  pose proof (get_page_length st idx Hwf) as Hlen.
  unfold ecryptfs_write_lower_page_segment.
  rewrite page_base, s64_small by lia.
  destruct (ecryptfs_write_lower_spec e st (pg_data (get_page st idx))
              (idx * PAGE_SIZE + off) size Hlf Hrc ltac:(lia) ltac:(lia))
    as (st' & Hrun & _ & Hin & Hout & Hmap & _ & Hlf').
  rewrite Hrun. cbn [bind].
  exists st'. split.
  - destruct (Z.gtb_spec size 0); [reflexivity|]. f_equal. lia.
  - auto.
Qed.

(** With the lower file open and the kernel write going through,
    [ecryptfs_write_lower_page_segment] returns 0 and the lower file
    holds, from offset [idx * PAGE_SIZE + off] on, the FIRST [size] bytes
    of the page (the bytes from the page start, not those from [off]);
    the rest of the lower file is as before. *)
Theorem write_lower_page_segment_persists_page_start e st idx off size :
  lower_file st = true ->
  0 <= idx -> 0 <= off -> idx * PAGE_SIZE + off < 2 ^ 63 ->
  0 <= kernel_write_rc e (idx * PAGE_SIZE + off) ->
  0 <= size <= PAGE_SIZE -> wf_cache st ->
  exists st',
    ecryptfs_write_lower_page_segment e st idx off size = Ok 0 st' /\
    (forall i, 0 <= i < size ->
       lower_byte st' (idx * PAGE_SIZE + off + i)
       = pg_data (get_page st idx) !! Z.to_nat i) /\
    (forall p, p < idx * PAGE_SIZE + off \/ idx * PAGE_SIZE + off + size <= p ->
       lower_byte st' p = lower_byte st p).
Proof.
  intros Hlf Hidx Hoff Hmax Hrc Hsize Hwf.
  destruct (ecryptfs_write_lower_page_segment_spec e st idx off size
              Hlf Hidx Hoff Hmax Hrc Hsize Hwf) as (st' & H1 & H2 & H3 & _).
  exists st'. auto.
Qed.

Lemma write_lower_page_segment_persists_page_start_witness :
  exists st',
    ecryptfs_write_lower_page_segment quiet_env hello_plain 0 1 2 = Ok 0 st' /\
    (forall i, 0 <= i < 2 ->
       lower_byte st' (0 * PAGE_SIZE + 1 + i)
       = pg_data (get_page hello_plain 0) !! Z.to_nat i) /\
    (forall p, p < 0 * PAGE_SIZE + 1 \/ 0 * PAGE_SIZE + 1 + 2 <= p ->
       lower_byte st' p = lower_byte hello_plain p).
Proof.
  apply (write_lower_page_segment_persists_page_start quiet_env hello_plain 0 1 2).
  - reflexivity.
  - lia.
  - lia.
  - rewrite PAGE_SIZE_eq. lia.
  - cbn [kernel_write_rc quiet_env]. lia.
  - rewrite PAGE_SIZE_eq. lia.
  - unfold wf_cache, hello_plain. cbn [i_mapping].
    apply map_Forall_singleton. reflexivity.
Defined.

(** ** Reading from the lower file *)

Lemma lower_end_spec st :
  0 <= lower_end st /\
  forall p b, lower_data st !! p = Some b -> p < lower_end st.
Proof.
  unfold lower_end.
  apply (map_fold_weak_ind
           (fun r (m : gmap Z byte) => 0 <= r /\ forall p b, m !! p = Some b -> p < r)).
  - split; [lia|]. intros p b Hp. rewrite lookup_empty in Hp. discriminate.
  - intros i x m r _ (Hr & Hall). split; [lia|].
    intros p b Hp. destruct (Z.eq_dec p i) as [->|Hne].
    + lia.
    + rewrite lookup_insert_ne in Hp by congruence. specialize (Hall p b Hp). lia.
Qed.

Lemma MAX_RW_COUNT_eq : MAX_RW_COUNT = 2 ^ 31 - 4096.
Proof. reflexivity. Qed.

(** What a read of the lower file that goes through leaves in the
    destination: as many bytes as the file has from [offset], at most
    [size], at the start of the destination; the rest is as before. *)
Lemma ecryptfs_read_lower_spec b st dst offset size :
  lower_file st = true -> 0 <= offset -> 0 <= kernel_read_rc b offset ->
  0 <= size <= MAX_RW_COUNT -> size <= Z.of_nat (length dst) ->
  let n := Z.min size (Z.max 0 (lower_end st - offset)) in
  exists buf,
    ecryptfs_read_lower b st dst offset size = Ok (n, buf) st /\
    length buf = length dst /\
    (forall i, 0 <= i < n ->
       buf !! Z.to_nat i = Some (default x00 (lower_data st !! (offset + i)))) /\
    (forall i, n <= i -> buf !! Z.to_nat i = dst !! Z.to_nat i).
Proof.
  intros Hlf Hoff Hrc Hsize Hlen n.
  unfold ecryptfs_read_lower, kernel_read. rewrite Hlf. cbn [negb].
  destruct (Z.ltb_spec offset 0) as [Hc|_]; [lia|].
  destruct (Z.ltb_spec (kernel_read_rc b offset) 0) as [Hc|_]; [lia|].
  replace (Z.min (Z.min size MAX_RW_COUNT) (Z.max 0 (lower_end st - offset)))
    with n by (unfold n; lia).
  assert (Hn : 0 <= n <= size) by (unfold n; lia).
  destruct (Z.ltb_spec (Z.of_nat (length dst)) n) as [Hc|_]; [lia|].
  eexists. split; [reflexivity|].
  assert (Hll : length (load_bytes (lower_data st) offset (Z.to_nat n)) = Z.to_nat n).
  { unfold load_bytes. rewrite length_map, length_seq. reflexivity. }
  split; [apply length_inserts|]. split.
  - intros i Hi. rewrite list_lookup_inserts by lia.
    rewrite Nat.sub_0_r, load_bytes_lookup by lia.
    rewrite Z2Nat.id by lia. reflexivity.
  - intros i Hi. apply list_lookup_inserts_ge. lia.
Qed.

(** Round trip through the lower file: the bytes [ecryptfs_write_lower]
    stored at an offset are the bytes [ecryptfs_read_lower] gives back
    from that offset, with the full count; the destination beyond them is
    left alone and the inode is not changed by the read. *)
Theorem read_lower_returns_written_bytes e b st data dst offset size :
  lower_file st = true -> 0 <= offset ->
  0 <= kernel_write_rc e offset -> 0 <= kernel_read_rc b offset ->
  0 <= size <= MAX_RW_COUNT ->
  size <= Z.of_nat (length data) -> size <= Z.of_nat (length dst) ->
  exists st1 buf,
    ecryptfs_write_lower e st data offset size = Ok size st1 /\
    ecryptfs_read_lower b st1 dst offset size = Ok (size, buf) st1 /\
    length buf = length dst /\
    (forall i, 0 <= i < size -> buf !! Z.to_nat i = data !! Z.to_nat i) /\
    (forall i, size <= i -> buf !! Z.to_nat i = dst !! Z.to_nat i).
Proof.
  intros Hlf Hoff Hwrc Hrrc Hsize Hdata Hdst.
  pose proof MAX_RW_COUNT_eq as HM.
  destruct (ecryptfs_write_lower_spec e st data offset size Hlf Hwrc ltac:(lia) Hdata)
    as (st1 & Hw & _ & Hin & _ & _ & _ & _).
  assert (Hlf1 : lower_file st1 = true).
  { revert Hw. unfold ecryptfs_write_lower, kernel_write. rewrite Hlf. cbn [negb].
    destruct (_ <? size); cbn [bind]; [discriminate|].
    destruct (_ <? 0); cbn [bind]; intros [= _ <-]; exact Hlf. }
  assert (Hend : offset + size <= lower_end st1 \/ size = 0).
  { destruct (Z.eq_dec size 0) as [?|Hne]; [right; assumption|left].
    destruct (lookup_lt_is_Some_2 data (Z.to_nat (size - 1)) ltac:(lia)) as (x & Hx).
    pose proof (Hin (size - 1) ltac:(lia)) as Hb. rewrite Hx in Hb.
    destruct (lower_end_spec st1) as (_ & Hall).
    specialize (Hall _ _ Hb). lia. }
  destruct (ecryptfs_read_lower_spec b st1 dst offset size Hlf1 Hoff Hrrc Hsize Hdst)
    as (buf & Hr & Hbl & Hbin & Hbout).
  destruct (lower_end_spec st1) as (Hnn & _).
  replace (Z.min size (Z.max 0 (lower_end st1 - offset))) with size in * by lia.
  exists st1, buf. split; [exact Hw|]. split; [exact Hr|]. split; [exact Hbl|].
  split; [|exact Hbout].
  intros i Hi. rewrite (Hbin i Hi).
  pose proof (Hin i Hi) as Hb. unfold lower_byte in Hb. rewrite Hb.
  destruct (lookup_lt_is_Some_2 data (Z.to_nat i) ltac:(lia)) as (x & Hx).
  rewrite Hx. reflexivity.
Qed.

Lemma read_lower_returns_written_bytes_witness :
  exists st1 buf,
    ecryptfs_write_lower quiet_env (empty_file 0) hello 7 5 = Ok 5 st1 /\
    ecryptfs_read_lower quiet_backend st1 (replicate 8 x2e) 7 5 = Ok (5, buf) st1 /\
    length buf = length (replicate 8 x2e) /\
    (forall i, 0 <= i < 5 -> buf !! Z.to_nat i = hello !! Z.to_nat i) /\
    (forall i, 5 <= i -> buf !! Z.to_nat i = replicate 8 x2e !! Z.to_nat i).
Proof.
  apply (read_lower_returns_written_bytes quiet_env quiet_backend (empty_file 0)
           hello (replicate 8 x2e) 7 5).
  - reflexivity.
  - lia.
  - cbn [kernel_write_rc quiet_env]. lia.
  - cbn [kernel_read_rc quiet_backend]. lia.
  - rewrite MAX_RW_COUNT_eq. lia.
  - cbn [length hello]. lia.
  - rewrite length_replicate. lia.
Defined.

Lemma set_page_data_get st pg d j :
  get_page (set_page_data st pg d) j
  = if decide (j = pg)
    then Page d (pg_uptodate (get_page st pg)) (pg_locked (get_page st pg))
              (pg_count (get_page st pg))
    else get_page st j.
Proof.
  unfold set_page_data, set_page, set_mapping, get_page. cbn [i_mapping].
  destruct (decide (j = pg)) as [->|Hne].
  - rewrite lookup_insert_eq. reflexivity.
  - rewrite lookup_insert_ne by congruence. reflexivity.
Qed.

Lemma ecryptfs_read_lower_page_segment_spec b st pg idx off size :
  lower_file st = true ->
  0 <= idx -> 0 <= off -> idx * PAGE_SIZE + off < 2 ^ 63 ->
  0 <= kernel_read_rc b (idx * PAGE_SIZE + off) ->
  0 <= size <= PAGE_SIZE -> wf_cache st ->
  let n := Z.min size (Z.max 0 (lower_end st - (idx * PAGE_SIZE + off))) in
  exists st',
    ecryptfs_read_lower_page_segment b st pg idx off size = Ok 0 st' /\
    (forall i, 0 <= i < n ->
       pg_data (get_page st' pg) !! Z.to_nat i
       = Some (default x00 (lower_data st !! (idx * PAGE_SIZE + off + i)))) /\
    (forall i, n <= i ->
       pg_data (get_page st' pg) !! Z.to_nat i = pg_data (get_page st pg) !! Z.to_nat i) /\
    (forall j, j <> pg -> i_mapping st' !! j = i_mapping st !! j) /\
    lower_data st' = lower_data st /\ i_size st' = i_size st /\ wf_cache st'.
Proof.
  intros Hlf Hidx Hoff Hmax Hrc Hsize Hwf n.
  pose proof PAGE_SIZE_eq as HP. pose proof MAX_RW_COUNT_eq as HM.
  pose proof (get_page_length st pg Hwf) as Hlen.
  unfold ecryptfs_read_lower_page_segment.
  rewrite page_base, s64_small by lia.
  destruct (ecryptfs_read_lower_spec b st (pg_data (get_page st pg))
              (idx * PAGE_SIZE + off) size Hlf ltac:(lia) Hrc ltac:(lia) ltac:(lia))
    as (buf & Hr & Hbl & Hbin & Hbout).
  fold n in Hr, Hbin, Hbout.
  rewrite Hr. cbn [bind].
  eexists. split.
  { destruct (Z.gtb_spec n 0); [reflexivity|]. f_equal. unfold n in *. lia. }
  rewrite set_page_data_get, decide_True by reflexivity. cbn [pg_data].
  split; [exact Hbin|]. split; [exact Hbout|]. split.
  { intros j Hj. unfold set_page_data, set_page, set_mapping. cbn [i_mapping].
    apply lookup_insert_ne. congruence. }
  split; [reflexivity|]. split; [reflexivity|].
  unfold wf_cache, set_page_data, set_page, set_mapping. cbn [i_mapping].
  apply map_Forall_insert_2; [|exact Hwf]. cbn [pg_data]. congruence.
Qed.

(** [ecryptfs_read_lower_page_segment] with the lower file open and the
    read going through returns 0 whether or not the lower file had
    [size] bytes at that place: the bytes it had, [n] of them, are at the
    START of the page (not at [off]), the rest of the page, the other
    pages, the lower file and the size are as before.  A read at or past
    the end of the lower file is a success that changes nothing. *)
Theorem read_lower_page_segment_short_read_succeeds b st pg idx off size :
  lower_file st = true ->
  0 <= idx -> 0 <= off -> idx * PAGE_SIZE + off < 2 ^ 63 ->
  0 <= kernel_read_rc b (idx * PAGE_SIZE + off) ->
  0 <= size <= PAGE_SIZE -> wf_cache st ->
  let n := Z.min size (Z.max 0 (lower_end st - (idx * PAGE_SIZE + off))) in
  exists st',
    ecryptfs_read_lower_page_segment b st pg idx off size = Ok 0 st' /\
    (forall i, 0 <= i < n ->
       pg_data (get_page st' pg) !! Z.to_nat i
       = Some (default x00 (lower_data st !! (idx * PAGE_SIZE + off + i)))) /\
    (forall i, n <= i ->
       pg_data (get_page st' pg) !! Z.to_nat i = pg_data (get_page st pg) !! Z.to_nat i) /\
    (forall j, j <> pg -> i_mapping st' !! j = i_mapping st !! j) /\
    lower_data st' = lower_data st /\ i_size st' = i_size st /\ wf_cache st'.
Proof. exact (ecryptfs_read_lower_page_segment_spec b st pg idx off size). Qed.

Lemma hello_plain_wf : wf_cache hello_plain.
Proof.
  unfold wf_cache, hello_plain. cbn [i_mapping].
  apply map_Forall_singleton. reflexivity.
Qed.

Lemma read_lower_page_segment_short_read_succeeds_witness :
  let n := Z.min 10 (Z.max 0 (lower_end hello_plain - (0 * PAGE_SIZE + 3))) in
  n = 2 /\
  exists st',
    ecryptfs_read_lower_page_segment quiet_backend hello_plain 1 0 3 10 = Ok 0 st' /\
    (forall i, 0 <= i < n ->
       pg_data (get_page st' 1) !! Z.to_nat i
       = Some (default x00 (lower_data hello_plain !! (0 * PAGE_SIZE + 3 + i)))) /\
    (forall i, n <= i ->
       pg_data (get_page st' 1) !! Z.to_nat i
       = pg_data (get_page hello_plain 1) !! Z.to_nat i) /\
    (forall j, j <> 1 -> i_mapping st' !! j = i_mapping hello_plain !! j) /\
    lower_data st' = lower_data hello_plain /\ i_size st' = i_size hello_plain /\
    wf_cache st'.
Proof.
  split; [reflexivity|].
  apply (read_lower_page_segment_short_read_succeeds quiet_backend hello_plain 1 0 3 10).
  - reflexivity.
  - lia.
  - lia.
  - rewrite PAGE_SIZE_eq. lia.
  - cbn [kernel_read_rc quiet_backend]. lia.
  - rewrite PAGE_SIZE_eq. lia.
  - exact hello_plain_wf.
Defined.

(** [ecryptfs_read_lower_page_segment] never returns a positive value and
    never changes the lower file, the size or another page.  When it
    returns an error the bytes of the page are as before; without a
    lower file the error is [-EIO], at a negative lower offset [-EINVAL].
    It does not return only when the lower file has more bytes for the
    request than the mapped page holds. *)
Theorem read_lower_page_segment_failure_leaves_page b st pg idx off size :
  0 <= size ->
  match ecryptfs_read_lower_page_segment b st pg idx off size with
  | Ok rc st' =>
      rc <= 0 /\ lower_data st' = lower_data st /\ i_size st' = i_size st /\
      (forall j, j <> pg -> i_mapping st' !! j = i_mapping st !! j) /\
      (rc < 0 -> pg_data (get_page st' pg) = pg_data (get_page st pg)) /\
      (lower_file st = false -> rc = - EIO) /\
      (lower_file st = true -> s64 (Z.shiftl idx PAGE_SHIFT + off) < 0 -> rc = - EINVAL)
  | Crash f => f = OutOfBounds /\ Z.of_nat (length (pg_data (get_page st pg))) < size
  | OutOfFuel => False
  end.
Proof.
  intros Hsize.
  unfold ecryptfs_read_lower_page_segment, ecryptfs_read_lower, kernel_read.
  set (offset := s64 (Z.shiftl idx PAGE_SHIFT + off)).
  assert (Hother : forall d j, j <> pg ->
            i_mapping (set_page_data st pg d) !! j = i_mapping st !! j).
  { intros d j Hj. unfold set_page_data, set_page, set_mapping. cbn [i_mapping].
    apply lookup_insert_ne. congruence. }
  assert (Hsame : forall d, pg_data (get_page (set_page_data st pg d) pg) = d).
  { intros d. rewrite set_page_data_get, decide_True by reflexivity. reflexivity. }
  destruct (lower_file st) eqn:Hlf; cbn [negb bind].
  2: { destruct (Z.gtb_spec (- EIO) 0) as [Hc|_]; [unfold EIO in Hc; lia|].
       unfold EIO. repeat split; auto; try lia; try discriminate. }
  destruct (Z.ltb_spec offset 0) as [Hneg|Hpos]; cbn [bind].
  { destruct (Z.gtb_spec (- EINVAL) 0) as [Hc|_]; [unfold EINVAL in Hc; lia|].
    unfold EINVAL. repeat split; auto; try lia; try discriminate. }
  destruct (Z.ltb_spec (kernel_read_rc b offset) 0) as [Herr|Hok]; cbn [bind].
  { destruct (Z.gtb_spec (kernel_read_rc b offset) 0) as [Hc|_]; [lia|].
    repeat split; auto; try lia; try discriminate. }
  set (n := Z.min (Z.min size MAX_RW_COUNT) (Z.max 0 (lower_end st - offset))).
  destruct (Z.ltb_spec (Z.of_nat (length (pg_data (get_page st pg)))) n) as [Hc|Hfit];
    cbn [bind].
  { split; [reflexivity|]. unfold n in Hc. lia. }
  assert (0 <= n) by (unfold n; rewrite MAX_RW_COUNT_eq; lia).
  destruct (Z.gtb_spec n 0) as [Hgt|Hle].
  - repeat split; auto; try lia; try discriminate.
  - repeat split; auto; try lia; try discriminate.
Qed.

Lemma read_lower_page_segment_failure_leaves_page_witness :
  match ecryptfs_read_lower_page_segment (Backend (fun _ => - EIO)) hello_plain 0 0 0 5 with
  | Ok rc st' =>
      rc <= 0 /\ lower_data st' = lower_data hello_plain /\
      i_size st' = i_size hello_plain /\
      (forall j, j <> 0 -> i_mapping st' !! j = i_mapping hello_plain !! j) /\
      (rc < 0 -> pg_data (get_page st' 0) = pg_data (get_page hello_plain 0)) /\
      (lower_file hello_plain = false -> rc = - EIO) /\
      (lower_file hello_plain = true -> s64 (Z.shiftl 0 PAGE_SHIFT + 0) < 0 ->
       rc = - EINVAL)
  | Crash f =>
      f = OutOfBounds /\ Z.of_nat (length (pg_data (get_page hello_plain 0))) < 5
  | OutOfFuel => False
  end.
Proof.
  apply (read_lower_page_segment_failure_leaves_page (Backend (fun _ => - EIO))
           hello_plain 0 0 0 5).
  lia.
Defined.

(** Round trip of a page segment through the lower file: after
    [ecryptfs_write_lower_page_segment] of page [src], reading segment
    [(src, off, size)] into any page [dst] with
    [ecryptfs_read_lower_page_segment] gives [dst] the first [size]
    bytes of [src]; both calls return 0. *)
Theorem page_segment_write_then_read e b st src dst off size :
  lower_file st = true ->
  0 <= src -> 0 <= off -> src * PAGE_SIZE + off < 2 ^ 63 ->
  0 <= kernel_write_rc e (src * PAGE_SIZE + off) ->
  0 <= kernel_read_rc b (src * PAGE_SIZE + off) ->
  0 <= size <= PAGE_SIZE -> wf_cache st ->
  exists st1 st2,
    ecryptfs_write_lower_page_segment e st src off size = Ok 0 st1 /\
    ecryptfs_read_lower_page_segment b st1 dst src off size = Ok 0 st2 /\
    forall i, 0 <= i < size ->
      pg_data (get_page st2 dst) !! Z.to_nat i = pg_data (get_page st src) !! Z.to_nat i.
Proof.
  intros Hlf Hsrc Hoff Hmax Hwrc Hrrc Hsize Hwf.
  pose proof PAGE_SIZE_eq as HP.
  pose proof (get_page_length st src Hwf) as Hlen.
  destruct (ecryptfs_write_lower_page_segment_spec e st src off size
              Hlf Hsrc Hoff Hmax Hwrc Hsize Hwf) as (st1 & Hw & Hin & _ & Hmap & Hlf1).
  assert (Hwf1 : wf_cache st1) by (unfold wf_cache; rewrite Hmap; exact Hwf).
  destruct (ecryptfs_read_lower_page_segment_spec b st1 dst src off size
              Hlf1 Hsrc Hoff Hmax Hrrc Hsize Hwf1) as (st2 & Hr & Hbin & _).
  exists st1, st2. split; [exact Hw|]. split; [exact Hr|].
  intros i Hi.
  assert (Hend : src * PAGE_SIZE + off + size <= lower_end st1).
  { destruct (lookup_lt_is_Some_2 (pg_data (get_page st src)) (Z.to_nat (size - 1))
                ltac:(lia)) as (x & Hx).
    pose proof (Hin (size - 1) ltac:(lia)) as Hb. rewrite Hx in Hb.
    destruct (lower_end_spec st1) as (_ & Hall). specialize (Hall _ _ Hb). lia. }
  rewrite Hbin by lia.
  pose proof (Hin i Hi) as Hb. unfold lower_byte in Hb. rewrite Hb.
  destruct (lookup_lt_is_Some_2 (pg_data (get_page st src)) (Z.to_nat i) ltac:(lia))
    as (x & Hx).
  rewrite Hx. reflexivity.
Qed.

Lemma page_segment_write_then_read_witness :
  exists st1 st2,
    ecryptfs_write_lower_page_segment quiet_env hello_plain 0 8 5 = Ok 0 st1 /\
    ecryptfs_read_lower_page_segment quiet_backend st1 3 0 8 5 = Ok 0 st2 /\
    forall i, 0 <= i < 5 ->
      pg_data (get_page st2 3) !! Z.to_nat i
      = pg_data (get_page hello_plain 0) !! Z.to_nat i.
Proof.
  apply (page_segment_write_then_read quiet_env quiet_backend hello_plain 0 3 8 5).
  - reflexivity.
  - lia.
  - lia.
  - rewrite PAGE_SIZE_eq. lia.
  - cbn [kernel_write_rc quiet_env]. lia.
  - cbn [kernel_read_rc quiet_backend]. lia.
  - rewrite PAGE_SIZE_eq. lia.
  - exact hello_plain_wf.
Defined.

(** ** The sequential write *)

(** Functional correctness of [ecryptfs_write] on an encrypted file when
    nothing interrupts or fails: it returns 0, the size is the larger of
    the old size and [offset + size], and every byte of [data] is at its
    position both in the page cache and in the lower file. *)
Theorem write_stores_data e st data offset size :
  cooperative e -> encrypted st = true -> wf_cache st ->
  0 <= i_size st -> 0 <= offset -> 0 <= size -> offset + size < 2 ^ 63 ->
  size <= Z.of_nat (length data) ->
  exists st',
    ecryptfs_write e st data offset size = Ok 0 st' /\
    i_size st' = Z.max (i_size st) (offset + size) /\
    forall i, 0 <= i < size ->
      file_byte st' (offset + i) = data !! Z.to_nat i /\
      lower_byte st' (offset + i) = data !! Z.to_nat i.
Proof.
  intros Hco Henc Hwf Hfs Hoff Hsize Hmax Hdata.
  destruct (ecryptfs_write_spec e st data offset size Hwf Hfs Hoff Hsize Hmax)
    as (Hspec & Hrun).
  destruct (Hrun Hco Henc) as (st' & Hw).
  rewrite Hw in Hspec. destruct (Hspec eq_refl) as (Hsz & Hfl & _ & Hdone).
  exists st'. split; [exact Hw|]. split; [exact Hsz|].
  intros i Hi.
  destruct (lookup_lt_is_Some_2 data (Z.to_nat i) ltac:(lia)) as (x & Hx).
  assert (Hexp : expected_byte data offset (offset + i) = Some x).
  { unfold expected_byte. destruct (Z.ltb_spec (offset + i) offset) as [Hc|_]; [lia|].
    replace (offset + i - offset) with i by lia. exact Hx. }
  assert (Hlo : write_start offset (i_size st) <= offset + i).
  { unfold write_start. case_cmp; lia. }
  destruct (Hdone (offset + i) x ltac:(lia) Hexp) as (Hcache & Hlower).
  rewrite Hx. split.
  - apply byte_at_file_byte; [lia|exact Hcache].
  - apply Hlower. unfold encrypted. rewrite Hfl. exact Henc.
Qed.

Lemma write_stores_data_witness :
  exists st',
    ecryptfs_write quiet_env hello_encrypted hello 4094 5 = Ok 0 st' /\
    i_size st' = Z.max (i_size hello_encrypted) (4094 + 5) /\
    forall i, 0 <= i < 5 ->
      file_byte st' (4094 + i) = hello !! Z.to_nat i /\
      lower_byte st' (4094 + i) = hello !! Z.to_nat i.
Proof.
  apply (write_stores_data quiet_env hello_encrypted hello 4094 5).
  - exact quiet_env_cooperative.
  - reflexivity.
  - exact hello_encrypted_wf.
  - cbn [i_size hello_encrypted]. lia.
  - lia.
  - lia.
  - lia.
  - cbn [length hello]. lia.
Defined.

(** Cancellation before the first step: when a fatal signal is pending
    as the walk starts and there is something to do, [ecryptfs_write]
    returns [-EINTR] and the inode, its pages and the lower file are
    exactly as before. *)
Theorem write_cancelled_before_first_step e st data offset size :
  fatal_signal_pending e O = true ->
  0 <= i_size st -> 0 <= offset -> 0 <= size -> offset + size < 2 ^ 63 ->
  0 < size \/ i_size st < offset ->
  ecryptfs_write e st data offset size = Ok (- EINTR) st.
Proof.
  intros Hsig Hfs Hoff Hsize Hmax Hwork.
  unfold ecryptfs_write.
  set (lo := write_start offset (i_size st)).
  assert (Hlo : 0 <= lo <= i_size st /\ lo < offset + size).
  { unfold lo, write_start. case_cmp; lia. }
  unfold walk_fuel. rewrite u64_small by lia.
  destruct (Z.to_nat (offset + size - lo)) as [|fuel] eqn:Hfuel; [lia|].
  cbn [ecryptfs_write_loop v_pos]. rewrite !u64_small by lia.
  destruct (Z.ltb_spec lo (offset + size)) as [_|Hc]; [|lia].
  unfold ecryptfs_write_body. rewrite Hsig. cbn [bind v_pos v_rc].
  destruct (Z.gtb_spec lo (i_size st)) as [Hc|_]; [lia|]. reflexivity.
Qed.

Lemma write_cancelled_before_first_step_witness :
  ecryptfs_write signal_env hello_encrypted hello 3 5 = Ok (- EINTR) hello_encrypted.
Proof.
  apply (write_cancelled_before_first_step signal_env hello_encrypted hello 3 5).
  - reflexivity.
  - cbn [i_size hello_encrypted]. lia.
  - lia.
  - lia.
  - lia.
  - left. lia.
Defined.

(** A failed first acquisition: when [ecryptfs_get_locked_page] gives an
    error pointer for the first page of the walk, [ecryptfs_write]
    returns that error and the inode, its pages and the lower file are
    exactly as before. *)
Theorem write_reports_failed_acquisition e st data offset size err :
  fatal_signal_pending e O = false ->
  page_acquire e O (page_index (write_start offset (i_size st))) = AcqErr err ->
  - MAX_ERRNO <= err < 0 ->
  0 <= i_size st -> 0 <= offset -> 0 <= size -> offset + size < 2 ^ 63 ->
  0 < size \/ i_size st < offset ->
  ecryptfs_write e st data offset size = Ok err st.
Proof.
  intros Hsig Hacq Herr Hfs Hoff Hsize Hmax Hwork.
  unfold ecryptfs_write.
  set (lo := write_start offset (i_size st)) in *.
  assert (Hlo : 0 <= lo <= i_size st /\ lo < offset + size).
  { unfold lo, write_start. case_cmp; lia. }
  unfold walk_fuel. rewrite u64_small by lia.
  destruct (Z.to_nat (offset + size - lo)) as [|fuel] eqn:Hfuel; [lia|].
  cbn [ecryptfs_write_loop v_pos]. rewrite !u64_small by lia.
  destruct (Z.ltb_spec lo (offset + size)) as [_|Hc]; [|lia].
  unfold ecryptfs_write_body, ecryptfs_get_locked_page.
  cbn [v_pos]. rewrite Hsig, Hacq. cbn [IS_ERR].
  destruct (Z.leb_spec (- MAX_ERRNO) err) as [_|Hc]; [|lia].
  destruct (Z.ltb_spec err 0) as [_|Hc]; [|lia].
  cbn [andb bind PTR_ERR v_rc]. reflexivity.
Qed.

Lemma write_reports_failed_acquisition_witness :
  ecryptfs_write
    (Env (fun _ => false) (fun _ _ => AcqErr (- ENOMEM)) (fun _ => 0) (fun _ => 0)
         0 0 (fun _ => 0) 0 true)
    hello_encrypted hello 3 5
  = Ok (- ENOMEM) hello_encrypted.
Proof.
  apply (write_reports_failed_acquisition _ hello_encrypted hello 3 5 (- ENOMEM)).
  - reflexivity.
  - reflexivity.
  - unfold MAX_ERRNO, ENOMEM. lia.
  - cbn [i_size hello_encrypted]. lia.
  - lia.
  - lia.
  - lia.
  - left. lia.
Defined.

(** The size record, the lower file handle and the accessed mark are
    out of reach of a write step. *)
Lemma write_fill_page_meta st pg data offset pos doff num :
  lower_size (fst (write_fill_page st pg data offset pos doff num)) = lower_size st /\
  lower_file (fst (write_fill_page st pg data offset pos doff num)) = lower_file st.
Proof.
  unfold write_fill_page.
  destruct ((pos <? offset) || (offset_in_page pos =? 0)); destruct (offset <=? pos);
    split; reflexivity.
Qed.

Lemma ecryptfs_write_body_meta e data offset size k v st :
  match ecryptfs_write_body e data offset size k v st with
  | Ok _ st' => lower_size st' = lower_size st /\ lower_file st' = lower_file st
  | _ => True
  end.
Proof.
  unfold ecryptfs_write_body, ecryptfs_get_locked_page.
  destruct (fatal_signal_pending e k); [auto|].
  destruct (page_acquire e k (page_index (v_pos v))) as [| |err]; cbn [IS_ERR kmap].
  2: { exact I. }
  2: { destruct (_ && _); cbn [kmap]; auto. }
  set (st1 := set_page st _ _).
  pose proof (write_fill_page_meta st1 (page_index (v_pos v)) data offset (v_pos v)
                (v_data_offset v) (write_num_bytes offset size (v_pos v))) as Hm.
  destruct (write_fill_page st1 _ data offset (v_pos v) _ _) as [st2 doff2].
  cbn [fst] in Hm.
  change (lower_size st1) with (lower_size st) in Hm.
  change (lower_file st1) with (lower_file st) in Hm.
  destruct Hm as (Hm1 & Hm2). rewrite <- Hm1, <- Hm2. clear Hm1 Hm2.
  destruct (flag_set (crypt_flags st2) ECRYPTFS_ENCRYPTED).
  - unfold ecryptfs_encrypt_page.
    destruct (encrypt_page_rc e (page_index (v_pos v)) =? 0); cbn [bind];
      destruct (negb _); split; reflexivity.
  - unfold ecryptfs_write_lower_page_segment, ecryptfs_write_lower, kernel_write.
    destruct (lower_file st2) eqn:Hlf; cbn [negb bind].
    + destruct (_ <? u64 doff2); cbn [bind]; [exact I|].
      destruct (_ <? 0); cbn [bind]; destruct (negb _);
        split; first [reflexivity | exact Hlf].
    + destruct (negb _); split; first [reflexivity | exact Hlf].
Qed.

Lemma ecryptfs_write_loop_meta e data offset size :
  forall fuel k v st,
    match ecryptfs_write_loop fuel e data offset size k v st with
    | Ok _ st' => lower_size st' = lower_size st /\ lower_file st' = lower_file st
    | _ => True
    end.
Proof.
  induction fuel as [|fuel IH]; intros k v st; cbn [ecryptfs_write_loop];
    destruct (_ <? _); auto.
  pose proof (ecryptfs_write_body_meta e data offset size k v st) as Hb.
  destruct (ecryptfs_write_body e data offset size k v st) as [[c v'] st'| |]; auto.
  destruct c; auto.
  specialize (IH (S k) v' st').
  destruct (ecryptfs_write_loop fuel e data offset size (S k) v' st'); auto.
  destruct Hb as (Hb1 & Hb2). destruct IH as (IH1 & IH2). split; congruence.
Qed.

(** No signal, every acquisition gives its page, every page encryption
    succeeds: nothing stops the walk of a sequential write on an
    encrypted file.  What the size persistence reports is left open. *)
Lemma ecryptfs_write_loop_unhindered e data offset size :
  (forall k, fatal_signal_pending e k = false) ->
  (forall k idx, page_acquire e k idx = AcqPage) ->
  (forall idx, encrypt_page_rc e idx = 0) ->
  0 <= offset -> 0 <= size -> offset + size < 2 ^ 63 ->
  forall st lo, wf_cache st -> encrypted st = true -> 0 <= lo <= offset + size ->
    lo <= offset ->
    exists v' st',
      ecryptfs_write_loop (walk_fuel offset size lo) e data offset size O
        (WVars lo 0 0) st = Ok (Next, v') st' /\
      v_pos v' = offset + size /\ v_rc v' = 0 /\
      i_size st' = i_size st /\ crypt_flags st' = crypt_flags st /\
      lower_size st' = lower_size st.
Proof.
  intros Hsig Hacq Henc Hoff Hsize Hmax st lo Hwf Hst Hlo Hlo2.
  assert (Hrun : forall fuel k v s,
            wf_cache s -> encrypted s = true -> 0 <= v_pos v <= offset + size ->
            v_data_offset v = Z.max 0 (v_pos v - offset) ->
            (Z.to_nat (offset + size - v_pos v) <= fuel)%nat ->
            exists v' s', ecryptfs_write_loop fuel e data offset size k v s
                          = Ok (Next, v') s').
  { induction fuel as [|fuel IH]; intros k v s Hwfs Hencs Hpos Hdoff Hfuel.
    - cbn [ecryptfs_write_loop]. rewrite !u64_small by lia.
      destruct (Z.ltb_spec (v_pos v) (offset + size)); [lia|eauto].
    - cbn [ecryptfs_write_loop]. rewrite !u64_small by lia.
      destruct (Z.ltb_spec (v_pos v) (offset + size)) as [Hlt|Hge]; [|eauto].
      pose proof (ecryptfs_write_body_spec e data offset size Hoff Hsize Hmax k v s
                    Hwfs ltac:(lia) Hlt Hdoff) as Hbody.
      destruct (write_num_bytes_spec offset size (v_pos v) ltac:(lia) Hsize Hlt Hmax)
        as (Hn1 & _ & Hnend & _).
      assert (Hstep : exists v' s', ecryptfs_write_body e data offset size k v s
                                    = Ok (Next, v') s').
      { unfold ecryptfs_write_body, ecryptfs_get_locked_page.
        rewrite Hsig, Hacq. cbn [IS_ERR kmap].
        set (s1 := set_page s _ _).
        destruct (write_fill_page_fields s1 (page_index (v_pos v)) data offset (v_pos v)
                    (v_data_offset v) (write_num_bytes offset size (v_pos v)))
          as (_ & Hfl & _).
        destruct (write_fill_page s1 _ data offset (v_pos v) _ _) as [s2 doff2].
        cbn [fst] in Hfl. change (crypt_flags s1) with (crypt_flags s) in Hfl.
        rewrite Hfl. fold (encrypted s). rewrite Hencs.
        unfold ecryptfs_encrypt_page. rewrite Henc. cbn [Z.eqb bind negb]. eauto. }
      destruct Hstep as (v' & s' & Hstep).
      rewrite Hstep in Hbody |- *. cbv zeta in Hbody.
      destruct Hbody as (Hpos' & _ & Hdoff' & pg' & Ht & Hlen & _).
      apply IH.
      + eapply touched_wf; eauto.
      + destruct Ht as (_ & _ & Hfl & _). unfold encrypted in *. rewrite Hfl. exact Hencs.
      + lia.
      + exact Hdoff'.
      + lia. }
  destruct (Hrun (walk_fuel offset size lo) O (WVars lo 0 0) st Hwf Hst)
    as (v' & st' & Hloop).
  { cbn [v_pos]. lia. }
  { cbn [v_pos v_data_offset]. lia. }
  { unfold walk_fuel. cbn [v_pos]. rewrite u64_small by lia. lia. }
  pose proof (ecryptfs_write_loop_spec e data offset size Hoff Hsize Hmax lo ltac:(lia)
                (walk_fuel offset size lo) O (WVars lo 0 0) st Hwf
                ltac:(cbn [v_pos]; lia) eq_refl
                ltac:(cbn [v_pos v_data_offset]; lia)
                ltac:(unfold walk_fuel; cbn [v_pos]; rewrite u64_small by lia; lia)
                ltac:(intros p b Hp; cbn [v_pos] in Hp; lia)) as Hspec.
  pose proof (ecryptfs_write_loop_meta e data offset size
                (walk_fuel offset size lo) O (WVars lo 0 0) st) as Hmeta.
  rewrite Hloop in Hspec, Hmeta.
  destruct Hspec as (Hp & Hr & _ & _ & Hsz & Hfl). destruct Hmeta as (Hls & _).
  exists v', st'. auto 10.
Qed.

(** What [ecryptfs_write] does to the size on an encrypted file when the
    walk is not hindered.  A write inside the file leaves the size and
    the persisted size record alone and returns 0.  A write that extends
    the file sets the in-memory size to [offset + size] and returns what
    the size persistence reports; when that is a failure, the in-memory
    size stays extended while the persisted size record is the old one. *)
Theorem write_size_and_size_record e st data offset size :
  (forall k, fatal_signal_pending e k = false) ->
  (forall k idx, page_acquire e k idx = AcqPage) ->
  (forall idx, encrypt_page_rc e idx = 0) ->
  encrypted st = true -> wf_cache st ->
  0 <= i_size st -> 0 <= offset -> 0 <= size -> offset + size < 2 ^ 63 ->
  exists st',
    ecryptfs_write e st data offset size
    = Ok (if i_size st <? offset + size then size_to_metadata_rc e else 0) st' /\
    i_size st' = Z.max (i_size st) (offset + size) /\
    lower_size st'
    = (if (i_size st <? offset + size) && (size_to_metadata_rc e =? 0)
       then Some (offset + size) else lower_size st).
Proof.
  intros Hsig Hacq Henc Hst Hwf Hfs Hoff Hsize Hmax.
  unfold ecryptfs_write.
  set (lo := write_start offset (i_size st)).
  assert (Hlo : 0 <= lo <= offset /\ lo <= i_size st).
  { unfold lo, write_start. case_cmp; lia. }
  destruct (ecryptfs_write_loop_unhindered e data offset size Hsig Hacq Henc Hoff Hsize
              Hmax st lo Hwf Hst ltac:(lia) ltac:(lia))
    as (v' & st1 & Hloop & Hpos & Hrc & Hsz & Hfl & Hls).
  rewrite Hloop. cbn [bind]. rewrite Hpos, Hrc.
  destruct (Z.gtb_spec (offset + size) (i_size st)) as [Hext|Hin];
    destruct (Z.ltb_spec (i_size st) (offset + size)) as [Hext'|Hin']; try lia.
  - change (crypt_flags (set_i_size st1 (offset + size))) with (crypt_flags st1).
    rewrite Hfl. fold (encrypted st). rewrite Hst.
    unfold ecryptfs_write_inode_size_to_metadata.
    destruct (Z.eqb_spec (size_to_metadata_rc e) 0) as [H0|H0]; cbn [andb negb].
    + rewrite H0. eexists. split; [reflexivity|].
      cbn [i_size lower_size set_lower_size set_i_size]. split; [lia|reflexivity].
    + destruct (Z.eqb_spec (size_to_metadata_rc e) 0) as [?|_]; [contradiction|].
      cbn [negb Z.eqb]. eexists. split; [reflexivity|].
      cbn [i_size lower_size set_i_size]. split; [lia|exact Hls].
  - cbn [andb]. eexists. split; [reflexivity|]. split; [lia|exact Hls].
Qed.

Lemma write_size_and_size_record_witness :
  exists st',
    ecryptfs_write
      (Env (fun _ => false) (fun _ _ => AcqPage) (fun _ => 0) (fun _ => 0) 0 0
           (fun _ => 0) (- EIO) true)
      hello_encrypted hello 3 5
    = Ok (if i_size hello_encrypted <? 3 + 5 then - EIO else 0) st' /\
    i_size st' = Z.max (i_size hello_encrypted) (3 + 5) /\
    lower_size st'
    = (if (i_size hello_encrypted <? 3 + 5) && (- EIO =? 0)
       then Some (3 + 5) else lower_size hello_encrypted).
Proof.
  apply (write_size_and_size_record
           (Env (fun _ => false) (fun _ _ => AcqPage) (fun _ => 0) (fun _ => 0) 0 0
                (fun _ => 0) (- EIO) true)
           hello_encrypted hello 3 5).
  - reflexivity.
  - reflexivity.
  - reflexivity.
  - reflexivity.
  - exact hello_encrypted_wf.
  - cbn [i_size hello_encrypted]. lia.
  - lia.
  - lia.
  - lia.
Defined.

(** ** Locks and references in the sequential write *)

Lemma balanced_refl st : balanced st st.
Proof. intros idx. auto. Qed.

Lemma balanced_trans st1 st2 st3 : balanced st1 st2 -> balanced st2 st3 -> balanced st1 st3.
Proof.
  intros H12 H23 idx. destruct (H12 idx) as (Hc1 & Hl1). destruct (H23 idx) as (Hc2 & Hl2).
  split; [congruence|auto].
Qed.

Lemma touched_balanced st st' idx pg :
  touched st st' idx pg -> pg_locked pg = false ->
  pg_count pg = pg_count (get_page st idx) -> balanced st st'.
Proof.
  intros Ht Hl Hc j. destruct (Z.eq_dec j idx) as [->|Hne].
  - rewrite (touched_get _ _ _ _ Ht). split; [exact Hc|]. rewrite Hl. discriminate.
  - unfold get_page. rewrite (touched_other _ _ _ _ _ Ht Hne). auto.
Qed.

Lemma balanced_same_mapping st st' :
  i_mapping st' = i_mapping st -> balanced st st'.
Proof. intros H idx. unfold get_page. rewrite H. auto. Qed.

(** The page part of a write step leaves its page unlocked, with the
    reference count it got. *)
Lemma write_fill_page_touched st st1 idx pg1 data offset pos doff num :
  touched st st1 idx pg1 ->
  exists pg',
    touched st (fst (write_fill_page st1 idx data offset pos doff num)) idx pg' /\
    pg_locked pg' = false /\ pg_count pg' = pg_count pg1.
Proof.
  intros Ht. unfold write_fill_page.
  destruct ((pos <? offset) || (offset_in_page pos =? 0)); destruct (offset <=? pos);
    cbn [fst]; eexists.
  - split; [apply touched_unlock, touched_uptodate, touched_memcpy, touched_memset, Ht|].
    split; reflexivity.
  - split; [apply touched_unlock, touched_uptodate, touched_memset, Ht|].
    split; reflexivity.
  - split; [apply touched_unlock, touched_uptodate, touched_memcpy, Ht|].
    split; reflexivity.
  - split; [apply touched_unlock, touched_uptodate, Ht|].
    split; reflexivity.
Qed.

Lemma ecryptfs_write_body_balanced e data offset size k v st :
  match ecryptfs_write_body e data offset size k v st with
  | Ok _ st' => balanced st st'
  | _ => True
  end.
Proof.
  unfold ecryptfs_write_body, ecryptfs_get_locked_page.
  destruct (fatal_signal_pending e k); [apply balanced_refl|].
  set (idx := page_index (v_pos v)).
  destruct (page_acquire e k idx) as [| |err]; cbn [IS_ERR kmap].
  2: { exact I. }
  2: { destruct (_ && _); cbn [kmap]; [apply balanced_refl|exact I]. }
  set (pg1 := Page _ true true (S (pg_count (get_page st idx)))).
  destruct (write_fill_page_touched st (set_page st idx pg1) idx pg1 data offset (v_pos v)
              (v_data_offset v) (write_num_bytes offset size (v_pos v))
              (touched_first st idx pg1)) as (pg2 & Ht2 & Hl2 & Hc2).
  destruct (write_fill_page (set_page st idx pg1) idx data offset (v_pos v) _ _)
    as [st2 doff2].
  cbn [fst] in Ht2.
  assert (Hdone : forall st3, touched st st3 idx pg2 -> balanced st (put_page st3 idx)).
  { intros st3 Ht3.
    apply (touched_balanced st (put_page st3 idx) idx _ (touched_put _ _ _ _ Ht3)).
    - exact Hl2.
    - cbn [pg_count]. rewrite Hc2. reflexivity. }
  destruct (flag_set (crypt_flags st2) ECRYPTFS_ENCRYPTED).
  - pose proof (encrypt_page_touched e st st2 idx pg2 idx Ht2) as Ht3.
    destruct (ecryptfs_encrypt_page e st2 idx) as [rc st3]. cbn [snd bind] in *.
    destruct (negb _); apply Hdone, Ht3.
  - pose proof (write_lower_page_segment_touched e st st2 idx pg2 idx
                  (offset_in_page (v_pos v)) (u64 doff2) Ht2) as Ht3.
    destruct (ecryptfs_write_lower_page_segment e st2 idx _ _) as [rc st3| |];
      cbn [bind]; auto.
    destruct (negb _); apply Hdone, Ht3.
Qed.

Lemma ecryptfs_write_loop_balanced e data offset size :
  forall fuel k v st,
    match ecryptfs_write_loop fuel e data offset size k v st with
    | Ok _ st' => balanced st st'
    | _ => True
    end.
Proof.
  induction fuel as [|fuel IH]; intros k v st; cbn [ecryptfs_write_loop];
    destruct (_ <? _); auto using balanced_refl.
  pose proof (ecryptfs_write_body_balanced e data offset size k v st) as Hb.
  destruct (ecryptfs_write_body e data offset size k v st) as [[c v'] st'| |]; auto.
  destruct c; auto.
  specialize (IH (S k) v' st').
  destruct (ecryptfs_write_loop fuel e data offset size (S k) v' st'); auto.
  eapply balanced_trans; eauto.
Qed.

(** Lock discipline of the sequential write: on every path on which
    [ecryptfs_write] returns (completion, cancellation, failed
    acquisition, failed commit, failed size persistence) every page has
    the reference count it had before the call and no page has been left
    locked; and the call never runs out of steps. *)
Theorem write_releases_every_page e st data offset size :
  wf_cache st ->
  0 <= i_size st -> 0 <= offset -> 0 <= size -> offset + size < 2 ^ 63 ->
  match ecryptfs_write e st data offset size with
  | Ok _ st' => balanced st st'
  | Crash _ => True
  | OutOfFuel => False
  end.
Proof.
  intros Hwf Hfs Hoff Hsize Hmax.
  destruct (ecryptfs_write_spec e st data offset size Hwf Hfs Hoff Hsize Hmax)
    as (Hspec & _).
  revert Hspec. unfold ecryptfs_write.
  pose proof (ecryptfs_write_loop_balanced e data offset size
                (walk_fuel offset size (write_start offset (i_size st))) O
                (WVars (write_start offset (i_size st)) 0 0) st) as Hb.
  destruct (ecryptfs_write_loop _ e data offset size O _ st) as [[c v] st1| |];
    cbn [bind]; auto.
  assert (Hsame : forall s, i_mapping s = i_mapping st1 -> balanced st s).
  { intros s Hs. eapply balanced_trans; [exact Hb|]. apply balanced_same_mapping, Hs. }
  intros _.
  destruct c; try (apply Hsame; reflexivity);
    destruct (v_pos v >? i_size st); try (apply Hsame; reflexivity);
    destruct (flag_set _ _); try (apply Hsame; reflexivity);
    unfold ecryptfs_write_inode_size_to_metadata;
    destruct (size_to_metadata_rc e =? 0); cbn [negb Z.eqb];
    try destruct (negb _); apply Hsame; reflexivity.
Qed.

Lemma write_releases_every_page_witness :
  match ecryptfs_write crypto_fail_env hello_encrypted hello 3 5 with
  | Ok _ st' => balanced hello_encrypted st'
  | Crash _ => True
  | OutOfFuel => False
  end.
Proof.
  apply (write_releases_every_page crypto_fail_env hello_encrypted hello 3 5).
  - exact hello_encrypted_wf.
  - cbn [i_size hello_encrypted]. lia.
  - lia.
  - lia.
  - lia.
Defined.

(** ** A write inside one page *)

(** The bytes of the page outside the step, after the page part of a
    write step: below the step they are as before; above it they are
    zero when the step fills the hole or starts the page, and as before
    otherwise. *)
Lemma write_fill_page_rest st idx data offset pos doff num :
  length (pg_data (get_page st idx)) = Z.to_nat PAGE_SIZE ->
  0 <= num -> pos mod PAGE_SIZE + num <= PAGE_SIZE ->
  let pg' := get_page (fst (write_fill_page st idx data offset pos doff num)) idx in
  (forall i, 0 <= i < pos mod PAGE_SIZE ->
     pg_data pg' !! Z.to_nat i = pg_data (get_page st idx) !! Z.to_nat i) /\
  (forall i, pos mod PAGE_SIZE + num <= i < PAGE_SIZE ->
     pg_data pg' !! Z.to_nat i
     = if (pos <? offset) || (pos mod PAGE_SIZE =? 0) then Some x00
       else pg_data (get_page st idx) !! Z.to_nat i).
Proof.
  intros Hlen Hnum Hfit pg'.
  pose proof (Z.mod_pos_bound pos PAGE_SIZE ltac:(rewrite PAGE_SIZE_eq; lia)) as Hm.
  unfold pg', write_fill_page. rewrite offset_in_page_mod.
  set (start := pos mod PAGE_SIZE) in *.
  assert (Hsl : (length (buf_slice data doff num) <= Z.to_nat num)%nat).
  { unfold buf_slice. rewrite length_take. lia. }
  unfold unlock_page, SetPageUptodate, memcpy_to_page, memset_page, set_page_data.
  destruct ((pos <? offset) || (start =? 0)); destruct (offset <=? pos); cbn [fst];
    rewrite ?get_page_set_page; cbn [pg_data]; rewrite ?get_page_set_page; cbn [pg_data];
    rewrite ?get_page_set_page; cbn [pg_data]; rewrite ?get_page_set_page; cbn [pg_data].
  - split.
    + intros i Hi. rewrite !list_lookup_inserts_lt by lia. reflexivity.
    + intros i Hi. rewrite list_lookup_inserts_ge by lia.
      rewrite list_lookup_inserts by (rewrite ?length_replicate; lia).
      apply lookup_replicate_2. lia.
  - split.
    + intros i Hi. rewrite !list_lookup_inserts_lt by lia. reflexivity.
    + intros i Hi.
      rewrite list_lookup_inserts by (rewrite ?length_replicate; lia).
      apply lookup_replicate_2. lia.
  - split.
    + intros i Hi. rewrite !list_lookup_inserts_lt by lia. reflexivity.
    + intros i Hi. rewrite list_lookup_inserts_ge by lia. reflexivity.
  - split; intros i Hi; reflexivity.
Qed.

(** An unhindered write on an encrypted file whose range lies in one
    page and starts inside the file is one step; the page afterwards is
    the page the step filled. *)
Lemma ecryptfs_write_one_step e st data offset size :
  fatal_signal_pending e O = false ->
  page_acquire e O (offset / PAGE_SIZE) = AcqPage ->
  encrypt_page_rc e (offset / PAGE_SIZE) = 0 ->
  encrypted st = true ->
  0 <= offset <= i_size st -> 0 < size -> offset mod PAGE_SIZE + size <= PAGE_SIZE ->
  offset + size < 2 ^ 63 ->
  let idx := offset / PAGE_SIZE in
  let st1 := set_page st idx (Page (page_in st idx) true true (S (pg_count (get_page st idx)))) in
  exists rc st',
    ecryptfs_write e st data offset size = Ok rc st' /\
    is_Some (i_mapping st' !! idx) /\
    pg_data (get_page st' idx)
    = pg_data (get_page (fst (write_fill_page st1 idx data offset offset 0 size)) idx).
Proof.
  intros Hsig Hacq Henc Hst Hoff Hsize Hfit Hmax idx st1.
  pose proof PAGE_SIZE_eq as HP.
  pose proof (Z.mod_pos_bound offset PAGE_SIZE ltac:(lia)) as Hm.
  unfold ecryptfs_write.
  assert (Hlo : write_start offset (i_size st) = offset).
  { unfold write_start. case_cmp; lia. }
  rewrite Hlo. unfold walk_fuel. rewrite u64_small by lia.
  destruct (Z.to_nat (offset + size - offset)) as [|fuel] eqn:Hfuel; [lia|].
  cbn [ecryptfs_write_loop v_pos]. rewrite !u64_small by lia.
  destruct (Z.ltb_spec offset (offset + size)) as [_|Hc]; [|lia].
  assert (Hn : write_num_bytes offset size offset = size).
  { destruct (write_num_bytes_spec offset size offset ltac:(lia) ltac:(lia) ltac:(lia) Hmax)
      as (_ & _ & _ & _ & Hneq).
    rewrite Hneq. destruct (Z.ltb_spec offset offset); lia. }
  unfold ecryptfs_write_body, ecryptfs_get_locked_page. cbn [v_pos v_data_offset].
  rewrite page_index_div by lia. fold idx. fold idx in Hacq, Henc.
  rewrite Hsig, Hacq, Hn. cbn [IS_ERR kmap].
  change (Page (if pg_uptodate (get_page st idx) then pg_data (get_page st idx)
                else lower_page st idx) true true (S (pg_count (get_page st idx))))
    with (Page (page_in st idx) true true (S (pg_count (get_page st idx)))).
  fold st1.
  destruct (write_fill_page_fields st1 idx data offset offset 0 size) as (_ & Hfl & _).
  destruct (write_fill_page st1 idx data offset offset 0 size) as [st2 doff2].
  cbn [fst] in *. change (crypt_flags st1) with (crypt_flags st) in Hfl.
  rewrite Hfl. fold (encrypted st). rewrite Hst.
  unfold ecryptfs_encrypt_page. rewrite Henc. cbn [Z.eqb bind negb v_pos].
  rewrite s64_small by lia.
  assert (Hstop : forall w s,
            v_pos w = offset + size ->
            ecryptfs_write_loop fuel e data offset size 1 w s = Ok (Next, w) s).
  { intros w s Hw. destruct fuel; cbn [ecryptfs_write_loop]; rewrite Hw, !u64_small by lia;
      destruct (Z.ltb_spec (offset + size) (offset + size)); try lia; reflexivity. }
  rewrite Hstop by reflexivity. cbn [bind v_pos v_rc].
  assert (Hpg : forall s, i_mapping s = i_mapping (put_page (persist_page st2 idx) idx) ->
            is_Some (i_mapping s !! idx) /\
            pg_data (get_page s idx) = pg_data (get_page st2 idx)).
  { intros s Hs. split.
    { rewrite Hs. unfold put_page, set_page, set_mapping. cbn [i_mapping].
      rewrite lookup_insert_eq. eauto. }
    unfold get_page at 1. rewrite Hs.
    change (default new_page (i_mapping (put_page (persist_page st2 idx) idx) !! idx))
      with (get_page (put_page (persist_page st2 idx) idx) idx).
    unfold put_page. rewrite get_page_set_page. reflexivity. }
  destruct (offset + size >? i_size st).
  - change (crypt_flags (set_i_size (put_page (persist_page st2 idx) idx) (offset + size)))
      with (crypt_flags st2).
    rewrite Hfl. fold (encrypted st). rewrite Hst.
    unfold ecryptfs_write_inode_size_to_metadata.
    destruct (Z.eqb_spec (size_to_metadata_rc e) 0) as [H0|H0]; cbn [negb Z.eqb].
    + eexists _, _. split; [reflexivity|]. apply Hpg. reflexivity.
    + destruct (Z.eqb_spec (size_to_metadata_rc e) 0) as [?|_]; [contradiction|].
      cbn [negb]. eexists _, _. split; [reflexivity|]. apply Hpg. reflexivity.
  - eexists _, _. split; [reflexivity|]. apply Hpg. reflexivity.
Qed.

Lemma page_in_length st idx :
  wf_cache st -> length (page_in st idx) = Z.to_nat PAGE_SIZE.
Proof.
  intros Hwf. unfold page_in. destruct (pg_uptodate (get_page st idx)).
  - apply get_page_length, Hwf.
  - apply lower_page_length.
Qed.

(** A write that starts on a page boundary zero-fills its page before it
    copies: after an unhindered [ecryptfs_write] of less than a page at a
    page-aligned offset inside an encrypted file, every byte of that page
    behind the written range reads zero, whatever the file held there. *)
Theorem write_at_page_start_zeroes_rest_of_page e st data offset size :
  fatal_signal_pending e O = false ->
  page_acquire e O (offset / PAGE_SIZE) = AcqPage ->
  encrypt_page_rc e (offset / PAGE_SIZE) = 0 ->
  encrypted st = true -> wf_cache st ->
  0 <= offset <= i_size st -> offset mod PAGE_SIZE = 0 ->
  0 < size <= PAGE_SIZE -> offset + PAGE_SIZE < 2 ^ 63 ->
  exists rc st',
    ecryptfs_write e st data offset size = Ok rc st' /\
    forall p, offset + size <= p < offset + PAGE_SIZE -> file_byte st' p = Some x00.
Proof.
  intros Hsig Hacq Henc Hst Hwf Hoff Halign Hsize Hmax.
  pose proof PAGE_SIZE_eq as HP.
  destruct (ecryptfs_write_one_step e st data offset size Hsig Hacq Henc Hst Hoff
              ltac:(lia) ltac:(lia) ltac:(lia)) as (rc & st' & Hw & (pg & Hpg) & Hdata).
  exists rc, st'. split; [exact Hw|].
  intros p Hp.
  set (idx := offset / PAGE_SIZE) in *.
  set (st1 := set_page st idx _) in Hdata.
  destruct (write_fill_page_rest st1 idx data offset offset 0 size) as (_ & Hrest).
  { unfold st1. rewrite get_page_set_page. cbn [pg_data]. apply page_in_length, Hwf. }
  { lia. } { lia. }
  cbv zeta in Hrest. rewrite <- Hdata in Hrest.
  unfold file_byte. rewrite page_index_div, offset_in_page_mod by lia.
  assert (Hsame : p / PAGE_SIZE = idx /\ offset mod PAGE_SIZE + size <= p mod PAGE_SIZE
                  /\ p mod PAGE_SIZE < PAGE_SIZE).
  { unfold idx. rewrite HP in *. Z.div_mod_to_equations. lia. }
  destruct Hsame as (-> & Hlo & Hhi).
  rewrite Hpg. cbn [mbind option_bind].
  assert (Hget : get_page st' idx = pg) by (unfold get_page; rewrite Hpg; reflexivity).
  rewrite Hget in Hrest. rewrite (Hrest (p mod PAGE_SIZE)) by lia.
  rewrite Halign. destruct (offset <? offset); reflexivity.
Qed.

Lemma write_at_page_start_zeroes_rest_of_page_witness :
  exists rc st',
    ecryptfs_write quiet_env hello_encrypted [x58] 0 1 = Ok rc st' /\
    forall p, 0 + 1 <= p < 0 + PAGE_SIZE -> file_byte st' p = Some x00.
Proof.
  apply (write_at_page_start_zeroes_rest_of_page quiet_env hello_encrypted [x58] 0 1).
  - reflexivity.
  - reflexivity.
  - reflexivity.
  - reflexivity.
  - exact hello_encrypted_wf.
  - cbn [i_size hello_encrypted]. lia.
  - reflexivity.
  - rewrite PAGE_SIZE_eq. lia.
  - rewrite PAGE_SIZE_eq. lia.
Defined.

(** A write that starts inside a page keeps the rest of the page: after
    an unhindered [ecryptfs_write] whose range lies in one page of an
    encrypted file, does not start on the page boundary, and whose page
    is cached and up to date, every byte of that page outside the written
    range is as before. *)
Theorem write_inside_page_keeps_other_bytes e st data offset size pg0 :
  fatal_signal_pending e O = false ->
  page_acquire e O (offset / PAGE_SIZE) = AcqPage ->
  encrypt_page_rc e (offset / PAGE_SIZE) = 0 ->
  encrypted st = true -> wf_cache st ->
  i_mapping st !! (offset / PAGE_SIZE) = Some pg0 -> pg_uptodate pg0 = true ->
  0 <= offset <= i_size st -> 0 < offset mod PAGE_SIZE ->
  0 < size -> offset mod PAGE_SIZE + size <= PAGE_SIZE -> offset + size < 2 ^ 63 ->
  exists rc st',
    ecryptfs_write e st data offset size = Ok rc st' /\
    forall p, 0 <= p < 2 ^ 63 -> p / PAGE_SIZE = offset / PAGE_SIZE ->
      p < offset \/ offset + size <= p -> file_byte st' p = file_byte st p.
Proof.
  intros Hsig Hacq Henc Hst Hwf Hpg0 Hup0 Hoff Hin Hsize Hfit Hmax.
  pose proof PAGE_SIZE_eq as HP.
  destruct (ecryptfs_write_one_step e st data offset size Hsig Hacq Henc Hst Hoff
              Hsize Hfit Hmax) as (rc & st' & Hw & (pg & Hpg) & Hdata).
  exists rc, st'. split; [exact Hw|].
  intros p Hp Hsame Hout.
  set (idx := offset / PAGE_SIZE) in *.
  set (st1 := set_page st idx _) in Hdata.
  assert (Hpin : page_in st idx = pg_data pg0).
  { unfold page_in, get_page. rewrite Hpg0. cbn [from_option id]. rewrite Hup0.
    reflexivity. }
  destruct (write_fill_page_rest st1 idx data offset offset 0 size) as (Hbelow & Habove).
  { unfold st1. rewrite get_page_set_page. cbn [pg_data]. apply page_in_length, Hwf. }
  { lia. } { lia. }
  cbv zeta in Hbelow, Habove. rewrite <- Hdata in Hbelow, Habove.
  unfold st1 in Hbelow, Habove. rewrite get_page_set_page in Hbelow, Habove.
  cbn [pg_data] in Hbelow, Habove. rewrite Hpin in Hbelow, Habove.
  assert (Hget : get_page st' idx = pg) by (unfold get_page; rewrite Hpg; reflexivity).
  rewrite Hget in Hbelow, Habove.
  unfold file_byte. rewrite page_index_div, offset_in_page_mod by lia.
  rewrite Hsame, Hpg, Hpg0. cbn [mbind option_bind].
  pose proof (Z.mod_pos_bound p PAGE_SIZE ltac:(lia)) as Hm.
  destruct Hout as [Hlt|Hge].
  - apply Hbelow. rewrite HP in *. unfold idx in Hsame. Z.div_mod_to_equations. lia.
  - rewrite Habove by (rewrite HP in *; unfold idx in Hsame; Z.div_mod_to_equations; lia).
    destruct (Z.ltb_spec offset offset) as [Hc|_]; [lia|].
    destruct (Z.eqb_spec (offset mod PAGE_SIZE) 0) as [Hc|_]; [lia|]. reflexivity.
Qed.

Lemma write_inside_page_keeps_other_bytes_witness :
  exists rc st',
    ecryptfs_write quiet_env hello_encrypted [x58] 2 1 = Ok rc st' /\
    forall p, 0 <= p < 2 ^ 63 -> p / PAGE_SIZE = 2 / PAGE_SIZE ->
      p < 2 \/ 2 + 1 <= p -> file_byte st' p = file_byte hello_encrypted p.
Proof.
  apply (write_inside_page_keeps_other_bytes quiet_env hello_encrypted [x58] 2 1
           hello_page).
  - reflexivity.
  - reflexivity.
  - reflexivity.
  - reflexivity.
  - exact hello_encrypted_wf.
  - reflexivity.
  - reflexivity.
  - cbn [i_size hello_encrypted]. lia.
  - rewrite PAGE_SIZE_eq. reflexivity.
  - lia.
  - rewrite PAGE_SIZE_eq. change (2 mod 4096) with 2. lia.
  - lia.
Defined.

(** ** The batched write: failures at the start *)

(** When the first page acquisition of [ecryptfs_write2] fails,
    [grab_cache_page_write_begin] gives NULL; the code tests the pointer
    with [IS_ERR], which NULL passes, and maps it: the call does not
    return an error, it dereferences NULL. *)
Theorem write2_maps_null_page e st data offset size :
  kmalloc_ok e = true ->
  page_acquire e O (page_index (write_start offset (i_size st))) = AcqNull ->
  0 <= i_size st -> 0 <= offset -> 0 <= size -> offset + size < 2 ^ 63 ->
  size / PAGE_SIZE + 1 < 2 ^ 31 ->
  0 < size \/ i_size st < offset ->
  ecryptfs_write2 e st data offset size = Crash NullDeref.
Proof.
  intros Hkm Hacq Hfs Hoff Hsize Hmax Hint Hwork.
  unfold ecryptfs_write2.
  rewrite (write2_pages_eq size Hsize Hint).
  assert (Hnr : 0 <= write2_pages size).
  { unfold write2_pages. rewrite PAGE_SIZE_eq. apply Z.div_pos; lia. }
  unfold kmalloc_pages. rewrite Hkm.
  destruct (Z.ltb_spec (write2_pages size) 0) as [Hneg|_]; [lia|].
  cbn [orb negb is_null].
  set (lo := write_start offset (i_size st)) in *.
  assert (Hlo : 0 <= lo <= i_size st /\ lo < offset + size).
  { unfold lo, write_start. case_cmp; lia. }
  unfold walk_fuel. rewrite u64_small by lia.
  destruct (Z.to_nat (offset + size - lo)) as [|fuel] eqn:Hfuel; [lia|].
  cbn [ecryptfs_write2_loop b_pos]. rewrite !u64_small by lia.
  destruct (Z.ltb_spec lo (offset + size)) as [_|Hc]; [|lia].
  unfold ecryptfs_write2_body, grab_cache_page_write_begin, grab_cache_page.
  cbn [b_pos]. rewrite Hacq. cbn [IS_ERR kmap bind]. reflexivity.
Qed.

Lemma write2_maps_null_page_witness :
  ecryptfs_write2
    (Env (fun _ => false) (fun _ _ => AcqNull) (fun _ => 0) (fun _ => 0) 0 0
         (fun _ => 0) 0 true)
    hello_encrypted hello 0 5
  = Crash NullDeref.
Proof.
  apply (write2_maps_null_page _ hello_encrypted hello 0 5).
  - reflexivity.
  - reflexivity.
  - cbn [i_size hello_encrypted]. lia.
  - lia.
  - lia.
  - lia.
  - vm_compute. reflexivity.
  - left. lia.
Defined.

(** ** The batched read without decryption *)

Lemma ecryptfs_read2_grab_null e nr : forall fuel rc st,
  (0 < fuel)%nat \/ u32 nr <= 0 ->
  match ecryptfs_read2_grab fuel e true nr 0 rc None st with
  | Ok (Next, (_, pgs)) _ => pgs = None
  | Ok (Break, _) _ => False
  | Ok (GotoOut, _) _ => True
  | Crash f => f = NullDeref \/ f = BadPointer
  | OutOfFuel => False
  end.
Proof.
  intros fuel rc st Hfuel.
  destruct fuel as [|fuel]; cbn [ecryptfs_read2_grab].
  - destruct (Z.ltb_spec 0 (u32 nr)); [lia|reflexivity].
  - destruct (Z.ltb_spec 0 (u32 nr)) as [Hlt|Hge]; [|reflexivity].
    unfold grab_cache_page. change (Z.to_nat 0) with O.
    destruct (page_acquire e O 0) as [| |err]; cbn [kmap bind].
    + destruct (readpage e _ 0). cbn [array_set bind]. auto.
    + exact I.
    + auto.
Qed.

(** [ecryptfs_read2] cannot read a file that needs no decryption (a
    plaintext file, or one viewed as encrypted): the page array is not
    allocated in that mode, so the call either returns 0 with the
    destination untouched, or does not return because it goes through
    the NULL array or a bad page pointer.  With a non-empty file, a
    non-empty request and the first page acquired, it is the NULL array. *)
Theorem read2_without_decryption_reads_nothing e st data offset size :
  needs_decrypt st = false ->
  0 <= i_size st < 2 ^ 63 -> 0 <= offset -> 0 <= size -> offset + size < 2 ^ 63 ->
  match ecryptfs_read2 e st data offset size with
  | Ok (n, buf) _ => n = 0 /\ buf = data
  | Crash f => f = NullDeref \/ f = BadPointer
  | OutOfFuel => False
  end /\
  (0 < size -> 0 < i_size st -> clamped_size st size < 2 ^ 31 ->
   page_acquire e O 0 = AcqPage ->
   ecryptfs_read2 e st data offset size = Crash NullDeref).
Proof.
  intros Hdec Hfs Hoff Hsize Hmax.
  pose proof PAGE_SIZE_eq as HP.
  unfold ecryptfs_read2.
  rewrite (u64_small (i_size st)) by lia.
  set (size' := if size >? i_size st then i_size st else size).
  assert (Hsz : 0 <= size' <= size /\ size' = clamped_size st size).
  { unfold size', clamped_size. case_cmp; lia. }
  set (nr := s32 (Z.shiftr (u64 (size' + PAGE_SIZE - 1)) PAGE_SHIFT)).
  assert (Hnodec : negb (flag_set (crypt_flags st) ECRYPTFS_ENCRYPTED)
                   || flag_set (crypt_flags st) ECRYPTFS_VIEW_AS_ENCRYPTED = true).
  { unfold needs_decrypt in Hdec.
    destruct (flag_set (crypt_flags st) ECRYPTFS_ENCRYPTED);
      destruct (flag_set (crypt_flags st) ECRYPTFS_VIEW_AS_ENCRYPTED);
      cbn in Hdec |- *; congruence. }
  rewrite Hnodec. cbn [negb andb].
  assert (Hu : 0 <= u32 nr) by (unfold u32; apply Z.mod_pos_bound; lia).
  split.
  - pose proof (ecryptfs_read2_grab_null e nr (Z.to_nat (u32 nr)) 0 st ltac:(lia))
      as Hgrab.
    destruct (ecryptfs_read2_grab _ e true nr 0 0 None st) as [[c [rc pgs]] st1| |];
      cbn [bind]; auto.
    destruct c; [|contradiction|auto].
    subst pgs.
    destruct (offset >=? i_size st); [auto|].
    unfold walk_fuel. rewrite u64_small by lia.
    destruct (Z.to_nat (offset + size' - offset)) as [|fuel] eqn:Hfuel;
      cbn [ecryptfs_read2_loop r_pos]; rewrite !u64_small by lia;
      destruct (Z.ltb_spec offset (offset + size')) as [Hlt|Hge]; try lia;
      cbn [bind r_written r_data]; auto.
    unfold ecryptfs_read2_body. cbn [array_get bind]. auto.
  - intros Hpos Hnonempty Hclamp Hacq.
    assert (Hnr : 0 < u32 nr).
    { unfold nr. rewrite u64_small by lia.
      rewrite Z.shiftr_div_pow2 by (unfold PAGE_SHIFT; lia).
      change (2 ^ PAGE_SHIFT) with PAGE_SIZE.
      assert (1 <= (size' + PAGE_SIZE - 1) / PAGE_SIZE < 2 ^ 31).
      { unfold clamped_size in *. rewrite HP. split.
        - apply Z.div_le_lower_bound; lia.
        - apply Z.div_lt_upper_bound; lia. }
      rewrite s32_small, u32_small by lia. lia. }
    destruct (Z.to_nat (u32 nr)) as [|fuel] eqn:Hfuel; [lia|].
    cbn [ecryptfs_read2_grab].
    destruct (Z.ltb_spec 0 (u32 nr)) as [_|Hc]; [|lia].
    unfold grab_cache_page. change (Z.to_nat 0) with O. rewrite Hacq.
    cbn [kmap bind]. destruct (readpage e _ 0). cbn [array_set bind]. reflexivity.
Qed.

Lemma read2_without_decryption_reads_nothing_witness :
  match ecryptfs_read2 quiet_env hello_plain (replicate 5 x2e) 0 5 with
  | Ok (n, buf) _ => n = 0 /\ buf = replicate 5 x2e
  | Crash f => f = NullDeref \/ f = BadPointer
  | OutOfFuel => False
  end /\
  (0 < 5 -> 0 < i_size hello_plain -> clamped_size hello_plain 5 < 2 ^ 31 ->
   page_acquire quiet_env O 0 = AcqPage ->
   ecryptfs_read2 quiet_env hello_plain (replicate 5 x2e) 0 5 = Crash NullDeref).
Proof.
  apply (read2_without_decryption_reads_nothing quiet_env hello_plain
           (replicate 5 x2e) 0 5).
  - reflexivity.
  - cbn [i_size hello_plain]. lia.
  - lia.
  - lia.
  - lia.
Defined.

(** ** The batched read with decryption *)

(** Functional correctness of [ecryptfs_read2] where the code has it: a
    read that starts in the first page of an encrypted file, with the
    array allocated, every page acquired and the decryption succeeding,
    returns the request length clamped to the file size and, for each
    byte of that count, the byte the lower file holds at its position
    (zero in a hole), provided the walk stays within the pages counted
    from the length. *)
Theorem read2_first_page_returns_lower_bytes e st data offset size :
  needs_decrypt st = true -> kmalloc_ok e = true ->
  (forall k idx, page_acquire e k idx = AcqPage) ->
  decrypt_pages_rc e = 0 ->
  wf_cache st ->
  0 <= offset < i_size st -> offset < PAGE_SIZE -> i_size st < 2 ^ 62 ->
  0 <= size -> clamped_size st size < 2 ^ 31 ->
  length data = Z.to_nat size ->
  (offset + clamped_size st size - 1) / PAGE_SIZE < batch_pages st size ->
  exists buf st',
    ecryptfs_read2 e st data offset size = Ok (clamped_size st size, buf) st' /\
    forall j, 0 <= j < clamped_size st size ->
      buf !! Z.to_nat j = Some (default x00 (lower_data st !! (offset + j))).
Proof.
  intros Hdec Hkm Hacq Hrc Hwf Hoff Hfirst Hfs Hsize Hclamp Hdata Hfit.
  pose proof PAGE_SIZE_eq as HP.
  pose proof (ecryptfs_read2_spec e st data offset size Hdec Hkm Hacq Hwf Hoff Hfs
                Hsize Hclamp Hdata) as Hspec.
  assert (Hq : offset / PAGE_SIZE = 0) by (apply Z.div_small; lia).
  destruct (ecryptfs_read2 e st data offset size) as [[n buf] st'| |].
  - destruct Hspec as (-> & _ & _ & _ & Hpages & Hbuf).
    exists buf, st'. split; [reflexivity|].
    intros j Hj. destruct (Hbuf j Hj) as (Hslot & ->).
    unfold batch_slot in *. rewrite Hq, Z.sub_0_r in *.
    rewrite (Hpages Hrc _ Hslot).
    rewrite lower_page_lookup by (apply Z.mod_pos_bound; lia).
    replace ((offset + j) / PAGE_SIZE * PAGE_SIZE + (offset + j) mod PAGE_SIZE)
      with (offset + j); [reflexivity|].
    rewrite HP. Z.div_mod_to_equations. lia.
  - exfalso. unfold batch_slot in Hspec. rewrite Hq in Hspec. lia.
  - contradiction.
Qed.

Lemma read2_first_page_returns_lower_bytes_witness :
  exists buf st',
    ecryptfs_read2 quiet_env hello_encrypted (replicate 3 x2e) 2 3
    = Ok (clamped_size hello_encrypted 3, buf) st' /\
    forall j, 0 <= j < clamped_size hello_encrypted 3 ->
      buf !! Z.to_nat j = Some (default x00 (lower_data hello_encrypted !! (2 + j))).
Proof.
  apply (read2_first_page_returns_lower_bytes quiet_env hello_encrypted
           (replicate 3 x2e) 2 3).
  - reflexivity.
  - reflexivity.
  - reflexivity.
  - reflexivity.
  - exact hello_encrypted_wf.
  - cbn [i_size hello_encrypted]. lia.
  - rewrite PAGE_SIZE_eq. lia.
  - cbn [i_size hello_encrypted]. lia.
  - lia.
  - vm_compute. reflexivity.
  - reflexivity.
  - vm_compute. reflexivity.
Defined.

(** ** Write, then read *)

(** Round trip inside the first page: on an encrypted file, with nothing
    failing, [ecryptfs_write] of [data] at a range that lies in the first
    page followed by [ecryptfs_read2] of the same range gives back
    exactly [data], with the full count, whatever the file held before. *)
Theorem write_then_read_roundtrip_in_first_page e st data dest offset size :
  cooperative e -> kmalloc_ok e = true -> decrypt_pages_rc e = 0 ->
  needs_decrypt st = true -> wf_cache st ->
  0 <= i_size st < 2 ^ 62 -> 0 <= offset -> 0 < size -> offset + size <= PAGE_SIZE ->
  length data = Z.to_nat size -> length dest = Z.to_nat size ->
  exists st1 st2,
    ecryptfs_write e st data offset size = Ok 0 st1 /\
    ecryptfs_read2 e st1 dest offset size = Ok (size, data) st2.
Proof.
  intros Hco Hkm Hrc Hdec Hwf Hfs Hoff Hsize Hfit Hdata Hdest.
  pose proof PAGE_SIZE_eq as HP.
  destruct (write_then_read_first_page e st data offset size Hco Hkm Hrc Hdec Hwf Hfs
              ltac:(lia) ltac:(lia) Hdata) as (st1 & Hw & Hread).
  specialize (Hread dest Hdest).
  destruct (ecryptfs_read2 e st1 dest offset size) as [[n buf] st2| |] eqn:Hr.
  - destruct Hread as (Hn & Hbuf). subst n buf. exists st1, st2.
    split; [exact Hw|exact Hr].
  - exfalso. rewrite HP in *.
    assert ((offset + size - 1) / 4096 = 0) by (apply Z.div_small; lia).
    assert (1 <= (size + 4096 - 1) / 4096) by (apply Z.div_le_lower_bound; lia).
    lia.
  - contradiction.
Qed.

Lemma write_then_read_roundtrip_in_first_page_witness :
  exists st1 st2,
    ecryptfs_write quiet_env (empty_file ECRYPTFS_ENCRYPTED) hello 100 5 = Ok 0 st1 /\
    ecryptfs_read2 quiet_env st1 (replicate 5 x2e) 100 5 = Ok (5, hello) st2.
Proof.
  apply (write_then_read_roundtrip_in_first_page quiet_env
           (empty_file ECRYPTFS_ENCRYPTED) hello (replicate 5 x2e) 100 5).
  - exact quiet_env_cooperative.
  - reflexivity.
  - reflexivity.
  - reflexivity.
  - unfold wf_cache, empty_file. cbn [i_mapping]. apply map_Forall_empty.
  - cbn [i_size empty_file]. lia.
  - lia.
  - lia.
  - rewrite PAGE_SIZE_eq. lia.
  - reflexivity.
  - reflexivity.
Defined.

(** ** What a sequential write leaves alone *)

Lemma ecryptfs_write_loop_keeps e data offset size lo p b st0 :
  0 <= offset -> 0 <= size -> offset + size < 2 ^ 63 -> 0 <= p < lo ->
  forall fuel k v st,
    wf_cache st -> lo <= v_pos v <= offset + size ->
    v_data_offset v = Z.max 0 (v_pos v - offset) ->
    (byte_at st0 p b -> byte_at st p b) ->
    match ecryptfs_write_loop fuel e data offset size k v st with
    | Ok (Next, _) st' => byte_at st0 p b -> byte_at st' p b
    | _ => True
    end.
Proof.
  intros Hoff Hsize Hmax Hp fuel.
  induction fuel as [|fuel IH]; intros k v st Hwf Hpos Hdoff Hkept;
    cbn [ecryptfs_write_loop]; rewrite !u64_small by lia;
    destruct (Z.ltb_spec (v_pos v) (offset + size)) as [Hlt|Hge]; auto.
  pose proof (ecryptfs_write_body_spec e data offset size Hoff Hsize Hmax k v st
                Hwf ltac:(lia) Hlt Hdoff) as Hbody.
  destruct (write_num_bytes_spec offset size (v_pos v) ltac:(lia) Hsize Hlt Hmax)
    as (Hn1 & Hnfit & Hnend & _).
  destruct (ecryptfs_write_body e data offset size k v st) as [[c v'] st'| |]; auto.
  destruct c; auto.
  cbv zeta in Hbody.
  destruct Hbody as (Hpos' & _ & Hdoff' & pg' & Ht & Hlen & Hup & _ & Hkeep & _).
  apply IH.
  - eapply touched_wf; eauto.
  - lia.
  - exact Hdoff'.
  - intros H0. destruct (Hkept H0) as (pg0 & Hpg0 & Hup0 & Hb0).
    destruct (Z.eq_dec (p / PAGE_SIZE) (v_pos v / PAGE_SIZE)) as [Hsame|Hother].
    + exists pg'. rewrite Hsame. split; [eapply touched_same; eauto|].
      split; [exact Hup|].
      rewrite Hsame in Hpg0. rewrite (Hkeep pg0 Hpg0 Hup0); [exact Hb0|].
      apply same_page_before; [assumption|lia].
    + exists pg0. rewrite (touched_other _ _ _ _ _ Ht Hother). auto.
Qed.

(** A completed [ecryptfs_write] changes no byte in front of its walk:
    whatever byte an up-to-date cached page held at a position before
    [min(offset, size of the file)], the file holds at that position
    after a call that returned 0, in every mode and environment. *)
Theorem write_keeps_bytes_before_the_walk e st data offset size p b :
  wf_cache st ->
  0 <= i_size st -> 0 <= offset -> 0 <= size -> offset + size < 2 ^ 63 ->
  0 <= p < write_start offset (i_size st) ->
  byte_at st p b ->
  match ecryptfs_write e st data offset size with
  | Ok rc st' => rc = 0 -> file_byte st' p = Some b
  | Crash _ => True
  | OutOfFuel => False
  end.
Proof.
  intros Hwf Hfs Hoff Hsize Hmax Hp Hb.
  destruct (ecryptfs_write_spec e st data offset size Hwf Hfs Hoff Hsize Hmax)
    as (Hspec & _).
  revert Hspec. unfold ecryptfs_write.
  set (lo := write_start offset (i_size st)) in *.
  assert (Hlo : 0 <= lo <= offset /\ lo <= i_size st).
  { unfold lo, write_start. case_cmp; lia. }
  pose proof (ecryptfs_write_loop_keeps e data offset size lo p b st Hoff Hsize Hmax Hp
                (walk_fuel offset size lo) O (WVars lo 0 0) st Hwf
                ltac:(cbn [v_pos]; lia) ltac:(cbn [v_pos v_data_offset]; lia)
                ltac:(auto)) as Hkept.
  pose proof (ecryptfs_write_loop_spec e data offset size Hoff Hsize Hmax lo ltac:(lia)
                (walk_fuel offset size lo) O (WVars lo 0 0) st Hwf
                ltac:(cbn [v_pos]; lia) eq_refl
                ltac:(cbn [v_pos v_data_offset]; lia)
                ltac:(unfold walk_fuel; cbn [v_pos]; rewrite u64_small by lia; lia)
                ltac:(intros q c Hq; cbn [v_pos] in Hq; lia)) as Hloop.
  destruct (ecryptfs_write_loop _ e data offset size O _ st) as [[c v] st1| |];
    cbn [bind]; auto.
  assert (Hfin : forall s, i_mapping s = i_mapping st1 ->
            byte_at st1 p b -> file_byte s p = Some b).
  { intros s Hs Hb1. apply byte_at_file_byte; [lia|].
    destruct Hb1 as (pg & H1 & H2). exists pg. rewrite Hs. auto. }
  intros _.
  destruct c.
  - specialize (Hkept Hb).
    destruct (v_pos v >? i_size st); [|intros _; apply (Hfin st1); auto].
    destruct (flag_set _ _); [|intros _; apply (Hfin _ eq_refl Hkept)].
    unfold ecryptfs_write_inode_size_to_metadata.
    destruct (size_to_metadata_rc e =? 0); cbn [negb Z.eqb];
      try destruct (negb _); intros _; apply (Hfin _ eq_refl Hkept).
  - destruct (v_pos v >? i_size st).
    + destruct (flag_set _ _).
      * unfold ecryptfs_write_inode_size_to_metadata.
        destruct (Z.eqb_spec (size_to_metadata_rc e) 0) as [H0|H0]; cbn [negb Z.eqb].
        -- intros Hc. contradiction.
        -- destruct (Z.eqb_spec (size_to_metadata_rc e) 0) as [?|_]; [contradiction|].
           cbn [negb]. destruct (Z.eqb_spec (v_rc v) 0); intros Hc; contradiction.
      * intros Hc. contradiction.
    + intros Hc. contradiction.
  - intros Hc. contradiction.
Qed.

Lemma write_keeps_bytes_before_the_walk_witness :
  match ecryptfs_write quiet_env hello_encrypted hello 3 5 with
  | Ok rc st' => rc = 0 -> file_byte st' 1 = Some x45
  | Crash _ => True
  | OutOfFuel => False
  end.
Proof.
  apply (write_keeps_bytes_before_the_walk quiet_env hello_encrypted hello 3 5 1 x45).
  - exact hello_encrypted_wf.
  - cbn [i_size hello_encrypted]. lia.
  - lia.
  - lia.
  - lia.
  - vm_compute. split; [discriminate|reflexivity].
  - exists hello_page. split; [reflexivity|]. split; reflexivity.
Defined.

(** ** The sequential write on a plaintext file *)

(** A data step on a plaintext file hands [kernel_write] the page from
    its start and the number of bytes copied so far in the whole call:
    once that number exceeds a page, the step reads past the page. *)
Lemma ecryptfs_write_body_plaintext e data offset size k v st :
  0 <= offset -> 0 <= size -> offset + size < 2 ^ 63 ->
  fatal_signal_pending e k = false ->
  page_acquire e k (v_pos v / PAGE_SIZE) = AcqPage ->
  encrypted st = false -> lower_file st = true -> wf_cache st ->
  offset <= v_pos v < offset + size -> v_data_offset v = v_pos v - offset ->
  let n := write_num_bytes offset size (v_pos v) in
  (PAGE_SIZE < v_data_offset v + n ->
   ecryptfs_write_body e data offset size k v st = Crash OutOfBounds) /\
  (v_data_offset v + n <= PAGE_SIZE -> 0 <= kernel_write_rc e (v_pos v) ->
   exists st',
     ecryptfs_write_body e data offset size k v st
     = Ok (Next, WVars (v_pos v + n) (v_data_offset v + n) 0) st' /\
     wf_cache st' /\ lower_file st' = true /\ encrypted st' = false).
Proof.
  intros Hoff Hsize Hmax Hsig Hacq Henc Hlf Hwf Hpos Hdoff n.
  pose proof PAGE_SIZE_eq as HP.
  destruct (write_num_bytes_spec offset size (v_pos v) ltac:(lia) Hsize ltac:(lia) Hmax)
    as (Hn1 & Hnfit & Hnend & _). fold n in Hn1, Hnfit, Hnend.
  pose proof (Z.mod_pos_bound (v_pos v) PAGE_SIZE ltac:(lia)) as Hm.
  unfold ecryptfs_write_body, ecryptfs_get_locked_page.
  rewrite page_index_div by lia. set (idx := v_pos v / PAGE_SIZE) in *.
  rewrite Hsig, Hacq. cbn [IS_ERR kmap]. fold n.
  set (pg1 := Page _ true true (S (pg_count (get_page st idx)))).
  assert (Hlen1 : length (pg_data pg1) = Z.to_nat PAGE_SIZE).
  { unfold pg1. cbn [pg_data]. apply (page_in_length st idx Hwf). }
  destruct (write_fill_page_spec st (set_page st idx pg1) idx pg1 data offset (v_pos v)
              (v_data_offset v) n (touched_first st idx pg1) Hlen1 ltac:(lia) Hnfit)
    as (pg2 & Ht2 & Hlen2 & _ & _ & _ & _ & _ & _ & Hdo2).
  destruct (write_fill_page_fields (set_page st idx pg1) idx data offset (v_pos v)
              (v_data_offset v) n) as (_ & Hfl2 & _).
  destruct (write_fill_page_meta (set_page st idx pg1) idx data offset (v_pos v)
              (v_data_offset v) n) as (_ & Hlf2).
  destruct (write_fill_page (set_page st idx pg1) idx data offset (v_pos v)
              (v_data_offset v) n) as [st2 doff2].
  cbn [fst snd] in Ht2, Hdo2, Hfl2, Hlf2.
  change (crypt_flags (set_page st idx pg1)) with (crypt_flags st) in Hfl2.
  change (lower_file (set_page st idx pg1)) with (lower_file st) in Hlf2.
  destruct (Z.leb_spec offset (v_pos v)) as [_|Hc]; [|lia].
  rewrite s64_small in Hdo2 by lia. subst doff2.
  rewrite Hfl2. fold (encrypted st). rewrite Henc.
  unfold ecryptfs_write_lower_page_segment, ecryptfs_write_lower, kernel_write.
  rewrite Hlf2, Hlf. cbn [negb].
  rewrite (touched_get _ _ _ _ Ht2), Hlen2, u64_small by lia.
  rewrite page_base, offset_in_page_mod.
  replace (idx * PAGE_SIZE + v_pos v mod PAGE_SIZE) with (v_pos v)
    by (unfold idx; rewrite HP; Z.div_mod_to_equations; lia).
  rewrite s64_small by lia.
  split.
  - intros Hbig. destruct (Z.ltb_spec (Z.of_nat (Z.to_nat PAGE_SIZE)) (v_data_offset v + n));
      [reflexivity|lia].
  - intros Hfit Hrc.
    destruct (Z.ltb_spec (Z.of_nat (Z.to_nat PAGE_SIZE)) (v_data_offset v + n)); [lia|].
    destruct (Z.ltb_spec (kernel_write_rc e (v_pos v)) 0); [lia|].
    cbn [bind]. rewrite s32_small by lia.
    destruct (Z.gtb_spec (v_data_offset v + n) 0); [|lia].
    cbn [Z.eqb negb]. rewrite s64_small by lia.
    eexists. split; [reflexivity|].
    split.
    { eapply (touched_wf st);
        [exact Hwf|apply touched_put, touched_dirty, touched_lower, Ht2|exact Hlen2]. }
    split; [transitivity (lower_file st2); [reflexivity|congruence]|].
    transitivity (encrypted st2); [reflexivity|].
    unfold encrypted in *. rewrite Hfl2. exact Henc.
Qed.

(** On a plaintext file, [ecryptfs_write] of more than a page of data
    reads past the end of a mapped page: the second step passes the
    cumulative count of bytes copied, which is then larger than a page,
    as the length of the segment that [ecryptfs_write_lower_page_segment]
    takes from the start of the mapped page.  The C code does not check
    that length against the page; the outcome [Crash OutOfBounds] is
    this read, the first memory-unsafe step of the run, and says nothing
    of what the C program does after it. *)
Theorem write_plaintext_beyond_a_page_overruns e st data offset size :
  encrypted st = false -> lower_file st = true -> wf_cache st ->
  fatal_signal_pending e 0%nat = false -> fatal_signal_pending e 1%nat = false ->
  page_acquire e 0%nat (offset / PAGE_SIZE) = AcqPage ->
  page_acquire e 1%nat (offset / PAGE_SIZE + 1) = AcqPage ->
  0 <= kernel_write_rc e offset ->
  0 <= offset <= i_size st -> PAGE_SIZE < size -> offset + size < 2 ^ 63 ->
  ecryptfs_write e st data offset size = Crash OutOfBounds.
Proof.
  intros Henc Hlf Hwf Hsig0 Hsig1 Hacq0 Hacq1 Hrc Hoff Hsize Hmax.
  pose proof PAGE_SIZE_eq as HP.
  pose proof (Z.mod_pos_bound offset PAGE_SIZE ltac:(lia)) as Hm.
  unfold ecryptfs_write.
  assert (Hlo : write_start offset (i_size st) = offset).
  { unfold write_start. case_cmp; lia. }
  rewrite Hlo. unfold walk_fuel. rewrite u64_small by lia.
  destruct (Z.to_nat (offset + size - offset)) as [|[|fuel]] eqn:Hfuel; [lia|lia|].
  set (n1 := write_num_bytes offset size offset).
  assert (Hn1 : n1 = PAGE_SIZE - offset mod PAGE_SIZE).
  { destruct (write_num_bytes_spec offset size offset ltac:(lia) ltac:(lia) ltac:(lia) Hmax)
      as (_ & _ & _ & _ & Hneq).
    unfold n1. rewrite Hneq. destruct (Z.ltb_spec offset offset); lia. }
  destruct (ecryptfs_write_body_plaintext e data offset size O (WVars offset 0 0) st
              ltac:(lia) ltac:(lia) Hmax Hsig0 Hacq0 Henc Hlf Hwf
              ltac:(cbn [v_pos]; lia) ltac:(cbn [v_pos v_data_offset]; lia))
    as (_ & Hstep1).
  cbn [v_pos v_data_offset] in Hstep1. fold n1 in Hstep1.
  destruct (Hstep1 ltac:(lia) Hrc) as (st1 & Hb1 & Hwf1 & Hlf1 & Henc1).
  cbn [ecryptfs_write_loop v_pos]. rewrite !u64_small by lia.
  destruct (Z.ltb_spec offset (offset + size)) as [_|Hc]; [|lia].
  rewrite Hb1. cbn [v_pos]. rewrite !u64_small by lia.
  destruct (Z.ltb_spec (offset + n1) (offset + size)) as [_|Hc]; [|lia].
  set (n2 := write_num_bytes offset size (offset + n1)).
  assert (Hn2 : n1 + n2 > PAGE_SIZE).
  { destruct (write_num_bytes_spec offset size (offset + n1) ltac:(lia) ltac:(lia)
                ltac:(lia) Hmax) as (_ & _ & _ & _ & Hneq).
    fold n2 in Hneq.
    assert (Hal : (offset + n1) mod PAGE_SIZE = 0).
    { rewrite Hn1, HP. Z.div_mod_to_equations. lia. }
    rewrite Hal in Hneq.
    destruct (Z.ltb_spec (offset + n1) offset); lia. }
  assert (Hidx : (offset + n1) / PAGE_SIZE = offset / PAGE_SIZE + 1).
  { rewrite Hn1, HP. Z.div_mod_to_equations. lia. }
  destruct (ecryptfs_write_body_plaintext e data offset size 1%nat
              (WVars (offset + n1) (0 + n1) 0) st1
              ltac:(lia) ltac:(lia) Hmax Hsig1
              ltac:(cbn [v_pos]; rewrite Hidx; exact Hacq1) Henc1 Hlf1 Hwf1
              ltac:(cbn [v_pos]; lia) ltac:(cbn [v_pos v_data_offset]; lia))
    as (Hstep2 & _).
  cbn [v_pos v_data_offset] in Hstep2. fold n2 in Hstep2.
  rewrite (Hstep2 ltac:(lia)). reflexivity.
Qed.

Lemma write_plaintext_beyond_a_page_overruns_witness :
  ecryptfs_write quiet_env hello_plain (replicate 4097 x58) 0 4097 = Crash OutOfBounds.
Proof.
  apply (write_plaintext_beyond_a_page_overruns quiet_env hello_plain
           (replicate 4097 x58) 0 4097).
  - reflexivity.
  - reflexivity.
  - exact hello_plain_wf.
  - reflexivity.
  - reflexivity.
  - reflexivity.
  - reflexivity.
  - cbn [kernel_write_rc quiet_env]. lia.
  - cbn [i_size hello_plain]. lia.
  - rewrite PAGE_SIZE_eq. lia.
  - lia.
Defined.

(** ** The pages of a batched read, phase by phase *)

(** The acquisition loop locks and references the pages [j .. nr-1]. *)
Lemma ecryptfs_read2_grab_pages e nr st0 :
  (forall k idx, page_acquire e k idx = AcqPage) ->
  0 <= nr < 2 ^ 31 ->
  forall fuel j a st,
    0 <= j <= nr ->
    (forall idx, get_page st idx
                 = if decide (0 <= idx < j) then lock_and_get (get_page st0 idx)
                   else get_page st0 idx) ->
    match ecryptfs_read2_grab fuel e false nr j 0 (Some a) st with
    | Ok _ st' =>
        forall idx, get_page st' idx
                    = if decide (0 <= idx < nr) then lock_and_get (get_page st0 idx)
                      else get_page st0 idx
    | _ => True
    end.
Proof.
  intros Hacq Hnr fuel.
  induction fuel as [|fuel IH]; intros j a st Hj Hpages;
    cbn [ecryptfs_read2_grab]; rewrite u32_small by lia;
    destruct (Z.ltb_spec j nr) as [Hlt|Hge]; auto.
  - assert (j = nr) as -> by lia. exact Hpages.
  - unfold grab_cache_page. rewrite Hacq. cbn [bind].
    unfold array_set. destruct ((j <? 0) || (Z.of_nat (length a) <=? j)); [exact I|].
    rewrite u32_small by lia.
    apply IH; [lia|].
    intros idx. destruct (Z.eq_dec idx j) as [->|Hne].
    + rewrite get_page_set_page, Hpages.
      rewrite decide_False, decide_True by lia. reflexivity.
    + rewrite get_page_set_page_other, Hpages by exact Hne.
      destruct (decide (0 <= idx < j)); destruct (decide (0 <= idx < j + 1));
        try lia; reflexivity.
  - assert (j = nr) as -> by lia. exact Hpages.
Qed.

Lemma fold_fill_page_pages : forall l st idx,
  get_page (fold_left fill_page l st) idx
  = if decide (idx ∈ l) then refill_page (lower_page st idx) (get_page st idx)
    else get_page st idx.
Proof.
  induction l as [|j l IH]; intros st idx; cbn [fold_left].
  - rewrite decide_False by apply not_elem_of_nil. reflexivity.
  - rewrite IH.
    assert (Hl : lower_page (fill_page st j) idx = lower_page st idx) by reflexivity.
    rewrite Hl.
    assert (Hg : get_page (fill_page st j) idx
                 = if decide (idx = j) then refill_page (lower_page st j) (get_page st j)
                   else get_page st idx).
    { unfold fill_page. rewrite set_page_data_get. reflexivity. }
    rewrite Hg.
    destruct (decide (idx ∈ j :: l)) as [Hin'|Hnin']; destruct (decide (idx ∈ l));
      destruct (decide (idx = j)); try subst idx; try reflexivity; exfalso.
    + apply elem_of_cons in Hin' as [?|?]; contradiction.
    + apply Hnin', elem_of_cons. left. reflexivity.
    + apply Hnin', elem_of_cons. right. assumption.
    + apply Hnin', elem_of_cons. left. reflexivity.
Qed.

(** The group decryption refills the pages of the batch when it
    succeeds and changes nothing when it fails. *)
Lemma ecryptfs_decrypt_pages_pages e st a nr :
  0 <= nr -> length a = Z.to_nat nr -> batch_filled a nr ->
  exists st',
    ecryptfs_decrypt_pages e st (Some a) nr = Ok (decrypt_pages_rc e) st' /\
    forall idx, get_page st' idx
                = if decide (0 <= idx < nr /\ decrypt_pages_rc e = 0)
                  then refill_page (lower_page st idx) (get_page st idx)
                  else get_page st idx.
Proof.
  intros Hnr Hlen Hfill. unfold ecryptfs_decrypt_pages.
  rewrite (batch_indices_filled a nr Hlen Hfill) by lia.
  rewrite Z2Nat.id by lia.
  destruct (Z.eqb_spec (decrypt_pages_rc e) 0) as [H0|H0].
  - rewrite H0. eexists. split; [reflexivity|].
    intros idx. rewrite fold_fill_page_pages.
    destruct (decide (idx ∈ seqZ 0 nr)) as [Hin|Hnin].
    + apply elem_of_seqZ in Hin. rewrite decide_True by lia. reflexivity.
    + rewrite decide_False; [reflexivity|].
      intros (Hc & _). apply Hnin, elem_of_seqZ. lia.
  - eexists. split; [reflexivity|].
    intros idx. rewrite decide_False by tauto. reflexivity.
Qed.

Lemma read_step_page rc st k idx :
  get_page (put_page (unlock_page (if negb (rc =? 0) then ClearPageUptodate st k
                                   else SetPageUptodate st k) k) k) idx
  = if decide (idx = k) then release_page rc (get_page st k) else get_page st idx.
Proof.
  unfold release_page.
  destruct (decide (idx = k)) as [->|Hne].
  - unfold put_page. rewrite get_page_set_page.
    unfold unlock_page. rewrite get_page_set_page. cbn [pg_data pg_uptodate pg_locked pg_count].
    destruct (rc =? 0); cbn [negb]; unfold ClearPageUptodate, SetPageUptodate;
      rewrite get_page_set_page; reflexivity.
  - unfold put_page. rewrite get_page_set_page_other by exact Hne.
    unfold unlock_page. rewrite get_page_set_page_other by exact Hne.
    destruct (rc =? 0); cbn [negb]; unfold ClearPageUptodate, SetPageUptodate;
      rewrite get_page_set_page_other by exact Hne; reflexivity.
Qed.

(** The copy loop of a read that starts on a page boundary makes as
    many steps as the batch has pages and releases one page per step. *)
Lemma ecryptfs_read2_loop_pages a nr rc offset size st2 :
  length a = Z.to_nat nr -> batch_filled a nr -> 0 <= nr < 2 ^ 31 ->
  0 <= offset -> 0 <= size -> offset + size < 2 ^ 63 ->
  offset mod PAGE_SIZE = 0 -> nr = (size + PAGE_SIZE - 1) / PAGE_SIZE ->
  forall fuel v st,
    offset <= r_pos v <= offset + size -> 0 <= r_page_idx v ->
    (r_pos v < offset + size -> r_pos v = offset + r_page_idx v * PAGE_SIZE) ->
    (r_pos v = offset + size -> r_page_idx v = nr) ->
    (forall idx, get_page st idx
                 = if decide (0 <= idx < r_page_idx v)
                   then release_page rc (get_page st2 idx) else get_page st2 idx) ->
    match ecryptfs_read2_loop fuel (Some a) rc offset size v st with
    | Ok _ st' =>
        forall idx, get_page st' idx
                    = if decide (0 <= idx < nr)
                      then release_page rc (get_page st2 idx) else get_page st2 idx
    | _ => True
    end.
Proof.
  intros Hlen Hfill Hnr Hoff Hsize Hmax Halign Hnreq fuel.
  pose proof PAGE_SIZE_eq as HP.
  induction fuel as [|fuel IH]; intros v st Hpos Hk Hstep Hlast Hpages;
    cbn [ecryptfs_read2_loop]; rewrite !u64_small by lia;
    destruct (Z.ltb_spec (r_pos v) (offset + size)) as [Hlt|Hge]; auto.
  - rewrite <- (Hlast ltac:(lia)). exact Hpages.
  - specialize (Hstep Hlt).
    assert (Hslot : r_page_idx v < nr).
    { rewrite Hnreq, HP in *.
      enough (r_page_idx v + 1 <= (size + 4096 - 1) / 4096) by lia.
      apply Z.div_le_lower_bound; lia. }
    assert (Hmod : r_pos v mod PAGE_SIZE = 0).
    { rewrite Hstep, Z.mod_add by lia. exact Halign. }
    unfold ecryptfs_read2_body, array_get.
    destruct (Z.ltb_spec (r_page_idx v) 0) as [Hc|_]; [lia|].
    destruct (Z.leb_spec (Z.of_nat (length a)) (r_page_idx v)) as [Hc|_]; [lia|].
    cbn [orb]. rewrite (Hfill (r_page_idx v)) by lia.
    cbn [IS_ERR kmap].
    rewrite offset_in_page_mod, Hmod, Z.sub_0_r.
    rewrite (u64_small (offset + size)) by lia.
    rewrite (u64_small (offset + size - r_pos v)) by lia.
    set (n := if PAGE_SIZE >? offset + size - r_pos v then offset + size - r_pos v
              else PAGE_SIZE).
    assert (Hn : 1 <= n <= PAGE_SIZE /\ r_pos v + n <= offset + size /\
                 (r_pos v + n < offset + size -> n = PAGE_SIZE)).
    { unfold n. case_cmp; lia. }
    set (st' := put_page _ _).
    assert (Hpages' : forall idx, get_page st' idx
              = if decide (0 <= idx < r_page_idx v + 1)
                then release_page rc (get_page st2 idx) else get_page st2 idx).
    { intros idx. unfold st'. rewrite read_step_page.
      destruct (decide (idx = r_page_idx v)) as [->|Hne].
      - rewrite Hpages.
        destruct (decide (0 <= r_page_idx v < r_page_idx v)); [lia|].
        destruct (decide (0 <= r_page_idx v < r_page_idx v + 1)); [reflexivity|lia].
      - rewrite Hpages.
        destruct (decide (0 <= idx < r_page_idx v));
          destruct (decide (0 <= idx < r_page_idx v + 1)); try lia; reflexivity. }
    apply IH; cbn [r_pos r_page_idx]; rewrite ?s64_small, ?u32_small by lia.
    + lia.
    + lia.
    + intros Hmore. destruct Hn as (_ & _ & Hfull). rewrite (Hfull Hmore), Hstep. lia.
    + intros Hend. rewrite Hnreq, HP in *.
      apply Z.div_unique with (r := size + 4095 - 4096 * (r_page_idx v + 1)); lia.
    + exact Hpages'.
  - rewrite <- (Hlast ltac:(lia)). exact Hpages.
Qed.

(** A read with decryption that starts on a page boundary inside the
    file returns, and leaves each page of its batch refilled from the
    lower file when the decryption succeeded, marked by the status of
    the decryption, unlocked and with the references it had. *)
Lemma ecryptfs_read2_aligned_pages e st data offset size :
  needs_decrypt st = true -> kmalloc_ok e = true ->
  (forall k idx, page_acquire e k idx = AcqPage) ->
  wf_cache st ->
  0 <= offset < i_size st -> offset mod PAGE_SIZE = 0 -> i_size st < 2 ^ 62 ->
  0 <= size -> clamped_size st size < 2 ^ 31 ->
  length data = Z.to_nat size ->
  exists buf st',
    ecryptfs_read2 e st data offset size = Ok (clamped_size st size, buf) st' /\
    (forall idx,
       get_page st' idx
       = if decide (0 <= idx < batch_pages st size)
         then release_page (decrypt_pages_rc e)
                (if decide (0 <= idx < batch_pages st size /\ decrypt_pages_rc e = 0)
                 then refill_page (lower_page st idx) (lock_and_get (get_page st idx))
                 else lock_and_get (get_page st idx))
         else get_page st idx) /\
    (forall j, 0 <= j < clamped_size st size ->
       0 <= batch_slot offset (offset + j) < batch_pages st size /\
       buf !! Z.to_nat j
       = pg_data (get_page st' (batch_slot offset (offset + j)))
           !! Z.to_nat ((offset + j) mod PAGE_SIZE)).
Proof.
  intros Hdec Hkm Hacq Hwf Hoff Halign Hfs Hsize Hclamp Hdata.
  pose proof PAGE_SIZE_eq as HP.
  pose proof (ecryptfs_read2_spec e st data offset size Hdec Hkm Hacq Hwf Hoff Hfs
                Hsize Hclamp Hdata) as Hspec.
  revert Hspec. unfold ecryptfs_read2.
  rewrite (u64_small (i_size st)) by lia.
  set (size' := if size >? i_size st then i_size st else size).
  assert (Hsz : size' = clamped_size st size).
  { unfold size', clamped_size. case_cmp; lia. }
  assert (Hsz0 : 0 <= size' < 2 ^ 31).
  { rewrite Hsz. unfold clamped_size in *. lia. }
  assert (Hsz1 : size' <= size /\ size' <= i_size st).
  { rewrite Hsz. unfold clamped_size. lia. }
  set (nr := s32 (Z.shiftr (u64 (size' + PAGE_SIZE - 1)) PAGE_SHIFT)).
  assert (Hnr : nr = batch_pages st size /\ 0 <= nr < 2 ^ 31).
  { unfold nr, batch_pages. rewrite <- Hsz.
    rewrite u64_small by (rewrite PAGE_SIZE_eq; lia).
    rewrite Z.shiftr_div_pow2 by (unfold PAGE_SHIFT; lia).
    change (2 ^ PAGE_SHIFT) with PAGE_SIZE.
    assert (0 <= (size' + PAGE_SIZE - 1) / PAGE_SIZE < 2 ^ 31).
    { rewrite PAGE_SIZE_eq. split; [apply Z.div_pos; lia|].
      apply Z.div_lt_upper_bound; lia. }
    rewrite s32_small by lia. auto. }
  destruct Hnr as (Hnreq & Hnr).
  rewrite <- Hnreq, <- Hsz. clearbody nr.
  unfold needs_decrypt in Hdec. apply andb_true_iff in Hdec as (Henc & Hview).
  rewrite Henc. apply negb_true_iff in Hview. rewrite Hview.
  cbn [negb orb andb].
  unfold kmalloc_pages. rewrite Hkm.
  destruct (Z.ltb_spec nr 0) as [Hneg|_]; [lia|].
  cbn [negb orb andb is_null].
  rewrite u32_small by lia.
  destruct (ecryptfs_read2_grab_spec e nr st Hacq Hnr (Z.to_nat nr) 0
              (replicate (Z.to_nat nr) None) st)
    as (a & st1 & Hgrab & Hlen & Hfill & Hfr1 & Hwf1 & Hsome1).
  { lia. } { f_equal; lia. } { apply length_replicate. } { intros i Hi; lia. }
  { apply batch_frame_refl. } { exact Hwf. } { intros i Hi; lia. }
  pose proof (ecryptfs_read2_grab_pages e nr st Hacq Hnr (Z.to_nat nr) 0
                (replicate (Z.to_nat nr) None) st ltac:(lia)) as Hp1.
  rewrite Hgrab in Hp1 |- *. cbn [bind].
  specialize (Hp1 ltac:(intros idx; rewrite decide_False by lia; reflexivity)).
  destruct (ecryptfs_decrypt_pages_pages e st1 a nr ltac:(lia) Hlen Hfill)
    as (st2 & Hdecr & Hp2).
  rewrite Hdecr. cbn [bind].
  destruct (Z.geb_spec offset (i_size st)) as [Hpast|_]; [lia|].
  pose proof (ecryptfs_read2_loop_pages a nr (decrypt_pages_rc e) offset size' st2
                Hlen Hfill Hnr ltac:(lia) ltac:(lia) ltac:(lia) Halign
                ltac:(rewrite Hnreq, Hsz; reflexivity)
                (walk_fuel offset size' offset) (RVars offset 0 0 0 0 data) st2)
    as Hp3.
  cbn [r_pos r_page_idx] in Hp3.
  specialize (Hp3 ltac:(lia) ltac:(lia) ltac:(intros _; lia)).
  specialize (Hp3 ltac:(intros He; assert (size' = 0) by lia;
                        rewrite Hnreq; unfold batch_pages; rewrite <- Hsz;
                        replace size' with 0 by lia; reflexivity)).
  specialize (Hp3 ltac:(intros idx; rewrite decide_False by lia; reflexivity)).
  destruct (ecryptfs_read2_loop _ (Some a) _ offset size' _ st2) as [[c v] st3| |];
    cbn [bind].
  - intros (Hn & _ & _ & _ & _ & Hbuf).
    eexists _, _. split; [rewrite Hn; reflexivity|].
    split; [|rewrite <- Hn; exact Hbuf].
    intros idx.
    change (get_page (set_accessed st3) idx) with (get_page st3 idx).
    rewrite Hp3. destruct (decide (0 <= idx < nr)) as [Hin|Hout].
    + rewrite Hp2, Hp1. rewrite (decide_True (P := 0 <= idx < nr)) by exact Hin.
      rewrite (lower_page_frame st st1 idx) by apply Hfr1.
      destruct (decide (0 <= idx < nr /\ decrypt_pages_rc e = 0)); reflexivity.
    + rewrite Hp2, Hp1.
      rewrite (decide_False (P := 0 <= idx < nr /\ decrypt_pages_rc e = 0)) by tauto.
      rewrite (decide_False (P := 0 <= idx < nr)) by exact Hout. reflexivity.
  - intros Hcrash. exfalso. unfold batch_slot in Hcrash.
    rewrite Hnreq in Hnr. unfold batch_pages in *. rewrite <- Hsz in *.
    rewrite HP in *. Z.div_mod_to_equations. lia.
  - intros Hc. contradiction.
Qed.

(** Lock discipline of the batched read where it holds: a read with
    decryption that starts on a page boundary inside the file returns
    with every page at the reference count it had and no page left
    locked, whether or not the decryption succeeded; each page of the
    batch is marked up to date exactly when the decryption succeeded. *)
Theorem read2_aligned_releases_every_page e st data offset size :
  needs_decrypt st = true -> kmalloc_ok e = true ->
  (forall k idx, page_acquire e k idx = AcqPage) ->
  wf_cache st ->
  0 <= offset < i_size st -> offset mod PAGE_SIZE = 0 -> i_size st < 2 ^ 62 ->
  0 <= size -> clamped_size st size < 2 ^ 31 ->
  length data = Z.to_nat size ->
  exists buf st',
    ecryptfs_read2 e st data offset size = Ok (clamped_size st size, buf) st' /\
    balanced st st' /\
    forall idx, 0 <= idx < batch_pages st size ->
      pg_uptodate (get_page st' idx) = (decrypt_pages_rc e =? 0).
Proof.
  intros Hdec Hkm Hacq Hwf Hoff Halign Hfs Hsize Hclamp Hdata.
  destruct (ecryptfs_read2_aligned_pages e st data offset size Hdec Hkm Hacq Hwf Hoff
              Halign Hfs Hsize Hclamp Hdata) as (buf & st' & Hrun & Hpages & _).
  exists buf, st'. split; [exact Hrun|]. split.
  - intros idx. rewrite Hpages.
    destruct (decide (0 <= idx < batch_pages st size)); [|auto].
    destruct (decide (0 <= idx < batch_pages st size /\ decrypt_pages_rc e = 0));
      cbn [release_page refill_page lock_and_get pg_count pg_locked Nat.pred];
      (split; [reflexivity|discriminate]).
  - intros idx Hidx. rewrite Hpages, decide_True by exact Hidx. reflexivity.
Qed.

Lemma read2_aligned_releases_every_page_witness :
  exists buf st',
    ecryptfs_read2 quiet_env second_page_file (replicate 4097 x2e) 0 4097
    = Ok (clamped_size second_page_file 4097, buf) st' /\
    balanced second_page_file st' /\
    forall idx, 0 <= idx < batch_pages second_page_file 4097 ->
      pg_uptodate (get_page st' idx) = (decrypt_pages_rc quiet_env =? 0).
Proof.
  apply (read2_aligned_releases_every_page quiet_env second_page_file
           (replicate 4097 x2e) 0 4097).
  - reflexivity.
  - reflexivity.
  - reflexivity.
  - exact second_page_file_wf.
  - cbn [i_size second_page_file]. lia.
  - reflexivity.
  - cbn [i_size second_page_file]. lia.
  - lia.
  - vm_compute. reflexivity.
  - apply length_replicate.
Defined.

(** A failed decryption is not reported by [ecryptfs_read2]: a read that
    starts on a page boundary inside the file still returns the full
    clamped count; the bytes it delivers are those the cache held before
    the call, and the pages it copied from are marked not up to date. *)
Theorem read2_failed_decryption_not_reported e st data offset size :
  needs_decrypt st = true -> kmalloc_ok e = true ->
  (forall k idx, page_acquire e k idx = AcqPage) ->
  decrypt_pages_rc e <> 0 ->
  wf_cache st ->
  0 <= offset < i_size st -> offset mod PAGE_SIZE = 0 -> i_size st < 2 ^ 62 ->
  0 <= size -> clamped_size st size < 2 ^ 31 ->
  length data = Z.to_nat size ->
  exists buf st',
    ecryptfs_read2 e st data offset size = Ok (clamped_size st size, buf) st' /\
    (forall j, 0 <= j < clamped_size st size ->
       buf !! Z.to_nat j
       = pg_data (get_page st (batch_slot offset (offset + j)))
           !! Z.to_nat ((offset + j) mod PAGE_SIZE)) /\
    (forall idx, 0 <= idx < batch_pages st size ->
       pg_uptodate (get_page st' idx) = false).
Proof.
  intros Hdec Hkm Hacq Hrc Hwf Hoff Halign Hfs Hsize Hclamp Hdata.
  destruct (ecryptfs_read2_aligned_pages e st data offset size Hdec Hkm Hacq Hwf Hoff
              Halign Hfs Hsize Hclamp Hdata) as (buf & st' & Hrun & Hpages & Hbuf).
  assert (Hpg : forall idx, 0 <= idx < batch_pages st size ->
            get_page st' idx
            = release_page (decrypt_pages_rc e) (lock_and_get (get_page st idx))).
  { intros idx Hidx. rewrite Hpages, decide_True by exact Hidx.
    rewrite decide_False by tauto. reflexivity. }
  exists buf, st'. split; [exact Hrun|]. split.
  - intros j Hj. destruct (Hbuf j Hj) as (Hslot & ->).
    rewrite (Hpg _ Hslot). reflexivity.
  - intros idx Hidx. rewrite (Hpg _ Hidx). cbn [release_page pg_uptodate].
    apply Z.eqb_neq, Hrc.
Qed.

Lemma read2_failed_decryption_not_reported_witness :
  exists buf st',
    ecryptfs_read2
      (Env (fun _ => false) (fun _ _ => AcqPage) (fun _ => 0) (fun _ => 0) 0 (- EIO)
           (fun _ => 0) 0 true)
      hello_encrypted (replicate 5 x2e) 0 5
    = Ok (clamped_size hello_encrypted 5, buf) st' /\
    (forall j, 0 <= j < clamped_size hello_encrypted 5 ->
       buf !! Z.to_nat j
       = pg_data (get_page hello_encrypted (batch_slot 0 (0 + j)))
           !! Z.to_nat ((0 + j) mod PAGE_SIZE)) /\
    (forall idx, 0 <= idx < batch_pages hello_encrypted 5 ->
       pg_uptodate (get_page st' idx) = false).
Proof.
  apply (read2_failed_decryption_not_reported _ hello_encrypted (replicate 5 x2e) 0 5).
  - reflexivity.
  - reflexivity.
  - reflexivity.
  - cbn [decrypt_pages_rc]. unfold EIO. lia.
  - exact hello_encrypted_wf.
  - cbn [i_size hello_encrypted]. lia.
  - reflexivity.
  - cbn [i_size hello_encrypted]. lia.
  - lia.
  - vm_compute. reflexivity.
  - reflexivity.
Defined.

(** ** The batched write on an encrypted file, page-aligned *)

(** A data step of the batched write on an encrypted file: the page is
    acquired without being filled, takes the caller's bytes of the step,
    is marked up to date and unlocked, and goes into the next slot of
    the array with its reference; nothing is persisted. *)
Lemma ecryptfs_write2_body_data e data offset size k v st a :
  0 <= offset -> 0 <= size -> offset + size < 2 ^ 63 ->
  page_acquire e k (b_pos v / PAGE_SIZE) = AcqPage ->
  encrypted st = true -> wf_cache st ->
  b_pgs v = Some a -> 0 <= b_i v < Z.of_nat (length a) -> b_i v + 1 < 2 ^ 31 ->
  offset <= b_pos v < offset + size -> b_data_offset v = b_pos v - offset ->
  let n := write_num_bytes offset size (b_pos v) in
  let idx := b_pos v / PAGE_SIZE in
  exists st' pg',
    ecryptfs_write2_body e data offset size k v st
    = Ok (Next, W2Vars (b_pos v + n) (b_data_offset v + n) (b_rc v) (b_i v + 1)
                  (Some (<[Z.to_nat (b_i v) := Some (PPage idx)]> a))) st' /\
    touched st st' idx pg' /\
    length (pg_data pg') = Z.to_nat PAGE_SIZE /\
    pg_uptodate pg' = true /\ pg_locked pg' = false /\
    pg_count pg' = S (pg_count (get_page st idx)) /\
    (forall i b, 0 <= i < n -> data !! Z.to_nat (b_pos v - offset + i) = Some b ->
                 pg_data pg' !! Z.to_nat (b_pos v mod PAGE_SIZE + i) = Some b) /\
    lower_data st' = lower_data st /\
    (forall i, 0 <= i < b_pos v mod PAGE_SIZE ->
               pg_data pg' !! Z.to_nat i = pg_data (get_page st idx) !! Z.to_nat i).
Proof.
  intros Hoff Hsize Hmax Hacq Henc Hwf Hpgs Hi Hint Hpos Hdoff n idx.
  pose proof PAGE_SIZE_eq as HP.
  destruct (write_num_bytes_spec offset size (b_pos v) ltac:(lia) Hsize ltac:(lia) Hmax)
    as (Hn1 & Hnfit & Hnend & _). fold n in Hn1, Hnfit, Hnend.
  pose proof (Z.mod_pos_bound (b_pos v) PAGE_SIZE ltac:(lia)) as Hm.
  unfold ecryptfs_write2_body, grab_cache_page_write_begin, grab_cache_page.
  rewrite page_index_div by lia. fold idx. fold idx in Hacq.
  rewrite Hacq. cbn [IS_ERR kmap]. fold n.
  set (pg1 := lock_and_get (get_page st idx)).
  assert (Hlen1 : length (pg_data pg1) = Z.to_nat PAGE_SIZE).
  { unfold pg1, lock_and_get. cbn [pg_data]. apply get_page_length, Hwf. }
  destruct (write_fill_page_spec st (set_page st idx pg1) idx pg1 data offset (b_pos v)
              (b_data_offset v) n (touched_first st idx pg1) Hlen1 ltac:(lia) Hnfit)
    as (pg2 & Ht2 & Hlen2 & Hup2 & Hlk2 & Hc2 & _ & Hkeep & Hcopy & Hdo2).
  destruct (write_fill_page_fields (set_page st idx pg1) idx data offset (b_pos v)
              (b_data_offset v) n) as (_ & Hfl2 & Hlow2).
  destruct (write_fill_page (set_page st idx pg1) idx data offset (b_pos v)
              (b_data_offset v) n) as [st2 doff2].
  cbn [fst snd] in Ht2, Hdo2, Hfl2, Hlow2.
  change (crypt_flags (set_page st idx pg1)) with (crypt_flags st) in Hfl2.
  change (lower_data (set_page st idx pg1)) with (lower_data st) in Hlow2.
  destruct (Z.leb_spec offset (b_pos v)) as [_|Hc]; [|lia].
  rewrite s64_small in Hdo2 by lia. subst doff2.
  rewrite Hfl2. fold (encrypted st). rewrite Henc, Hpgs.
  unfold array_set.
  destruct (Z.ltb_spec (b_i v) 0) as [Hc|_]; [lia|].
  destruct (Z.leb_spec (Z.of_nat (length a)) (b_i v)) as [Hc|_]; [lia|].
  cbn [orb]. rewrite s64_small, s32_small by lia.
  exists st2, pg2. split; [reflexivity|].
  split; [exact Ht2|]. split; [exact Hlen2|]. split; [exact Hup2|].
  split; [exact Hlk2|]. split; [exact Hc2|]. split; [|split; [exact Hlow2|exact Hkeep]].
  intros i b Hib Hb. apply Hcopy; [lia|lia|exact Hib|].
  rewrite Hdoff. exact Hb.
Qed.

(** The walk of a page-aligned batched write that starts inside an
    encrypted file: one page per step, each stored in the next slot. *)
Lemma ecryptfs_write2_loop_written e data offset size st0 rc0 :
  (forall k idx, page_acquire e k idx = AcqPage) ->
  0 <= offset -> 0 <= size -> offset + size < 2 ^ 63 ->
  offset mod PAGE_SIZE = 0 -> write2_pages size < 2 ^ 31 ->
  size <= Z.of_nat (length data) -> encrypted st0 = true ->
  forall fuel k v st a,
    b_rc v = rc0 ->
    b_pgs v = Some a -> Z.of_nat (length a) = write2_pages size ->
    0 <= b_i v -> offset <= b_pos v <= offset + size ->
    b_data_offset v = b_pos v - offset ->
    (b_pos v < offset + size -> b_pos v = offset + b_i v * PAGE_SIZE) ->
    (b_pos v = offset + size -> b_i v = write2_pages size) ->
    batch_from (offset / PAGE_SIZE) a (b_i v) ->
    batch_written st0 st data offset size (offset / PAGE_SIZE) (b_i v) ->
    wf_cache st ->
    (Z.to_nat (offset + size - b_pos v) <= fuel)%nat ->
    exists v' st' a',
      ecryptfs_write2_loop fuel e data offset size k v st = Ok (Next, v') st' /\
      b_pgs v' = Some a' /\ Z.of_nat (length a') = write2_pages size /\
      b_rc v' = rc0 /\
      batch_from (offset / PAGE_SIZE) a' (write2_pages size) /\
      batch_written st0 st' data offset size (offset / PAGE_SIZE) (write2_pages size) /\
      wf_cache st'.
Proof.
  intros Hacq Hoff Hsize Hmax Halign Hint Hdata Henc0 fuel.
  pose proof PAGE_SIZE_eq as HP.
  set (q := offset / PAGE_SIZE).
  assert (Hq : offset = q * PAGE_SIZE).
  { unfold q. rewrite HP in *. Z.div_mod_to_equations. lia. }
  induction fuel as [|fuel IH];
    intros k v st a Hrc0 Hpgs Hlen Hi Hpos Hdoff Hstep Hlast Hfrom Hwr Hwf Hfuel;
    cbn [ecryptfs_write2_loop]; rewrite !u64_small by lia;
    destruct (Z.ltb_spec (b_pos v) (offset + size)) as [Hlt|Hge]; try lia.
  - exists v, st, a. pose proof (Hlast ltac:(lia)) as Hk. rewrite Hk in Hfrom, Hwr.
    auto 10.
  - specialize (Hstep Hlt).
    assert (Hslot : b_i v < write2_pages size).
    { unfold write2_pages. rewrite HP in *.
      enough (b_i v + 1 <= (size + 4096 - 1) / 4096) by lia.
      apply Z.div_le_lower_bound; lia. }
    assert (Hmod : b_pos v mod PAGE_SIZE = 0).
    { rewrite Hstep, Z.mod_add by lia. exact Halign. }
    assert (Hidx : b_pos v / PAGE_SIZE = q + b_i v).
    { rewrite Hstep, Hq, HP. Z.div_mod_to_equations. lia. }
    destruct Hwr as (Hin & Hout & Hsz & Hfl & Hlow).
    assert (Henc : encrypted st = true) by (unfold encrypted in *; congruence).
    destruct (write_num_bytes_spec offset size (b_pos v) ltac:(lia) Hsize Hlt Hmax)
      as (Hn1 & Hnfit & Hnend & _ & Hneq).
    assert (Hcmp : (b_pos v <? offset) = false) by (apply Z.ltb_ge; lia).
    rewrite Hmod, Hcmp in Hneq.
    destruct (ecryptfs_write2_body_data e data offset size k v st a Hoff Hsize Hmax
                (Hacq _ _) Henc Hwf Hpgs ltac:(lia) ltac:(lia) ltac:(lia) Hdoff)
      as (st' & pg' & Hrun & Ht & Hlen' & Hup' & Hlk' & Hc' & Hcopy & Hlow' & _).
    cbv zeta in Hrun. rewrite Hrun. rewrite Hidx in *.
    set (n := write_num_bytes offset size (b_pos v)) in *.
    apply (IH (S k) _ st' (<[Z.to_nat (b_i v) := Some (PPage (q + b_i v))]> a));
      cbn [b_pgs b_i b_pos b_data_offset b_rc].
    + exact Hrc0.
    + reflexivity.
    + rewrite length_insert. exact Hlen.
    + lia.
    + lia.
    + lia.
    + intros Hmore. rewrite Hstep. lia.
    + intros Hend. unfold write2_pages. rewrite HP in *.
      apply Z.div_unique with (r := size + 4095 - 4096 * (b_i v + 1)); lia.
    + intros i Hi2. destruct (Z.eq_dec i (b_i v)) as [->|Hne].
      * apply list_lookup_insert_eq. lia.
      * rewrite list_lookup_insert_ne by lia. apply Hfrom. lia.
    + split; [|split; [|split; [|split]]].
      * intros idx Hidx2. destruct (Z.eq_dec idx (q + b_i v)) as [->|Hne].
        -- exists pg'. split; [eapply touched_same; eauto|].
           split; [exact Hlen'|]. split; [exact Hup'|]. split; [exact Hlk'|].
           split.
           { rewrite Hc'. unfold get_page. rewrite Hout by lia. reflexivity. }
           intros p Hp Hpage.
           destruct (lookup_lt_is_Some_2 data (Z.to_nat (p - offset)) ltac:(lia))
             as (x & Hx).
           rewrite Hx.
           assert (Hpp : b_pos v <= p < b_pos v + n /\ p mod PAGE_SIZE = p - b_pos v).
           { rewrite HP in *. Z.div_mod_to_equations. lia. }
           replace (p mod PAGE_SIZE) with (b_pos v mod PAGE_SIZE + (p - b_pos v)) by lia.
           apply Hcopy; [lia|].
           replace (b_pos v - offset + (p - b_pos v)) with (p - offset) by lia.
           exact Hx.
        -- destruct (Hin idx ltac:(lia)) as (pg & Hpg & Hrest).
           exists pg. rewrite (touched_other _ _ _ _ _ Ht Hne). auto.
      * intros idx Hidx2. rewrite (touched_other _ _ _ _ _ Ht) by lia.
        apply Hout. lia.
      * destruct Ht as (_ & Hs & _). congruence.
      * destruct Ht as (_ & _ & Hf & _). congruence.
      * congruence.
    + eapply touched_wf; eauto.
    + lia.
  - exists v, st, a. pose proof (Hlast ltac:(lia)) as Hk. rewrite Hk in Hfrom, Hwr.
    auto 10.
Qed.

Lemma batch_indices_from q a nr :
  Z.of_nat (length a) = nr -> batch_from q a nr ->
  forall n i, 0 <= i -> i + Z.of_nat n <= nr ->
    batch_indices (Some a) i n = inr (seqZ (q + i) (Z.of_nat n)).
Proof.
  intros Hlen Hfrom n.
  induction n as [|n IH]; intros i Hi Hn.
  - reflexivity.
  - cbn [batch_indices]. unfold array_get.
    destruct (Z.ltb_spec i 0) as [Hneg|_]; [lia|].
    destruct (Z.leb_spec (Z.of_nat (length a)) i) as [Hout|_]; [lia|].
    cbn [orb]. rewrite (Hfrom i) by lia.
    rewrite IH by lia.
    rewrite (seqZ_cons (q + i) (Z.of_nat (S n))) by lia.
    do 2 f_equal. f_equal; lia.
Qed.

(** The group encryption persists whole pages: the lower file then holds
    the bytes of each page of the batch, and nothing else has changed. *)
Lemma fold_persist_page_spec : forall l st,
  wf_cache st ->
  i_mapping (fold_left persist_page l st) = i_mapping st /\
  i_size (fold_left persist_page l st) = i_size st /\
  crypt_flags (fold_left persist_page l st) = crypt_flags st /\
  (forall p, p / PAGE_SIZE ∉ l ->
     lower_data (fold_left persist_page l st) !! p = lower_data st !! p) /\
  (forall p, p / PAGE_SIZE ∈ l ->
     lower_data (fold_left persist_page l st) !! p
     = pg_data (get_page st (p / PAGE_SIZE)) !! Z.to_nat (p mod PAGE_SIZE)).
Proof.
  induction l as [|j l IH]; intros st Hwf; cbn [fold_left].
  - repeat split; auto. intros p Hp. apply not_elem_of_nil in Hp. contradiction.
  - assert (Hwf1 : wf_cache (persist_page st j)) by exact Hwf.
    destruct (IH (persist_page st j) Hwf1) as (Hm & Hs & Hf & Hout & Hin).
    pose proof (get_page_length st j Hwf) as Hlen.
    assert (Hstep : forall p,
              lower_data (persist_page st j) !! p
              = if decide (p / PAGE_SIZE = j)
                then pg_data (get_page st j) !! Z.to_nat (p mod PAGE_SIZE)
                else lower_data st !! p).
    { intros p. unfold persist_page. cbn [lower_data set_lower_data]. rewrite page_base.
      destruct (decide (p / PAGE_SIZE = j)) as [<-|Hne].
      - destruct (page_span p) as (Hspan & Hrem).
        rewrite store_bytes_lookup_in by (rewrite Hlen; lia).
        rewrite Hrem. reflexivity.
      - apply store_bytes_lookup_out. rewrite Hlen.
        apply other_page_outside in Hne. lia. }
    split; [exact Hm|]. split; [exact Hs|]. split; [exact Hf|]. split.
    + intros p Hp. apply not_elem_of_cons in Hp as (Hne & Hnin).
      rewrite (Hout p Hnin), Hstep, decide_False by exact Hne. reflexivity.
    + intros p Hp. destruct (decide (p / PAGE_SIZE ∈ l)) as [Hl|Hnl].
      * rewrite (Hin p Hl). reflexivity.
      * apply elem_of_cons in Hp as [Heq|?]; [|contradiction].
        rewrite (Hout p Hnl), Hstep, decide_True by exact Heq. rewrite Heq. reflexivity.
Qed.

(** The releases after the group encryption take one reference from each
    page of the batch. *)
Lemma fold_put_page_spec : forall l st,
  NoDup l ->
  (forall idx, i_mapping (fold_left put_page l st) !! idx
               = if decide (idx ∈ l) then Some (unref_page (get_page st idx))
                 else i_mapping st !! idx) /\
  i_size (fold_left put_page l st) = i_size st /\
  crypt_flags (fold_left put_page l st) = crypt_flags st /\
  lower_data (fold_left put_page l st) = lower_data st.
Proof.
  induction l as [|j l IH]; intros st Hnd; cbn [fold_left].
  - split; [|auto]. intros idx.
    destruct (decide (idx ∈ [])) as [Hc|_]; [|reflexivity].
    apply not_elem_of_nil in Hc. contradiction.
  - apply NoDup_cons in Hnd as (Hj & Hnd).
    destruct (IH (put_page st j) Hnd) as (Hm & Hs & Hf & Hl).
    split; [|auto].
    intros idx. rewrite Hm.
    destruct (decide (idx ∈ l)) as [Hin|Hnin].
    + rewrite decide_True by (apply elem_of_cons; right; exact Hin).
      assert (idx <> j) by (intros ->; contradiction).
      unfold put_page at 1. rewrite get_page_set_page_other by assumption. reflexivity.
    + destruct (decide (idx = j)) as [->|Hne].
      * rewrite decide_True by (apply elem_of_cons; left; reflexivity).
        unfold put_page, set_page, set_mapping. cbn [i_mapping].
        rewrite lookup_insert_eq. reflexivity.
      * rewrite decide_False
          by (intros Hc; apply elem_of_cons in Hc as [?|?]; contradiction).
        unfold put_page, set_page, set_mapping. cbn [i_mapping].
        apply lookup_insert_ne. congruence.
Qed.

(** The batched write as a whole, for a request that starts on a page
    boundary inside an encrypted file, with the array allocated and
    every page acquired. *)
Lemma ecryptfs_write2_aligned_spec e st data offset size :
  encrypted st = true -> wf_cache st -> kmalloc_ok e = true ->
  (forall k idx, page_acquire e k idx = AcqPage) ->
  0 <= offset <= i_size st -> i_size st < 2 ^ 63 -> offset mod PAGE_SIZE = 0 ->
  0 <= size -> offset + size < 2 ^ 63 -> size / PAGE_SIZE + 1 < 2 ^ 31 ->
  size <= Z.of_nat (length data) ->
  exists st',
    ecryptfs_write2 e st data offset size
    = Ok (if i_size st <? offset + size then size_to_metadata_rc e
          else encrypt_pages2_rc e) st' /\
    i_size st' = Z.max (i_size st) (offset + size) /\
    (forall i, 0 <= i < size -> file_byte st' (offset + i) = data !! Z.to_nat i) /\
    (encrypt_pages2_rc e = 0 ->
     forall i, 0 <= i < size -> lower_byte st' (offset + i) = data !! Z.to_nat i) /\
    (encrypt_pages2_rc e <> 0 -> lower_data st' = lower_data st) /\
    balanced st st' /\ wf_cache st' /\ crypt_flags st' = crypt_flags st.
Proof.
  intros Henc Hwf Hkm Hacq Hoff Hfs Halign Hsize Hmax Hint Hdata.
  pose proof PAGE_SIZE_eq as HP.
  unfold ecryptfs_write2.
  rewrite (write2_pages_eq size Hsize Hint).
  set (nr := write2_pages size).
  assert (Hnr : 0 <= nr < 2 ^ 31 /\ size <= nr * PAGE_SIZE).
  { unfold nr, write2_pages. rewrite HP in *. split; [split|].
    - apply Z.div_pos; lia.
    - enough ((size + 4096 - 1) / 4096 <= size / 4096 + 1) by lia.
      Z.div_mod_to_equations. lia.
    - Z.div_mod_to_equations. lia. }
  unfold kmalloc_pages. rewrite Hkm.
  destruct (Z.ltb_spec nr 0) as [Hneg|_]; [lia|].
  cbn [orb negb is_null].
  assert (Hws : write_start offset (i_size st) = offset).
  { unfold write_start. destruct (Z.gtb_spec offset (i_size st)); lia. }
  rewrite Hws.
  set (q := offset / PAGE_SIZE).
  assert (Hq : offset = q * PAGE_SIZE).
  { unfold q. rewrite HP in *. Z.div_mod_to_equations. lia. }
  set (a0 := replicate (Z.to_nat nr) None).
  destruct (ecryptfs_write2_loop_written e data offset size st 0 Hacq ltac:(lia) Hsize
              Hmax Halign ltac:(lia) Hdata Henc (walk_fuel offset size offset) O
              (W2Vars offset 0 0 0 (Some a0)) st a0 eq_refl eq_refl)
    as (v' & st1 & a' & Hrun & Hpgs' & Hlen' & Hrc' & Hfrom & Hwr & Hwf1).
  { unfold a0. rewrite length_replicate. fold nr. lia. }
  { cbn [b_i]. lia. }
  { cbn [b_pos]. lia. }
  { cbn [b_pos b_data_offset]. lia. }
  { cbn [b_pos b_i]. lia. }
  { cbn [b_pos b_i]. intros Hend. assert (size = 0) by lia. subst size. reflexivity. }
  { intros i Hi. cbn [b_i] in Hi. lia. }
  { cbn [b_i]. split; [intros idx Hidx; lia|]. auto. }
  { exact Hwf. }
  { unfold walk_fuel. cbn [b_pos]. rewrite u64_small by lia. lia. }
  fold q nr in Hfrom, Hwr, Hlen'.
  rewrite Hrun. cbn [bind].
  destruct Hwr as (Hin & Hout & Hsz1 & Hfl1 & Hlow1).
  fold (encrypted st1).
  assert (Henc1 : encrypted st1 = true) by (unfold encrypted in *; congruence).
  rewrite Henc1, Hpgs'.
  set (l := seqZ q nr).
  assert (Hl : batch_indices (Some a') 0 (Z.to_nat nr) = inr l).
  { rewrite (batch_indices_from q a' nr Hlen' Hfrom) by lia.
    unfold l. rewrite Z.add_0_r, Z2Nat.id by lia. reflexivity. }
  assert (Hlin : forall idx, idx ∈ l <-> q <= idx < q + nr).
  { intros idx. unfold l. rewrite elem_of_seqZ. lia. }
  unfold ecryptfs_encrypt_pages2, put_pages. rewrite Hl.
  set (st2 := if encrypt_pages2_rc e =? 0 then fold_left persist_page l st1 else st1).
  assert (Hep : (if encrypt_pages2_rc e =? 0 then Ok 0 (fold_left persist_page l st1)
                 else Ok (encrypt_pages2_rc e) st1) = Ok (encrypt_pages2_rc e) st2).
  { unfold st2. destruct (Z.eqb_spec (encrypt_pages2_rc e) 0) as [H0|H0];
      [rewrite H0|]; reflexivity. }
  rewrite Hep. cbn [bind].
  assert (Hst2 : i_mapping st2 = i_mapping st1 /\ i_size st2 = i_size st1 /\
                 crypt_flags st2 = crypt_flags st1 /\
                 (encrypt_pages2_rc e = 0 ->
                  forall p, p / PAGE_SIZE ∈ l ->
                    lower_data st2 !! p
                    = pg_data (get_page st1 (p / PAGE_SIZE)) !! Z.to_nat (p mod PAGE_SIZE)) /\
                 (encrypt_pages2_rc e <> 0 -> lower_data st2 = lower_data st1)).
  { unfold st2. destruct (Z.eqb_spec (encrypt_pages2_rc e) 0) as [H0|H0].
    - destruct (fold_persist_page_spec l st1 Hwf1) as (H1 & H2 & H3 & _ & H5).
      repeat split; auto. contradiction.
    - repeat split; auto. contradiction. }
  destruct Hst2 as (Hm2 & Hs2 & Hf2 & Hlo2 & Hlo2').
  destruct (fold_put_page_spec l st2 (NoDup_seqZ q nr)) as (Hm3 & Hs3 & Hf3 & Hlo3).
  set (st3 := fold_left put_page l st2) in *.
  assert (Hpage : forall idx, q <= idx < q + nr ->
            exists pg, i_mapping st3 !! idx = Some (unref_page pg) /\
                       i_mapping st1 !! idx = Some pg).
  { intros idx Hidx. destruct (Hin idx Hidx) as (pg & Hpg & _).
    exists pg. rewrite Hm3, decide_True by (apply Hlin; exact Hidx).
    unfold get_page. rewrite Hm2, Hpg. auto. }
  assert (Hfacts : forall s,
            i_mapping s = i_mapping st3 -> lower_data s = lower_data st3 ->
            (forall i, 0 <= i < size -> file_byte s (offset + i) = data !! Z.to_nat i) /\
            (encrypt_pages2_rc e = 0 ->
             forall i, 0 <= i < size -> lower_byte s (offset + i) = data !! Z.to_nat i) /\
            (encrypt_pages2_rc e <> 0 -> lower_data s = lower_data st) /\
            balanced st s /\ wf_cache s).
  { intros s Hms Hls.
    assert (Hpos : forall i, 0 <= i < size -> q <= (offset + i) / PAGE_SIZE < q + nr).
    { intros i Hi. rewrite HP in *. Z.div_mod_to_equations. nia. }
    split; [|split; [|split; [|split]]].
    - intros i Hi. specialize (Hpos i Hi).
      destruct (Hpage _ Hpos) as (pg & Hpg3 & Hpg1).
      destruct (Hin _ Hpos) as (pg' & Hpg' & _ & _ & _ & _ & Hbytes).
      rewrite Hpg1 in Hpg'. injection Hpg' as <-.
      unfold file_byte. rewrite page_index_div, offset_in_page_mod by lia.
      rewrite Hms, Hpg3. cbn [mbind option_bind unref_page pg_data].
      rewrite (Hbytes (offset + i)) by (try lia; reflexivity).
      f_equal. f_equal. lia.
    - intros H0 i Hi. specialize (Hpos i Hi).
      destruct (Hin _ Hpos) as (pg & Hpg & _ & _ & _ & _ & Hbytes).
      unfold lower_byte. rewrite Hls, Hlo3, (Hlo2 H0) by (apply Hlin; exact Hpos).
      unfold get_page. rewrite Hpg. cbn [from_option id].
      rewrite (Hbytes (offset + i)) by (try lia; reflexivity).
      f_equal. f_equal. lia.
    - intros H0. rewrite Hls, Hlo3, (Hlo2' H0). exact Hlow1.
    - intros idx. unfold get_page. rewrite Hms.
      destruct (decide (q <= idx < q + nr)) as [Hidx|Hidx].
      + destruct (Hpage _ Hidx) as (pg & Hpg3 & Hpg1).
        destruct (Hin _ Hidx) as (pg' & Hpg' & _ & _ & Hlk & Hc & _).
        rewrite Hpg1 in Hpg'. injection Hpg' as <-.
        rewrite Hpg3. cbn [from_option id unref_page pg_count pg_locked].
        rewrite Hc, Hlk. split; [reflexivity|discriminate].
      + rewrite Hm3, decide_False by (rewrite Hlin; exact Hidx).
        rewrite Hm2, (Hout idx Hidx). auto.
    - intros idx pg. rewrite Hms.
      destruct (decide (q <= idx < q + nr)) as [Hidx|Hidx].
      + destruct (Hpage _ Hidx) as (pg1 & Hpg3 & Hpg1).
        destruct (Hin _ Hidx) as (pg' & Hpg' & Hlen1 & _).
        rewrite Hpg1 in Hpg'. injection Hpg' as <-.
        rewrite Hpg3. intros [= <-]. exact Hlen1.
      + rewrite Hm3, decide_False by (rewrite Hlin; exact Hidx).
        rewrite Hm2, (Hout idx Hidx). apply Hwf. }
  clearbody st2. fold st3. clearbody st3.
  rewrite !u64_small by lia.
  destruct (Z.gtb_spec (offset + size) (i_size st)) as [Hext|Hnoext];
    destruct (Z.ltb_spec (i_size st) (offset + size)) as [Hext'|Hnoext']; try lia.
  - rewrite s64_small by lia.
    change (crypt_flags (set_i_size st3 (offset + size))) with (crypt_flags st3).
    rewrite Hf3, Hf2. fold (encrypted st1). rewrite Henc1.
    unfold ecryptfs_write_inode_size_to_metadata.
    destruct (Z.eqb_spec (size_to_metadata_rc e) 0) as [Hmeta|Hmeta].
    + rewrite Hmeta. eexists. split; [reflexivity|].
      split; [cbn [i_size set_lower_size set_i_size]; lia|].
      destruct (Hfacts (set_lower_size (set_i_size st3 (offset + size))
                          (Some (offset + size))) eq_refl eq_refl)
        as (F1 & F2 & F3 & F4 & F5).
      split; [exact F1|]. split; [exact F2|]. split; [exact F3|].
      split; [exact F4|]. split; [exact F5|].
      cbn [crypt_flags set_lower_size set_i_size]. congruence.
    + eexists. split; [reflexivity|].
      split; [cbn [i_size set_i_size]; lia|].
      destruct (Hfacts (set_i_size st3 (offset + size)) eq_refl eq_refl)
        as (F1 & F2 & F3 & F4 & F5).
      split; [exact F1|]. split; [exact F2|]. split; [exact F3|].
      split; [exact F4|]. split; [exact F5|].
      cbn [crypt_flags set_i_size]. congruence.
  - eexists. split; [reflexivity|].
    split; [rewrite Hs3, Hs2, Hsz1; lia|].
    destruct (Hfacts st3 eq_refl eq_refl) as (F1 & F2 & F3 & F4 & F5).
    split; [exact F1|]. split; [exact F2|]. split; [exact F3|].
    split; [exact F4|]. split; [exact F5|].
    congruence.
Qed.

(** Functional correctness of [ecryptfs_write2] for a request that starts
    on a page boundary inside an encrypted file, with the array
    allocated and every page acquired: the call returns, the size is the
    larger of the old size and [offset + size], and every byte of [data]
    is at its position in the page cache.  The lower file holds the data
    too when the group encryption succeeded, and is exactly as before
    when it failed. *)
Theorem write2_aligned_stores_data e st data offset size :
  encrypted st = true -> wf_cache st -> kmalloc_ok e = true ->
  (forall k idx, page_acquire e k idx = AcqPage) ->
  0 <= offset <= i_size st -> i_size st < 2 ^ 63 -> offset mod PAGE_SIZE = 0 ->
  0 <= size -> offset + size < 2 ^ 63 -> size / PAGE_SIZE + 1 < 2 ^ 31 ->
  size <= Z.of_nat (length data) ->
  exists rc st',
    ecryptfs_write2 e st data offset size = Ok rc st' /\
    i_size st' = Z.max (i_size st) (offset + size) /\
    (forall i, 0 <= i < size -> file_byte st' (offset + i) = data !! Z.to_nat i) /\
    (encrypt_pages2_rc e = 0 ->
     forall i, 0 <= i < size -> lower_byte st' (offset + i) = data !! Z.to_nat i) /\
    (encrypt_pages2_rc e <> 0 -> lower_data st' = lower_data st).
Proof.
  intros Henc Hwf Hkm Hacq Hoff Hfs Halign Hsize Hmax Hint Hdata.
  destruct (ecryptfs_write2_aligned_spec e st data offset size Henc Hwf Hkm Hacq Hoff
              Hfs Halign Hsize Hmax Hint Hdata)
    as (st' & Hrun & Hsz & Hcache & Hlower & Hfail & _).
  eexists _, st'. split; [exact Hrun|]. auto.
Qed.

Lemma write2_aligned_stores_data_witness :
  exists rc st',
    ecryptfs_write2 quiet_env hello_encrypted hello 0 5 = Ok rc st' /\
    i_size st' = Z.max (i_size hello_encrypted) (0 + 5) /\
    (forall i, 0 <= i < 5 -> file_byte st' (0 + i) = hello !! Z.to_nat i) /\
    (encrypt_pages2_rc quiet_env = 0 ->
     forall i, 0 <= i < 5 -> lower_byte st' (0 + i) = hello !! Z.to_nat i) /\
    (encrypt_pages2_rc quiet_env <> 0 -> lower_data st' = lower_data hello_encrypted).
Proof.
  apply (write2_aligned_stores_data quiet_env hello_encrypted hello 0 5).
  - reflexivity.
  - exact hello_encrypted_wf.
  - reflexivity.
  - reflexivity.
  - cbn [i_size hello_encrypted]. lia.
  - cbn [i_size hello_encrypted]. lia.
  - reflexivity.
  - lia.
  - lia.
  - vm_compute. reflexivity.
  - cbn [length hello]. lia.
Defined.

(** Lock discipline of the batched write where it holds: a request that
    starts on a page boundary inside an encrypted file, with the array
    allocated and every page acquired, returns with every page at the
    reference count it had and no page left locked, whether or not the
    group encryption succeeded. *)
Theorem write2_aligned_releases_every_page e st data offset size :
  encrypted st = true -> wf_cache st -> kmalloc_ok e = true ->
  (forall k idx, page_acquire e k idx = AcqPage) ->
  0 <= offset <= i_size st -> i_size st < 2 ^ 63 -> offset mod PAGE_SIZE = 0 ->
  0 <= size -> offset + size < 2 ^ 63 -> size / PAGE_SIZE + 1 < 2 ^ 31 ->
  size <= Z.of_nat (length data) ->
  exists rc st',
    ecryptfs_write2 e st data offset size = Ok rc st' /\ balanced st st'.
Proof.
  intros Henc Hwf Hkm Hacq Hoff Hfs Halign Hsize Hmax Hint Hdata.
  destruct (ecryptfs_write2_aligned_spec e st data offset size Henc Hwf Hkm Hacq Hoff
              Hfs Halign Hsize Hmax Hint Hdata)
    as (st' & Hrun & _ & _ & _ & _ & Hbal & _).
  eexists _, st'. split; [exact Hrun|exact Hbal].
Qed.

Lemma write2_aligned_releases_every_page_witness :
  exists rc st',
    ecryptfs_write2 crypto_fail_env second_page_file (replicate 4097 x58) 0 4097
    = Ok rc st' /\
    balanced second_page_file st'.
Proof.
  apply (write2_aligned_releases_every_page crypto_fail_env second_page_file
           (replicate 4097 x58) 0 4097).
  - reflexivity.
  - exact second_page_file_wf.
  - reflexivity.
  - reflexivity.
  - cbn [i_size second_page_file]. lia.
  - cbn [i_size second_page_file]. lia.
  - reflexivity.
  - lia.
  - lia.
  - vm_compute. reflexivity.
  - rewrite length_replicate. lia.
Defined.

(** ** Batched write, then batched read *)

(** Round trip through both batched engines: on an encrypted file, with
    the arrays allocated, every page acquired and the group encryption
    and decryption succeeding, [ecryptfs_write2] of [data] at offset 0
    followed by [ecryptfs_read2] of the same range gives back exactly
    [data], over any number of pages. *)
Theorem write2_then_read2_roundtrip_from_start e st data dest size :
  needs_decrypt st = true -> wf_cache st -> kmalloc_ok e = true ->
  (forall k idx, page_acquire e k idx = AcqPage) ->
  encrypt_pages2_rc e = 0 -> decrypt_pages_rc e = 0 ->
  0 <= i_size st < 2 ^ 62 -> 0 < size < 2 ^ 31 ->
  length data = Z.to_nat size -> length dest = Z.to_nat size ->
  exists rc st1 st2,
    ecryptfs_write2 e st data 0 size = Ok rc st1 /\
    ecryptfs_read2 e st1 dest 0 size = Ok (size, data) st2.
Proof.
  intros Hdec Hwf Hkm Hacq Henc2 Hdrc Hfs Hsize Hdata Hdest.
  pose proof PAGE_SIZE_eq as HP.
  assert (Henc : encrypted st = true).
  { unfold needs_decrypt in Hdec. apply andb_true_iff in Hdec as (H & _). exact H. }
  destruct (ecryptfs_write2_aligned_spec e st data 0 size Henc Hwf Hkm Hacq ltac:(lia)
              ltac:(lia) eq_refl ltac:(lia) ltac:(lia)) as
    (st1 & Hw & Hsz1 & _ & Hlower & _ & _ & Hwf1 & Hfl1).
  { rewrite HP. assert (size / 4096 < 2 ^ 31 - 1); [|lia].
    apply Z.div_lt_upper_bound; lia. }
  { lia. }
  specialize (Hlower Henc2).
  assert (Hdec1 : needs_decrypt st1 = true).
  { unfold needs_decrypt. rewrite Hfl1. exact Hdec. }
  assert (Hcl : clamped_size st1 size = size) by (unfold clamped_size; lia).
  pose proof (ecryptfs_read2_spec e st1 dest 0 size Hdec1 Hkm Hacq Hwf1 ltac:(lia)
                ltac:(lia) ltac:(lia) ltac:(lia) Hdest) as Hread.
  destruct (ecryptfs_read2 e st1 dest 0 size) as [[n buf] st2| |] eqn:Hr.
  - destruct Hread as (Hn & Hlen & _ & _ & Hpages & Hbuf).
    eexists _, st1, st2. split; [exact Hw|].
    rewrite Hcl in *. subst n. rewrite Hr. do 2 f_equal.
    apply list_eq. intros i.
    destruct (Nat.lt_ge_cases i (Z.to_nat size)) as [Hi|Hi].
    + destruct (Hbuf (Z.of_nat i) ltac:(lia)) as (Hslot & Hb).
      rewrite Nat2Z.id in Hb. rewrite Hb.
      rewrite (Hpages Hdrc _ Hslot).
      unfold batch_slot. change (0 / PAGE_SIZE) with 0. rewrite Z.sub_0_r, Z.add_0_l.
      rewrite lower_page_lookup by (apply Z.mod_pos_bound; lia).
      replace (Z.of_nat i / PAGE_SIZE * PAGE_SIZE + Z.of_nat i mod PAGE_SIZE)
        with (0 + Z.of_nat i) by (rewrite HP; Z.div_mod_to_equations; lia).
      pose proof (Hlower (Z.of_nat i) ltac:(lia)) as Hl.
      unfold lower_byte in Hl. rewrite Hl, Nat2Z.id.
      destruct (lookup_lt_is_Some_2 data i ltac:(lia)) as (x & Hx).
      rewrite Hx. reflexivity.
    + rewrite !lookup_ge_None_2 by lia. reflexivity.
  - exfalso. rewrite Hcl in Hread. unfold batch_pages, batch_slot in Hread.
    rewrite Hcl in Hread. rewrite HP in *. Z.div_mod_to_equations. lia.
  - contradiction.
Qed.

Lemma write2_then_read2_roundtrip_from_start_witness :
  exists rc st1 st2,
    ecryptfs_write2 quiet_env (empty_file ECRYPTFS_ENCRYPTED) (replicate 5000 x58) 0 5000
    = Ok rc st1 /\
    ecryptfs_read2 quiet_env st1 (replicate 5000 x2e) 0 5000
    = Ok (5000, replicate 5000 x58) st2.
Proof.
  apply (write2_then_read2_roundtrip_from_start quiet_env
           (empty_file ECRYPTFS_ENCRYPTED) (replicate 5000 x58) (replicate 5000 x2e) 5000).
  - reflexivity.
  - unfold wf_cache, empty_file. cbn [i_mapping]. apply map_Forall_empty.
  - reflexivity.
  - reflexivity.
  - reflexivity.
  - reflexivity.
  - cbn [i_size empty_file]. lia.
  - lia.
  - apply length_replicate.
  - apply length_replicate.
Defined.

(** ** A batched write into a page that is not cached *)

(** [ecryptfs_write2] does not read a page before it overwrites part of
    it: when a request lies inside one page of an encrypted file, does
    not start on the page boundary, and that page is not in the cache,
    the page is created zero-filled, so after the call every byte of the
    page in front of [offset] is zero in the cache and, the group
    encryption having succeeded, in the lower file as well, whatever the
    lower file held there. *)
Theorem write2_partial_page_not_read_first e st data offset size :
  encrypted st = true -> wf_cache st -> kmalloc_ok e = true ->
  page_acquire e O (offset / PAGE_SIZE) = AcqPage ->
  encrypt_pages2_rc e = 0 ->
  i_mapping st !! (offset / PAGE_SIZE) = None ->
  0 <= offset <= i_size st -> i_size st < 2 ^ 63 ->
  0 < size -> offset mod PAGE_SIZE + size <= PAGE_SIZE -> offset + size < 2 ^ 63 ->
  exists rc st',
    ecryptfs_write2 e st data offset size = Ok rc st' /\
    forall p, offset / PAGE_SIZE * PAGE_SIZE <= p < offset ->
      file_byte st' p = Some x00 /\ lower_byte st' p = Some x00.
Proof.
  intros Henc Hwf Hkm Hacq Hrc Hnone Hoff Hfs Hsize Hfit Hmax.
  pose proof PAGE_SIZE_eq as HP.
  pose proof (Z.mod_pos_bound offset PAGE_SIZE ltac:(lia)) as Hm.
  set (idx := offset / PAGE_SIZE) in *.
  unfold ecryptfs_write2.
  rewrite (write2_pages_eq size ltac:(lia))
    by (rewrite HP in *; assert (size / 4096 <= 1) by (Z.div_mod_to_equations; lia); lia).
  assert (Hnr : write2_pages size = 1).
  { unfold write2_pages. rewrite HP in *. Z.div_mod_to_equations. lia. }
  rewrite Hnr. unfold kmalloc_pages. rewrite Hkm. change (1 <? 0) with false.
  cbn [orb negb is_null].
  change (replicate (Z.to_nat 1) None) with [@None pageptr].
  assert (Hws : write_start offset (i_size st) = offset).
  { unfold write_start. destruct (Z.gtb_spec offset (i_size st)); lia. }
  rewrite Hws. unfold walk_fuel. rewrite u64_small by lia.
  destruct (Z.to_nat (offset + size - offset)) as [|fuel] eqn:Hfuel; [lia|].
  cbn [ecryptfs_write2_loop b_pos]. rewrite !u64_small by lia.
  destruct (Z.ltb_spec offset (offset + size)) as [_|Hc]; [|lia].
  assert (Hn : write_num_bytes offset size offset = size).
  { destruct (write_num_bytes_spec offset size offset ltac:(lia) ltac:(lia) ltac:(lia) Hmax)
      as (_ & _ & _ & _ & Hneq).
    rewrite Hneq. destruct (Z.ltb_spec offset offset); lia. }
  destruct (ecryptfs_write2_body_data e data offset size O
              (W2Vars offset 0 0 0 (Some [None])) st [None] ltac:(lia) ltac:(lia) Hmax
              Hacq Henc Hwf eq_refl ltac:(cbn [b_i length]; lia) ltac:(cbn [b_i]; lia)
              ltac:(cbn [b_pos]; lia) ltac:(cbn [b_pos b_data_offset]; lia))
    as (st1 & pg' & Hrun & Ht & Hlen' & _ & _ & _ & _ & Hlow' & Hkeep).
  cbv zeta in Hrun. cbn [b_pos b_data_offset b_rc b_i] in Hrun, Hkeep.
  fold idx in Hrun, Ht, Hkeep. rewrite Hn in Hrun.
  rewrite Hrun.
  assert (Hstop : forall w s,
            b_pos w = offset + size ->
            ecryptfs_write2_loop fuel e data offset size 1 w s = Ok (Next, w) s).
  { intros w s Hw. destruct fuel; cbn [ecryptfs_write2_loop]; rewrite Hw, !u64_small by lia;
      destruct (Z.ltb_spec (offset + size) (offset + size)); try lia; reflexivity. }
  rewrite Hstop by reflexivity. cbn [bind b_pgs b_rc].
  destruct Ht as (Hm1 & Hs1 & Hf1 & _).
  fold (encrypted st1).
  assert (Henc1 : encrypted st1 = true) by (unfold encrypted in *; congruence).
  rewrite Henc1.
  unfold ecryptfs_encrypt_pages2, put_pages.
  change (batch_indices (Some (<[Z.to_nat 0 := Some (PPage idx)]> [None])) 0 (Z.to_nat 1))
    with (@inr fault (list Z) [idx]).
  rewrite Hrc. cbn [Z.eqb bind fold_left].
  set (st3 := put_page (persist_page st1 idx) idx).
  assert (Hget1 : get_page st1 idx = pg').
  { unfold get_page. rewrite Hm1, lookup_insert_eq. reflexivity. }
  assert (Hzero : forall i, 0 <= i < offset mod PAGE_SIZE ->
            pg_data pg' !! Z.to_nat i = Some x00).
  { intros i Hi. rewrite (Hkeep i Hi). unfold get_page. rewrite Hnone.
    cbn [from_option id new_page pg_data]. apply lookup_replicate_2. lia. }
  assert (Hfacts : forall s,
            i_mapping s = i_mapping st3 -> lower_data s = lower_data st3 ->
            forall p, idx * PAGE_SIZE <= p < offset ->
              file_byte s p = Some x00 /\ lower_byte s p = Some x00).
  { intros s Hms Hls p Hp.
    assert (Hpp : p / PAGE_SIZE = idx /\ 0 <= p mod PAGE_SIZE < offset mod PAGE_SIZE
                  /\ p - idx * PAGE_SIZE = p mod PAGE_SIZE /\ 0 <= p < 2 ^ 63).
    { unfold idx in *. rewrite HP in *. Z.div_mod_to_equations. lia. }
    destruct Hpp as (Hpi & Hpm & Hpr & Hp63).
    split.
    - unfold file_byte. rewrite page_index_div, offset_in_page_mod by lia.
      rewrite Hms, Hpi. unfold st3, put_page, set_page, set_mapping. cbn [i_mapping].
      rewrite lookup_insert_eq. cbn [mbind option_bind pg_data].
      change (get_page (persist_page st1 idx) idx) with (get_page st1 idx).
      rewrite Hget1. apply Hzero. lia.
    - unfold lower_byte. rewrite Hls. unfold st3, put_page, set_page, set_mapping.
      cbn [lower_data]. unfold persist_page. cbn [lower_data set_lower_data].
      rewrite page_base, Hget1.
      rewrite store_bytes_lookup_in by (rewrite Hlen'; lia).
      rewrite Hpr. apply Hzero. lia. }
  clearbody st3.
  destruct (offset + size >? i_size st).
  - rewrite s64_small by lia.
    destruct (flag_set _ _).
    + unfold ecryptfs_write_inode_size_to_metadata.
      destruct (size_to_metadata_rc e =? 0); eexists _, _;
        (split; [reflexivity|]); apply Hfacts; reflexivity.
    + eexists _, _. split; [reflexivity|]. apply Hfacts; reflexivity.
  - eexists _, _. split; [reflexivity|]. apply Hfacts; reflexivity.
Qed.

Lemma write2_partial_page_not_read_first_witness :
  exists rc st',
    ecryptfs_write2 quiet_env
      (Inode 5 ECRYPTFS_ENCRYPTED true ∅ (store_bytes ∅ 0 (pg_data hello_page))
             (Some 5) false false)
      [x58] 2 1 = Ok rc st' /\
    forall p, 2 / PAGE_SIZE * PAGE_SIZE <= p < 2 ->
      file_byte st' p = Some x00 /\ lower_byte st' p = Some x00.
Proof.
  apply (write2_partial_page_not_read_first quiet_env
           (Inode 5 ECRYPTFS_ENCRYPTED true ∅ (store_bytes ∅ 0 (pg_data hello_page))
                  (Some 5) false false) [x58] 2 1).
  - reflexivity.
  - unfold wf_cache. cbn [i_mapping]. apply map_Forall_empty.
  - reflexivity.
  - reflexivity.
  - reflexivity.
  - reflexivity.
  - cbn [i_size]. lia.
  - cbn [i_size]. lia.
  - lia.
  - rewrite PAGE_SIZE_eq. change (2 mod 4096) with 2. lia.
  - lia.
Defined.

(** ** The batched read changes no file content *)

Lemma same_file_refl st : same_file st st.
Proof. unfold same_file. auto. Qed.

Lemma same_file_trans st1 st2 st3 :
  same_file st1 st2 -> same_file st2 st3 -> same_file st1 st3.
Proof.
  unfold same_file. intros (A & B & C & D & E) (A' & B' & C' & D' & E').
  repeat split; congruence.
Qed.

Lemma fold_left_same_file (f : inode -> Z -> inode) :
  (forall st j, same_file st (f st j)) ->
  forall l st, same_file st (fold_left f l st).
Proof.
  intros Hf l. induction l as [|j l IH]; intros st; cbn [fold_left].
  - apply same_file_refl.
  - eapply same_file_trans; [apply Hf|apply IH].
Qed.

Lemma readpage_same_file e st j : same_file st (snd (readpage e st j)).
Proof.
  unfold readpage. destruct (readpage_rc e j =? 0); cbn [snd]; unfold same_file; auto.
Qed.

Lemma ecryptfs_read2_grab_same_file e nodec nr :
  forall fuel j rc pgs st,
    match ecryptfs_read2_grab fuel e nodec nr j rc pgs st with
    | Ok _ st' => same_file st st'
    | _ => True
    end.
Proof.
  induction fuel as [|fuel IH]; intros j rc pgs st; cbn [ecryptfs_read2_grab];
    destruct (j <? u32 nr); try exact I; try apply same_file_refl.
  unfold grab_cache_page.
  destruct (page_acquire e (Z.to_nat j) j) as [| |err].
  - set (st1 := set_page st j _).
    assert (H1 : same_file st st1) by (unfold same_file; auto).
    destruct nodec; cbn [kmap bind].
    + pose proof (readpage_same_file e st1 j) as Hr.
      destruct (readpage e st1 j) as [r st2]. cbn [snd bind] in *.
      destruct (array_set pgs j (PPage j)) as [f|pgs']; [exact I|].
      specialize (IH (u32 (j + 1)) (Z.lor rc r) pgs' st2).
      destruct (ecryptfs_read2_grab fuel e true nr (u32 (j + 1)) (Z.lor rc r) pgs' st2);
        auto.
      eapply same_file_trans; [exact H1|]. eapply same_file_trans; eauto.
    + destruct (array_set pgs j (PPage j)) as [f|pgs']; [exact I|].
      specialize (IH (u32 (j + 1)) rc pgs' st1).
      destruct (ecryptfs_read2_grab fuel e false nr (u32 (j + 1)) rc pgs' st1); auto.
  - apply same_file_refl.
  - destruct nodec; cbn [kmap bind]; [exact I|].
    destruct (array_set pgs j (PErr err)) as [f|pgs']; [exact I|].
    specialize (IH (u32 (j + 1)) rc pgs' st).
    destruct (ecryptfs_read2_grab fuel e false nr (u32 (j + 1)) rc pgs' st); auto.
Qed.

Lemma ecryptfs_read2_loop_same_file pgs rc offset size :
  forall fuel v st,
    match ecryptfs_read2_loop fuel pgs rc offset size v st with
    | Ok (_, v') st' => same_file st st' /\ length (r_data v') = length (r_data v)
    | _ => True
    end.
Proof.
  induction fuel as [|fuel IH]; intros v st; cbn [ecryptfs_read2_loop];
    destruct (_ <? _); try exact I; try (split; [apply same_file_refl|reflexivity]).
  unfold ecryptfs_read2_body.
  destruct (array_get pgs (r_page_idx v)) as [f|p]; [exact I|].
  destruct (IS_ERR p); [split; [apply same_file_refl|reflexivity]|].
  destruct p as [|err|pg]; cbn [kmap]; try exact I.
  match goal with
  | |- match ecryptfs_read2_loop _ _ _ _ _ ?v' ?s with _ => _ end =>
      specialize (IH v' s);
      destruct (ecryptfs_read2_loop fuel pgs rc offset size v' s) as [[c v2] st2| |];
        auto;
      destruct IH as (Hs & Hl); split;
        [eapply same_file_trans; [|exact Hs];
         destruct (negb (rc =? 0)); unfold same_file; auto
        |rewrite Hl; cbn [r_data]; apply length_inserts]
  end.
Qed.

(** [ecryptfs_read2] changes no file content: however the call ends, if
    it returns, the size, the mode flags, the lower file and the
    persisted size record are those from before the call, and the
    destination buffer has kept its length.  This holds in every mode
    and whatever the collaborators report. *)
Theorem read2_changes_no_file_content e st data offset size :
  match ecryptfs_read2 e st data offset size with
  | Ok (_, buf) st' => same_file st st' /\ length buf = length data
  | _ => True
  end.
Proof.
  unfold ecryptfs_read2.
  set (size' := if size >? u64 (i_size st) then u64 (i_size st) else size).
  set (nr := s32 (Z.shiftr (u64 (size' + PAGE_SIZE - 1)) PAGE_SHIFT)).
  set (nodec := negb (flag_set (crypt_flags st) ECRYPTFS_ENCRYPTED)
                || flag_set (crypt_flags st) ECRYPTFS_VIEW_AS_ENCRYPTED).
  set (pgs := if nodec then None else kmalloc_pages e nr).
  destruct (negb nodec && is_null pgs); [split; [apply same_file_refl|reflexivity]|].
  pose proof (ecryptfs_read2_grab_same_file e nodec nr (Z.to_nat (u32 nr)) 0 0 pgs st)
    as Hgrab.
  destruct (ecryptfs_read2_grab _ e nodec nr 0 0 pgs st) as [[c [rc pgs1]] st1| |];
    cbn [bind]; auto.
  assert (Hacc : forall s, same_file st1 s -> same_file st (set_accessed s)).
  { intros s Hs. eapply same_file_trans; [exact Hgrab|].
    eapply same_file_trans; [exact Hs|]. unfold same_file. auto. }
  assert (Hrest : forall rc2 st2, same_file st1 st2 ->
            match (if offset >=? i_size st then Ok (0, data) (set_accessed st2)
                   else do (r, s) <- ecryptfs_read2_loop (walk_fuel offset size' offset)
                                      pgs1 rc2 offset size' (RVars offset 0 0 0 0 data) st2;
                        let '(_c, v) := r in Ok (r_written v, r_data v) (set_accessed s))
            with
            | Ok (_, buf) st' => same_file st st' /\ length buf = length data
            | _ => True
            end).
  { intros rc2 st2 H2. destruct (offset >=? i_size st).
    - split; [apply Hacc, H2|reflexivity].
    - pose proof (ecryptfs_read2_loop_same_file pgs1 rc2 offset size'
                    (walk_fuel offset size' offset) (RVars offset 0 0 0 0 data) st2) as Hl.
      destruct (ecryptfs_read2_loop _ pgs1 rc2 offset size' _ st2) as [[c2 v] st3| |];
        cbn [bind]; auto.
      destruct Hl as (Hs & Hlen). split; [|exact Hlen].
      apply Hacc. eapply same_file_trans; eauto. }
  assert (Hdec : match (if negb nodec then ecryptfs_decrypt_pages e st1 pgs1 nr
                        else Ok rc st1) with
                 | Ok _ st2 => same_file st1 st2
                 | _ => True
                 end).
  { destruct nodec; cbn [negb]; [apply same_file_refl|].
    unfold ecryptfs_decrypt_pages.
    destruct (batch_indices pgs1 0 (Z.to_nat nr)) as [f|l]; [exact I|].
    destruct (decrypt_pages_rc e =? 0); [|apply same_file_refl].
    apply fold_left_same_file. intros s j. unfold same_file. auto. }
  destruct c.
  - destruct (if negb nodec then _ else _) as [rc2 st2| |]; cbn [bind]; auto.
    apply Hrest, Hdec.
  - destruct (if negb nodec then _ else _) as [rc2 st2| |]; cbn [bind]; auto.
    apply Hrest, Hdec.
  - split; [apply Hacc, same_file_refl|reflexivity].
Qed.

(** ** The size across a sequential write *)

(** A step that stops the walk leaves the position where it was; no
    step changes the size or the mode flags. *)
Lemma ecryptfs_write_body_size e data offset size k v st :
  match ecryptfs_write_body e data offset size k v st with
  | Ok (c, v') st' =>
      i_size st' = i_size st /\ crypt_flags st' = crypt_flags st /\
      (c <> Next -> v_pos v' = v_pos v)
  | _ => True
  end.
Proof.
  unfold ecryptfs_write_body, ecryptfs_get_locked_page.
  destruct (fatal_signal_pending e k); [auto|].
  destruct (page_acquire e k (page_index (v_pos v))) as [| |err]; cbn [IS_ERR kmap].
  2: { exact I. }
  2: { destruct (_ && _); cbn [kmap]; auto. }
  set (st1 := set_page st _ _).
  destruct (write_fill_page_fields st1 (page_index (v_pos v)) data offset (v_pos v)
              (v_data_offset v) (write_num_bytes offset size (v_pos v))) as (Hs & Hf & _).
  destruct (write_fill_page st1 _ data offset (v_pos v) _ _) as [st2 doff2].
  cbn [fst] in Hs, Hf.
  change (i_size st1) with (i_size st) in Hs.
  change (crypt_flags st1) with (crypt_flags st) in Hf.
  rewrite <- Hs, <- Hf. clear Hs Hf.
  destruct (flag_set (crypt_flags st2) ECRYPTFS_ENCRYPTED).
  - unfold ecryptfs_encrypt_page.
    destruct (encrypt_page_rc e (page_index (v_pos v)) =? 0); cbn [bind];
      destruct (negb _); cbn [v_pos]; repeat split; auto; congruence.
  - pose proof (write_lower_page_segment_fields e st2 (page_index (v_pos v))
                  (offset_in_page (v_pos v)) (u64 doff2)) as Hseg.
    destruct (ecryptfs_write_lower_page_segment e st2 _ _ _) as [rc st3| |];
      cbn [bind]; auto.
    destruct (negb _); cbn [v_pos]; repeat split; try apply Hseg; auto; congruence.
Qed.

Lemma ecryptfs_write_loop_size e data offset size lo :
  0 <= offset -> 0 <= size -> offset + size < 2 ^ 63 -> 0 <= lo ->
  forall fuel k v st,
    wf_cache st -> lo <= v_pos v <= offset + size ->
    v_data_offset v = Z.max 0 (v_pos v - offset) ->
    match ecryptfs_write_loop fuel e data offset size k v st with
    | Ok (_, v') st' =>
        i_size st' = i_size st /\ crypt_flags st' = crypt_flags st /\
        lo <= v_pos v' <= offset + size
    | _ => True
    end.
Proof.
  intros Hoff Hsize Hmax Hlo fuel.
  induction fuel as [|fuel IH]; intros k v st Hwf Hpos Hdoff;
    cbn [ecryptfs_write_loop]; rewrite !u64_small by lia;
    destruct (Z.ltb_spec (v_pos v) (offset + size)) as [Hlt|Hge]; auto.
  pose proof (ecryptfs_write_body_spec e data offset size Hoff Hsize Hmax k v st
                Hwf ltac:(lia) Hlt Hdoff) as Hbody.
  pose proof (ecryptfs_write_body_size e data offset size k v st) as Hsz.
  destruct (write_num_bytes_spec offset size (v_pos v) ltac:(lia) Hsize Hlt Hmax)
    as (Hn1 & _ & Hnend & _).
  destruct (ecryptfs_write_body e data offset size k v st) as [[c v'] st'| |]; auto.
  destruct Hsz as (Hs & Hf & Hstay).
  destruct c.
  - cbv zeta in Hbody.
    destruct Hbody as (Hpos' & _ & Hdoff' & pg' & Ht & Hlen & _).
    specialize (IH (S k) v' st' ltac:(eapply touched_wf; eauto) ltac:(lia) Hdoff').
    destruct (ecryptfs_write_loop fuel e data offset size (S k) v' st')
      as [[c2 v2] st2| |]; auto.
    destruct IH as (I1 & I2 & I3). repeat split; try congruence; lia.
  - rewrite (Hstay ltac:(discriminate)). auto.
  - rewrite (Hstay ltac:(discriminate)). auto.
Qed.

(** The size across [ecryptfs_write], on every path on which the call
    returns and whatever the collaborators report: it never shrinks, it
    never goes beyond the end of the request, and the mode flags are
    unchanged; the call never runs out of steps. *)
Theorem write_size_never_shrinks e st data offset size :
  wf_cache st ->
  0 <= i_size st -> 0 <= offset -> 0 <= size -> offset + size < 2 ^ 63 ->
  match ecryptfs_write e st data offset size with
  | Ok _ st' =>
      i_size st <= i_size st' <= Z.max (i_size st) (offset + size) /\
      crypt_flags st' = crypt_flags st
  | Crash _ => True
  | OutOfFuel => False
  end.
Proof.
  intros Hwf Hfs Hoff Hsize Hmax.
  destruct (ecryptfs_write_spec e st data offset size Hwf Hfs Hoff Hsize Hmax)
    as (Hspec & _).
  revert Hspec. unfold ecryptfs_write.
  set (lo := write_start offset (i_size st)).
  assert (Hlo : 0 <= lo <= offset /\ lo <= i_size st).
  { unfold lo, write_start. case_cmp; lia. }
  pose proof (ecryptfs_write_loop_size e data offset size lo Hoff Hsize Hmax ltac:(lia)
                (walk_fuel offset size lo) O (WVars lo 0 0) st Hwf
                ltac:(cbn [v_pos]; lia) ltac:(cbn [v_pos v_data_offset]; lia)) as Hloop.
  destruct (ecryptfs_write_loop _ e data offset size O _ st) as [[c v] st1| |];
    cbn [bind]; auto.
  destruct Hloop as (Hs & Hf & Hpos). intros _.
  assert (Hfin : forall s, i_size s = i_size st1 \/ (i_size s = v_pos v /\ i_size st < v_pos v) ->
            crypt_flags s = crypt_flags st1 ->
            i_size st <= i_size s <= Z.max (i_size st) (offset + size) /\
            crypt_flags s = crypt_flags st).
  { intros s [Hz|(Hz & Hgt)] Hc; (split; [lia|congruence]). }
  destruct c.
  - destruct (Z.gtb_spec (v_pos v) (i_size st)) as [Hgt|Hle];
      [|apply Hfin; [left|]; reflexivity].
    destruct (flag_set _ _); [|apply Hfin; [right; split; [reflexivity|exact Hgt]|reflexivity]].
    unfold ecryptfs_write_inode_size_to_metadata.
    destruct (size_to_metadata_rc e =? 0); cbn [negb Z.eqb]; try destruct (negb _);
      (apply Hfin; [right; split; [reflexivity|exact Hgt]|reflexivity]).
  - destruct (Z.gtb_spec (v_pos v) (i_size st)) as [Hgt|Hle];
      [|apply Hfin; [left|]; reflexivity].
    destruct (flag_set _ _); [|apply Hfin; [right; split; [reflexivity|exact Hgt]|reflexivity]].
    unfold ecryptfs_write_inode_size_to_metadata.
    destruct (size_to_metadata_rc e =? 0); cbn [negb Z.eqb]; try destruct (negb _);
      (apply Hfin; [right; split; [reflexivity|exact Hgt]|reflexivity]).
  - apply Hfin; [left|]; reflexivity.
Qed.

Lemma write_size_never_shrinks_witness :
  match ecryptfs_write signal_env hello_encrypted hello 3 5 with
  | Ok _ st' =>
      i_size hello_encrypted <= i_size st' <= Z.max (i_size hello_encrypted) (3 + 5) /\
      crypt_flags st' = crypt_flags hello_encrypted
  | Crash _ => True
  | OutOfFuel => False
  end.
Proof.
  apply (write_size_never_shrinks signal_env hello_encrypted hello 3 5).
  - exact hello_encrypted_wf.
  - cbn [i_size hello_encrypted]. lia.
  - lia.
  - lia.
  - lia.
Defined.
